(** * fis-migration-tool: hash-segmented CSV export to S3

    A shallow embedding of the Go packages [segment], [s3], [exporter],
    [migration], [config], [util], [store] and [sqlgen], with the properties
    of the export pipeline proved over it.

    Conventions.
    - Go [int] and [int32]/[int64] values are [Z]; where the code can leave
      the machine range the wrap-around is written out.
    - Go strings are byte strings ([string], one [ascii] per byte) and are
      compared bytewise, as Go's [<] and [>=] on strings do.
    - Go [error] values are [error]: a message and, for [%w], the wrapped
      cause.
    - Calls that leave the process (S3, MariaDB, the clock) act on an explicit
      [World]; every such call is also appended to the world's trace. *)

From Stdlib Require Import ZArith String Ascii List Lia Bool.
From Stdlib Require Import DecimalString HexadecimalString.
From Stdlib Require Import Sorting.Sorted Sorting.Permutation.
From stdpp Require Import base option list gmap strings.

Local Open Scope Z_scope.

(** ** Errors and results *)

(** [errorString] is [errors.New] / [fmt.Errorf] without [%w];
    [wrapError] is what [fmt.Errorf] builds for a format with [%w]. *)
Inductive error : Type :=
| errorString (msg : string)
| wrapError (msg : string) (err : error).

Definition Error (e : error) : string :=
  match e with
  | errorString msg => msg
  | wrapError msg _ => msg
  end.

(** [errors.Unwrap], iterated down to the innermost cause. *)
Fixpoint root_cause (e : error) : error :=
  match e with
  | errorString _ => e
  | wrapError _ e' => root_cause e'
  end.

Definition error_eqb_msg (e : error) (msg : string) : bool :=
  match e with
  | errorString m => String.eqb m msg
  | wrapError _ _ => false
  end.

Inductive result (A : Type) : Type :=
| Ok (a : A)
| Err (e : error).
Arguments Ok {A} a.
Arguments Err {A} e.

Definition is_ok {A} (r : result A) : bool :=
  match r with Ok _ => true | Err _ => false end.

(** ** Go string comparison and slicing *)

Definition str_lt (a b : string) : bool := String.ltb a b.
Definition str_le (a b : string) : bool := String.leb a b.
Definition str_gt (a b : string) : bool := String.ltb b a.
Definition str_ge (a b : string) : bool := String.leb b a.
Definition len (s : string) : Z := Z.of_nat (String.length s).

(** ** [fmt.Sprintf] and [fmt.Errorf]

    The verbs the program uses: [%s], [%d], [%02x], [%w]/[%v] (with an error
    operand) and [%%].  A verb whose operand is missing prints Go's
    [%!v(MISSING)] marker; operands of the wrong kind print the [%!v(type=...)]
    marker.  Any other character after [%] is not used by the program and is
    copied through. *)
Module fmt.

Inductive arg : Type :=
| AInt (z : Z)
| AStr (s : string)
| AErr (e : error).

Definition itoa (z : Z) : string :=
  DecimalString.NilZero.string_of_int (Z.to_int z).

Definition hex_of_N (n : N) : string :=
  HexadecimalString.NilZero.string_of_uint (N.to_hex_uint n).

(** [%02x] on an integer: lowercase hexadecimal, zero-padded to width two;
    the sign of a negative operand counts towards the width. *)
Definition fmt_02x (z : Z) : string :=
  if z <? 0 then "-" +:+ hex_of_N (Z.to_N (- z))
  else
    let s := hex_of_N (Z.to_N z) in
    if Nat.ltb (String.length s) 2 then "0" +:+ s else s.

Definition bad_verb (v : string) (a : option arg) : string :=
  match a with
  | None => "%!" +:+ v +:+ "(MISSING)"
  | Some (AInt z) => "%!" +:+ v +:+ "(int=" +:+ itoa z +:+ ")"
  | Some (AStr s) => "%!" +:+ v +:+ "(string=" +:+ s +:+ ")"
  | Some (AErr e) => "%!" +:+ v +:+ "(*errors.errorString=" +:+ Error e +:+ ")"
  end.

Definition verb_s (a : option arg) : string :=
  match a with
  | Some (AStr s) => s
  | Some (AErr e) => Error e
  | _ => bad_verb "s" a
  end.

Definition verb_d (a : option arg) : string :=
  match a with
  | Some (AInt z) => itoa z
  | _ => bad_verb "d" a
  end.

Definition verb_02x (a : option arg) : string :=
  match a with
  | Some (AInt z) => fmt_02x z
  | _ => bad_verb "x" a
  end.

Definition verb_w (a : option arg) : string :=
  match a with
  | Some (AErr e) => Error e
  | Some (AStr s) => s
  | Some (AInt z) => itoa z
  | None => bad_verb "w" a
  end.

Definition wrapped (a : option arg) : option error :=
  match a with
  | Some (AErr e) => Some e
  | _ => None
  end.

(** One pass over the format: the text, and the operand of the first [%w]. *)
Fixpoint run (format : string) (args : list arg) : string * option error :=
  match format with
  | EmptyString => (EmptyString, None)
  | String "%" (String "s" rest) =>
      let '(out, w) := run rest (tail args) in (verb_s (head args) +:+ out, w)
  | String "%" (String "d" rest) =>
      let '(out, w) := run rest (tail args) in (verb_d (head args) +:+ out, w)
  | String "%" (String "0" (String "2" (String "x" rest))) =>
      let '(out, w) := run rest (tail args) in (verb_02x (head args) +:+ out, w)
  | String "%" (String "v" rest) =>
      let '(out, w) := run rest (tail args) in (verb_w (head args) +:+ out, w)
  | String "%" (String "w" rest) =>
      let '(out, w) := run rest (tail args) in
      (verb_w (head args) +:+ out,
       match wrapped (head args) with Some e => Some e | None => w end)
  | String "%" (String "%" rest) =>
      let '(out, w) := run rest args in (String "%" out, w)
  | String c rest =>
      let '(out, w) := run rest args in (String c out, w)
  end.

Definition Sprintf (format : string) (args : list arg) : string :=
  fst (run format args).

Definition Errorf (format : string) (args : list arg) : error :=
  match run format args with
  | (msg, Some e) => wrapError msg e
  | (msg, None) => errorString msg
  end.

End fmt.
Import fmt.


(** ** Package [segment]: partitioning the hash prefix space [00, ff] *)
Module segment.

(** [type Segment struct { Index int; StartHex, EndHex string }] *)
Record Segment : Type := mkSegment {
  Index : Z;
  StartHex : string;
  EndHex : string
}.

Definition set_EndHex (s : Segment) (e : string) : Segment :=
  {| Index := Index s; StartHex := StartHex s; EndHex := e |}.

(** [intToHex]: a two-digit hex string, and ["100"] from 256 on. *)
Definition intToHex (val : Z) : string :=
  if 256 <=? val then "100" else Sprintf "%02x" [AInt val].

(** The body of [for i := 0; i < segments; i++] in [SegmentHashSpace]: [todo]
    iterations remain, the loop variables are [i] and [start], and the
    result lists the elements written to [segs[i], segs[i+1], ...]. *)
Fixpoint fill (todo : nat) (i start segmentSize remainder : Z) : list Segment :=
  match todo with
  | O => []
  | S todo' =>
      let size := if i <? remainder then segmentSize + 1 else segmentSize in
      let end_ := start + size in
      let end_ := if 256 <? end_ then 256 else end_ in
      mkSegment i (intToHex start) (intToHex end_)
        :: fill todo' (i + 1) end_ segmentSize remainder
  end.

(** The closing adjustment: [if segs[lastIdx].EndHex == "ff"] it becomes
    ["100"]. *)
Definition fix_last (segs : list Segment) : list Segment :=
  match last segs with
  | Some s =>
      if String.eqb (EndHex s) "ff"
      then <[ Nat.pred (length segs) := set_EndHex s "100" ]> segs
      else segs
  | None => segs
  end.

Definition SegmentHashSpace (segments : Z) : result (list Segment) :=
  if segments <=? 0 then
    Err (Errorf "segments must be positive, got %d" [AInt segments])
  else if 256 <? segments then
    Err (Errorf "segments cannot exceed 256, got %d" [AInt segments])
  else
    let segmentSize := Z.quot 256 segments in
    let remainder := Z.rem 256 segments in
    Ok (fix_last (fill (Z.to_nat segments) 0 0 segmentSize remainder)).

Definition SegmentToHexRange (segmentIndex totalSegments : Z) : result (string * string) :=
  if (segmentIndex <? 0) || (totalSegments <=? segmentIndex) then
    Err (Errorf "segment index %d out of range [0, %d)" [AInt segmentIndex; AInt totalSegments])
  else
    match SegmentHashSpace totalSegments with
    | Err err => Err err
    | Ok segs =>
        if Z.of_nat (length segs) <=? segmentIndex then
          Err (Errorf "segment index %d out of range" [AInt segmentIndex])
        else
          match segs !! Z.to_nat segmentIndex with
          | Some s => Ok (StartHex s, EndHex s)
          | None => Err (errorString "index out of range")
          end
    end.

(** [HashInSegment]: the first two bytes of the hash, compared as strings. *)
Definition HashInSegment (hash : string) (seg : Segment) : bool :=
  if len hash <? 2 then false
  else
    let hashPrefix := substring 0 2 hash in
    str_ge hashPrefix (StartHex seg) && str_lt hashPrefix (EndHex seg).

(** *** [HexToInt]: [big.Int.SetString(hexStr, 16)], then [int(val.Int64())] *)

Definition hex_digit (c : ascii) : option Z :=
  let n := Z.of_nat (nat_of_ascii c) in
  if (48 <=? n) && (n <=? 57) then Some (n - 48)
  else if (97 <=? n) && (n <=? 102) then Some (n - 97 + 10)
  else if (65 <=? n) && (n <=? 70) then Some (n - 65 + 10)
  else None.

Fixpoint hex_digits (acc : Z) (s : string) : option Z :=
  match s with
  | EmptyString => Some acc
  | String c rest =>
      match hex_digit c with
      | Some d => hex_digits (16 * acc + d) rest
      | None => None
      end
  end.

(** An optional sign, then at least one hex digit, then the end of the string. *)
Definition big_SetString16 (s : string) : option Z :=
  let '(neg, body) :=
    match s with
    | String "-" rest => (true, rest)
    | String "+" rest => (false, rest)
    | _ => (false, s)
    end in
  match body with
  | EmptyString => None
  | _ => match hex_digits 0 body with
         | Some v => Some (if neg then - v else v)
         | None => None
         end
  end.

(** [big.Int.Int64] keeps the low 64 bits, two's complement. *)
Definition wrap64 (z : Z) : Z := (z + 2 ^ 63) mod 2 ^ 64 - 2 ^ 63.

Definition HexToInt (hexStr : string) : result Z :=
  match big_SetString16 hexStr with
  | Some val => Ok (wrap64 val)
  | None => Err (Errorf "invalid hex string: %s" [AStr hexStr])
  end.

End segment.

(** ** Package [config]: the fields of [config.Config] the export reads *)
Module config.

Record Config : Type := mkConfig {
  TenantID : Z;
  TableName : string;
  MariaDBDatabase : string;
  BatchSize : Z;
  S3Bucket : string;
  S3Prefix : string;
  MaxParallelSegs : Z
}.

End config.

(** ** The world outside the process

    The object store and the database are collaborators, not code of this
    repository.  They are modelled by the state they keep and by a script of
    faults: each call that leaves the process consumes the next entry of its
    script and fails with the error found there, if any.  A failed call
    leaves the collaborator's state unchanged. *)
Module world.

(** *** The object store (one bucket) *)

(** [types.CompletedPart]: the tag the store returned for a part, and its number. *)
Record CompletedPart : Type := mkCompletedPart {
  ETag : string;
  PartNumber : Z
}.

(** An idealised content tag: distinct bodies have distinct tags. *)
Definition etag_of (body : string) : string := body.

(** A multipart session: the key it will become, and the parts received so
    far by part number (a part sent again under the same number replaces the
    earlier one). *)
Record Upload : Type := mkUpload {
  up_key : string;
  up_parts : gmap Z string
}.

(** *** The database *)

(** A civil time, as [time.Time.Format] prints the fields of a timestamp. *)
Record Time : Type := mkTime {
  year : Z; month : Z; day : Z; hour : Z; minute : Z; second : Z
}.

(** A row of [fis_aggr]: [last_modified] and [version] are nullable. *)
Record DbRow : Type := mkDbRow {
  c_tenantid : Z;
  c_hash : string;
  c_aggr : string;
  c_last_modified : option Time;
  c_version : option Z
}.

(** A bound query argument ([interface{}] holding an [int] or a [string]). *)
Inductive value : Type :=
| VInt (z : Z)
| VStr (s : string).

Inductive db_fault : Type :=
| NoFault
| CallFault (e : error)     (* BeginTx, QueryContext or Commit returns [e] *)
| ScanFault (e : error)     (* [rows.Scan] fails on a row of the result *)
| RowsFault (e : error).    (* [rows.Err] reports [e] after the last row *)

Inductive tx_status : Type := TxNone | TxOpen | TxCommitted | TxRolledBack.

(** *** The trace: every call that left the process, oldest first *)
Inductive event : Type :=
| EvCreateMultipartUpload (key : string) (ok : bool)
| EvUploadPart (uploadID : nat) (partNumber : Z) (body : string) (ok : bool)
| EvCompleteMultipartUpload (uploadID : nat) (parts : list CompletedPart) (ok : bool)
| EvAbortMultipartUpload (uploadID : nat) (ok : bool)
| EvSleep (nanoseconds : Z)
| EvBeginTx (ok : bool)
| EvQuery (query : string) (args : list value) (ok : bool)
| EvCommit (ok : bool)
| EvRollback.

Record World : Type := mkWorld {
  uploads : gmap nat Upload;
  objects : gmap string string;
  next_upload : nat;
  s3_script : list (option error);
  tables : gmap string (list DbRow);
  db_script : list db_fault;
  tx : tx_status;
  trace : list event
}.

Definition set_store (w : World) (u : gmap nat Upload) (o : gmap string string) (n : nat) : World :=
  mkWorld u o n (s3_script w) (tables w) (db_script w) (tx w) (trace w).
Definition set_s3_script (w : World) (s : list (option error)) : World :=
  mkWorld (uploads w) (objects w) (next_upload w) s (tables w) (db_script w) (tx w) (trace w).
Definition set_db_script (w : World) (s : list db_fault) : World :=
  mkWorld (uploads w) (objects w) (next_upload w) (s3_script w) (tables w) s (tx w) (trace w).
Definition set_tx (w : World) (t : tx_status) : World :=
  mkWorld (uploads w) (objects w) (next_upload w) (s3_script w) (tables w) (db_script w) t (trace w).
Definition log (ev : event) (w : World) : World :=
  mkWorld (uploads w) (objects w) (next_upload w) (s3_script w) (tables w) (db_script w) (tx w)
          (trace w ++ [ev]).

(** Computations that act on the world. *)
Definition M (A : Type) : Type := World -> A * World.
Definition ret {A} (a : A) : M A := fun w => (a, w).
Definition bind {A B} (m : M A) (k : A -> M B) : M B :=
  fun w => let '(a, w') := m w in k a w'.

Definition s3_fault : M (option error) := fun w =>
  match s3_script w with
  | [] => (None, w)
  | f :: rest => (f, set_s3_script w rest)
  end.

Definition db_next_fault : M db_fault := fun w =>
  match db_script w with
  | [] => (NoFault, w)
  | f :: rest => (f, set_db_script w rest)
  end.

(** [time.Sleep]: only the requested duration is recorded. *)
Definition Sleep (d : Z) : M unit := fun w => (tt, log (EvSleep d) w).

(** **** The store's four calls *)

Definition CreateMultipartUpload (key : string) : M (result nat) := fun w =>
  let '(f, w) := s3_fault w in
  match f with
  | Some e => (Err e, log (EvCreateMultipartUpload key false) w)
  | None =>
      let id := next_upload w in
      let w := set_store w (<[id := mkUpload key ∅]> (uploads w)) (objects w) (S id) in
      (Ok id, log (EvCreateMultipartUpload key true) w)
  end.

Definition UploadPart (uploadID : nat) (partNumber : Z) (body : string) : M (result string) :=
  fun w =>
  let '(f, w) := s3_fault w in
  match f, uploads w !! uploadID with
  | Some e, _ => (Err e, log (EvUploadPart uploadID partNumber body false) w)
  | None, None =>
      (Err (errorString "NoSuchUpload"), log (EvUploadPart uploadID partNumber body false) w)
  | None, Some u =>
      let u' := mkUpload (up_key u) (<[partNumber := body]> (up_parts u)) in
      let w := set_store w (<[uploadID := u']> (uploads w)) (objects w) (next_upload w) in
      (Ok (etag_of body), log (EvUploadPart uploadID partNumber body true) w)
  end.

(** The bodies of the listed parts, in the order listed: every part must have
    been received under its number with the tag given, and the numbers must
    ascend strictly. *)
Fixpoint assemble (stored : gmap Z string) (above : option Z) (parts : list CompletedPart)
  : option string :=
  match parts with
  | [] => Some EmptyString
  | p :: rest =>
      let ascending := match above with Some n => n <? PartNumber p | None => true end in
      match stored !! PartNumber p with
      | Some body =>
          if ascending && String.eqb (etag_of body) (ETag p) then
            match assemble stored (Some (PartNumber p)) rest with
            | Some tl => Some (body +:+ tl)
            | None => None
            end
          else None
      | None => None
      end
  end.

Definition CompleteMultipartUpload (uploadID : nat) (parts : list CompletedPart)
  : M (result unit) := fun w =>
  let '(f, w) := s3_fault w in
  let failed e := (Err e, log (EvCompleteMultipartUpload uploadID parts false) w) in
  match f, uploads w !! uploadID with
  | Some e, _ => failed e
  | None, None => failed (errorString "NoSuchUpload")
  | None, Some u =>
      match parts, assemble (up_parts u) None parts with
      | [], _ => failed (errorString "MalformedXML")
      | _ :: _, None => failed (errorString "InvalidPart")
      | _ :: _, Some body =>
          let w := set_store w (delete uploadID (uploads w))
                             (<[up_key u := body]> (objects w)) (next_upload w) in
          (Ok tt, log (EvCompleteMultipartUpload uploadID parts true) w)
      end
  end.

Definition AbortMultipartUpload (uploadID : nat) : M (result unit) := fun w =>
  let '(f, w) := s3_fault w in
  match f, uploads w !! uploadID with
  | Some e, _ => (Err e, log (EvAbortMultipartUpload uploadID false) w)
  | None, None => (Err (errorString "NoSuchUpload"), log (EvAbortMultipartUpload uploadID false) w)
  | None, Some _ =>
      let w := set_store w (delete uploadID (uploads w)) (objects w) (next_upload w) in
      (Ok tt, log (EvAbortMultipartUpload uploadID true) w)
  end.

End world.

(** ** The database's side of [tx.QueryContext]

    The statement text and its positional arguments are all the exporter
    hands to MariaDB, so the model reads the text: it recognises
    [SELECT ... FROM t WHERE c op x AND ... ORDER BY hash LIMIT n], binds each
    [?] to the next argument, and evaluates the statement over the snapshot
    of table [t].  Strings compare bytewise (a binary collation).  No writer
    runs inside the model, so every statement of a transaction reads the same
    snapshot, which is what REPEATABLE READ provides. *)
Module mariadb.
Import world.

Definition is_space (c : ascii) : bool :=
  match c with
  | " "%char | "009"%char | "010"%char | "013"%char => true
  | _ => false
  end.

Definition flush (cur : string) : list string :=
  match cur with EmptyString => [] | _ => [cur] end.

(** The statement's words, split at blanks, tabs and line ends. *)
Fixpoint tokenize (cur : string) (s : string) : list string :=
  match s with
  | EmptyString => flush cur
  | String c rest =>
      if is_space c then flush cur ++ tokenize EmptyString rest
      else tokenize (cur +:+ String c EmptyString) rest
  end.

Inductive column : Type := ColTenantid | ColHash.
Inductive cmp : Type := OpEq | OpLt | OpLe | OpGt | OpGe.
Inductive operand : Type := Placeholder | Literal (s : string).

Record atom : Type := mkAtom { a_col : column; a_op : cmp; a_arg : operand }.

Record select : Type := mkSelect {
  sel_table : string;
  sel_where : list atom;
  sel_limit : operand
}.

Definition parse_column (t : string) : option column :=
  if String.eqb t "tenantid" then Some ColTenantid
  else if String.eqb t "hash" then Some ColHash
  else None.

Definition parse_cmp (t : string) : option cmp :=
  if String.eqb t "=" then Some OpEq
  else if String.eqb t "<" then Some OpLt
  else if String.eqb t "<=" then Some OpLe
  else if String.eqb t ">" then Some OpGt
  else if String.eqb t ">=" then Some OpGe
  else None.

(** [?], or a literal between single quotes. *)
Definition parse_operand (t : string) : option operand :=
  if String.eqb t "?" then Some Placeholder
  else
    let n := String.length t in
    if Nat.leb 2 n && String.eqb (substring 0 1 t) "'"
       && String.eqb (substring (n - 1) 1 t) "'"
    then Some (Literal (substring 1 (n - 2) t))
    else None.

Definition parse_atom (c o a : string) : option atom :=
  match parse_column c, parse_cmp o, parse_operand a with
  | Some c, Some o, Some a => Some (mkAtom c o a)
  | _, _, _ => None
  end.

(** A conjunction of comparisons, up to the first word that is not [AND]. *)
Fixpoint parse_where (toks : list string) : option (list atom * list string) :=
  match toks with
  | c :: o :: a :: rest =>
      match parse_atom c o a with
      | None => None
      | Some at1 =>
          match rest with
          | k :: rest' =>
              if String.eqb k "AND" then
                match parse_where rest' with
                | Some (ats, tl) => Some (at1 :: ats, tl)
                | None => None
                end
              else Some ([at1], rest)
          | [] => Some ([at1], [])
          end
      end
  | _ => None
  end.

Definition parse_select (query : string) : option select :=
  match tokenize EmptyString query with
  | "SELECT" :: "tenantid," :: "hash," :: "aggr," :: "last_modified," :: "version"
      :: "FROM" :: table :: "WHERE" :: conds =>
      match parse_where conds with
      | Some (ats, ["ORDER"; "BY"; "hash"; "LIMIT"; lim]) =>
          match parse_operand lim with
          | Some l => Some (mkSelect table ats l)
          | None => None
          end
      | _ => None
      end
  | _ => None
  end.

(** Binding: each [?] takes the next argument, in the order of the text. *)
Definition bind_operand (o : operand) (args : list value) : option (value * list value) :=
  match o with
  | Literal s => Some (VStr s, args)
  | Placeholder => match args with v :: rest => Some (v, rest) | [] => None end
  end.

Fixpoint bind_where (ats : list atom) (args : list value)
  : option (list (column * cmp * value) * list value) :=
  match ats with
  | [] => Some ([], args)
  | a :: rest =>
      match bind_operand (a_arg a) args with
      | None => None
      | Some (v, args') =>
          match bind_where rest args' with
          | Some (bs, args'') => Some ((a_col a, a_op a, v) :: bs, args'')
          | None => None
          end
      end
  end.

Definition cmp_Z (o : cmp) (x y : Z) : bool :=
  match o with
  | OpEq => x =? y | OpLt => x <? y | OpLe => x <=? y | OpGt => y <? x | OpGe => y <=? x
  end.

Definition cmp_string (o : cmp) (x y : string) : bool :=
  match o with
  | OpEq => String.eqb x y
  | OpLt => str_lt x y | OpLe => str_le x y | OpGt => str_gt x y | OpGe => str_ge x y
  end.

(** A comparison of a column with a value of another type is refused. *)
Definition eval_atom (b : column * cmp * value) (r : DbRow) : option bool :=
  match b with
  | (ColTenantid, o, VInt z) => Some (cmp_Z o (c_tenantid r) z)
  | (ColHash, o, VStr s) => Some (cmp_string o (c_hash r) s)
  | _ => None
  end.

Fixpoint eval_where (bs : list (column * cmp * value)) (r : DbRow) : option bool :=
  match bs with
  | [] => Some true
  | b :: rest =>
      match eval_atom b r, eval_where rest r with
      | Some x, Some y => Some (x && y)
      | _, _ => None
      end
  end.

Definition well_typed (bs : list (column * cmp * value)) : bool :=
  forallb (fun b => match b with
                    | (ColTenantid, _, VInt _) | (ColHash, _, VStr _) => true
                    | _ => false
                    end) bs.

Definition keeps (bs : list (column * cmp * value)) (r : DbRow) : bool :=
  match eval_where bs r with Some b => b | None => false end.

(** [ORDER BY hash]: a stable insertion sort on the hash column. *)
Fixpoint insert_by_hash (r : DbRow) (l : list DbRow) : list DbRow :=
  match l with
  | [] => [r]
  | x :: rest =>
      if str_le (c_hash r) (c_hash x) then r :: l else x :: insert_by_hash r rest
  end.

Fixpoint order_by_hash (l : list DbRow) : list DbRow :=
  match l with
  | [] => []
  | x :: rest => insert_by_hash x (order_by_hash rest)
  end.

(** The rows a statement returns, or the server's error. *)
Definition execute (tbls : gmap string (list DbRow)) (query : string) (args : list value)
  : result (list DbRow) :=
  match parse_select query with
  | None => Err (errorString "Error 1064: You have an error in your SQL syntax")
  | Some q =>
      match tbls !! sel_table q with
      | None => Err (errorString "Error 1146: Table doesn't exist")
      | Some rows =>
          match bind_where (sel_where q) args with
          | None => Err (errorString "sql: expected more arguments")
          | Some (bs, args') =>
              match bind_operand (sel_limit q) args' with
              | Some (VInt limit, []) =>
                  if negb (well_typed bs) then
                    Err (errorString "Error 1292: Incorrect value")
                  else if limit <? 0 then
                    Err (errorString "Error 1064: You have an error in your SQL syntax")
                  else
                    Ok (take (Z.to_nat limit) (order_by_hash (List.filter (keeps bs) rows)))
              | _ => Err (errorString "sql: wrong number or type of arguments")
              end
          end
      end
  end.

End mariadb.

(** ** Package [database/sql]: one transaction on the modelled database *)
Module sql.
Import world.

Definition ErrTxDone : error :=
  errorString "sql: transaction has already been committed or rolled back".

Definition fault_error (f : db_fault) : option error :=
  match f with
  | NoFault => None
  | CallFault e | ScanFault e | RowsFault e => Some e
  end.

(** [db.BeginTx(ctx, &sql.TxOptions{Isolation: sql.LevelRepeatableRead})] *)
Definition BeginTx : M (result unit) := fun w =>
  let '(f, w) := db_next_fault w in
  match fault_error f with
  | Some e => (Err e, log (EvBeginTx false) w)
  | None => (Ok tt, log (EvBeginTx true) (set_tx w TxOpen))
  end.

(** [tx.QueryContext]: the result set, together with the fault that reading
    it will meet ([rows.Scan], [rows.Err]). *)
Definition QueryContext (query : string) (args : list value)
  : M (result (list DbRow * db_fault)) := fun w =>
  let '(f, w) := db_next_fault w in
  let failed e := (Err e, log (EvQuery query args false) w) in
  match f, tx w with
  | CallFault e, _ => failed e
  | _, TxOpen =>
      match mariadb.execute (tables w) query args with
      | Err e => failed e
      | Ok rows => (Ok (rows, f), log (EvQuery query args true) w)
      end
  | _, _ => failed ErrTxDone
  end.

(** [tx.Commit]: a commit that fails leaves the transaction to the deferred
    rollback. *)
Definition Commit : M (option error) := fun w =>
  let '(f, w) := db_next_fault w in
  match fault_error f, tx w with
  | Some e, _ => (Some e, log (EvCommit false) w)
  | None, TxOpen => (None, log (EvCommit true) (set_tx w TxCommitted))
  | None, _ => (Some ErrTxDone, log (EvCommit false) w)
  end.

(** [tx.Rollback]: ends an open transaction; after a commit it does nothing
    ("safe to call even if committed"). *)
Definition Rollback : M unit := fun w =>
  match tx w with
  | TxOpen => (tt, log EvRollback (set_tx w TxRolledBack))
  | _ => (tt, log EvRollback w)
  end.

End sql.

(** ** Package [s3]: the streaming multipart upload *)
Module s3.
Import world config.

Definition maxS3Retries : Z := 5.
(** [1 * time.Second], in nanoseconds *)
Definition initialRetryDelay : Z := 1 * 1000000000.

(** [int32] arithmetic wraps. *)
Definition wrap32 (z : Z) : Z := (z + 2 ^ 31) mod 2 ^ 32 - 2 ^ 31.

(** [type MultipartUploadStream struct]; the uploader, logger and context
    fields carry no state of their own. *)
Record MultipartUploadStream : Type := mkStream {
  bucket : string;
  key : string;
  uploadID : option nat;
  parts : list CompletedPart;
  partNumber : Z
}.

Definition nil_uploadID : error :=
  errorString "validation error: missing required field, UploadId".

(** [abortMultipartUpload]: nothing for a nil upload id; otherwise one
    [AbortMultipartUpload] call whose failure is only logged. *)
Definition abortMultipartUpload (bucket key : string) (uploadID : option nat) : M unit :=
  match uploadID with
  | None => ret tt
  | Some id => fun w => let '(_, w) := AbortMultipartUpload id w in (tt, w)
  end.

Definition NewMultipartUploadStream (cfg : Config) (s3Key : string)
  : M (result MultipartUploadStream) := fun w =>
  let '(createOutput, w) := CreateMultipartUpload s3Key w in
  match createOutput with
  | Err err => (Err (Errorf "failed to create multipart upload: %w" [AErr err]), w)
  | Ok id => (Ok (mkStream (S3Bucket cfg) s3Key (Some id) [] 1), w)
  end.

(** The retry loop of [UploadPart]:
    [for attempt := 1; attempt <= maxS3Retries; attempt++], with [todo]
    iterations left and the loop's [partOutput] and [err] as they stand. *)
Fixpoint upload_attempts (todo : nat) (attempt : Z) (m : MultipartUploadStream)
    (data : string) (partOutput : option string) (err : option error)
  : M (option string * option error) :=
  match todo with
  | O => ret (partOutput, err)
  | S todo' => fun w =>
      let '(r, w) :=
        match uploadID m with
        | Some id => UploadPart id (partNumber m) data w
        | None => (Err nil_uploadID, w)
        end in
      match r with
      | Ok etag => ((Some etag, None), w)
      | Err e =>
          let w :=
            if attempt <? maxS3Retries
            then snd (Sleep (initialRetryDelay * attempt) w)
            else w in
          upload_attempts todo' (attempt + 1) m data None (Some e) w
      end
  end.

Definition nil_dereference : error :=
  errorString "panic: runtime error: invalid memory address or nil pointer dereference".

(** [MultipartUploadStream.UploadPart]: the error returned and the stream
    as the call leaves it. *)
Definition UploadPart (m : MultipartUploadStream) (data : string)
  : M (option error * MultipartUploadStream) :=
  if len data =? 0 then ret (None, m)
  else fun w =>
    let '((partOutput, err), w) :=
      upload_attempts (Z.to_nat maxS3Retries) 1 m data None None w in
    match err, partOutput with
    | Some e, _ =>
        let '(_, w) := abortMultipartUpload (bucket m) (key m) (uploadID m) w in
        ((Some (Errorf "failed to upload part %d: %w" [AInt (partNumber m); AErr e]), m), w)
    | None, Some etag =>
        ((None,
          mkStream (bucket m) (key m) (uploadID m)
                   (parts m ++ [mkCompletedPart etag (partNumber m)])
                   (wrap32 (partNumber m + 1))), w)
    | None, None => ((Some nil_dereference, m), w)
    end.

(** [MultipartUploadStream.Complete] *)
Definition Complete (m : MultipartUploadStream) : M (option error) :=
  if Z.of_nat (length (parts m)) =? 0 then fun w =>
    let '(_, w) := abortMultipartUpload (bucket m) (key m) (uploadID m) w in
    (Some (Errorf "no parts uploaded" []), w)
  else fun w =>
    let '(r, w) :=
      match uploadID m with
      | Some id => CompleteMultipartUpload id (parts m) w
      | None => (Err nil_uploadID, w)
      end in
    match r with
    | Err err =>
        let '(_, w) := abortMultipartUpload (bucket m) (key m) (uploadID m) w in
        (Some (Errorf "failed to complete multipart upload: %w" [AErr err]), w)
    | Ok _ => (None, w)
    end.

(** [UploadFileWithRetry], the uploader's other retry loop, over whatever
    [UploadFile] does: [delay] starts at [initialRetryDelay] and doubles after
    every wait ([float64(delay) * 2] is exact at these magnitudes). *)
Fixpoint upload_file_attempts (todo : nat) (attempt delay : Z) (UploadFile : M (option error))
    (lastErr : option error) : M (option error) :=
  match todo with
  | O =>
      ret (Some (match lastErr with
                 | Some e => Errorf "upload failed after %d attempts: %w"
                                    [AInt maxS3Retries; AErr e]
                 | None => errorString "upload failed after 5 attempts: %!w(<nil>)"
                 end))
  | S todo' => fun w =>
      let '(err, w) := UploadFile w in
      match err with
      | None => (None, w)
      | Some e =>
          if attempt <? maxS3Retries then
            let '(_, w) := Sleep delay w in
            upload_file_attempts todo' (attempt + 1) (delay * 2) UploadFile (Some e) w
          else upload_file_attempts todo' (attempt + 1) delay UploadFile (Some e) w
      end
  end.

Definition UploadFileWithRetry (UploadFile : M (option error)) : M (option error) :=
  upload_file_attempts (Z.to_nat maxS3Retries) 1 initialRetryDelay UploadFile None.

(** [MultipartUploadStream.Abort] *)
Definition Abort (m : MultipartUploadStream) : M unit :=
  abortMultipartUpload (bucket m) (key m) (uploadID m).

End s3.

(** ** Package [exporter] *)
Module exporter.
Import world.

(** [type Row struct]: nil pointers are [None]. *)
Record Row : Type := mkRow {
  TenantID : Z;
  Hash : string;
  Aggr : string;
  LastModified : option Time;
  Version : option Z
}.

(** [type CSVFile struct] *)
Record CSVFile : Type := mkCSVFile {
  FilePath : string;
  S3Key : string;
  Segment : segment.Segment;
  RowCount : Z
}.

(** *** [encoding/csv]: what [Writer.Write] appends for one record

    With the default comma and a [bytes.Buffer] underneath, [Write], [Flush]
    and [Error] cannot fail. *)

Definition dquote : ascii := "034"%char.
Definition CR : ascii := "013"%char.
Definition LF : ascii := "010"%char.

Fixpoint has_special (field : string) : bool :=
  match field with
  | EmptyString => false
  | String c rest =>
      Ascii.eqb c LF || Ascii.eqb c CR || Ascii.eqb c dquote || Ascii.eqb c ","%char
      || has_special rest
  end.

(** [unicode.IsSpace] of the first UTF-8 rune of the field. *)
Definition first_rune_is_space (field : string) : bool :=
  match field with
  | EmptyString => false
  | String c0 rest =>
      let b0 := nat_of_ascii c0 in
      if (Nat.leb 9 b0 && Nat.leb b0 13) || Nat.eqb b0 32 then true
      else
        match rest with
        | EmptyString => false
        | String c1 rest1 =>
            let b1 := nat_of_ascii c1 in
            if Nat.eqb b0 194 then Nat.eqb b1 133 || Nat.eqb b1 160
            else
              match rest1 with
              | EmptyString => false
              | String c2 _ =>
                  let b2 := nat_of_ascii c2 in
                  (Nat.eqb b0 225 && Nat.eqb b1 154 && Nat.eqb b2 128)
                  || (Nat.eqb b0 226 && Nat.eqb b1 128
                      && ((Nat.leb 128 b2 && Nat.leb b2 138)
                          || Nat.eqb b2 168 || Nat.eqb b2 169 || Nat.eqb b2 175))
                  || (Nat.eqb b0 226 && Nat.eqb b1 129 && Nat.eqb b2 159)
                  || (Nat.eqb b0 227 && Nat.eqb b1 128 && Nat.eqb b2 128)
              end
        end
  end.

Definition fieldNeedsQuotes (field : string) : bool :=
  if String.eqb field "" then false
  else if String.eqb field "\." then true
  else if has_special field then true
  else first_rune_is_space field.

(** Inside quotes only the quote itself is rewritten (doubled). *)
Fixpoint escape_quotes (field : string) : string :=
  match field with
  | EmptyString => EmptyString
  | String c rest =>
      if Ascii.eqb c dquote then String dquote (String dquote (escape_quotes rest))
      else String c (escape_quotes rest)
  end.

Definition csv_field (field : string) : string :=
  if fieldNeedsQuotes field
  then String dquote (escape_quotes field +:+ String dquote EmptyString)
  else field.

Fixpoint csv_fields (record : list string) : string :=
  match record with
  | [] => EmptyString
  | [f] => csv_field f
  | f :: rest => csv_field f +:+ "," +:+ csv_fields rest
  end.

Definition csv_Write (record : list string) : string :=
  csv_fields record +:+ String LF EmptyString.

(** *** Formatting *)

Fixpoint zeros (n : nat) : string :=
  match n with O => EmptyString | S n' => String "0" (zeros n') end.

(** [time.appendInt]: zero-padded to [width], the sign first. *)
Definition appendInt (x : Z) (width : nat) : string :=
  let digits := itoa (Z.abs x) in
  (if x <? 0 then "-" else "") +:+ zeros (width - String.length digits) +:+ digits.

(** [t.Format("2006-01-02 15:04:05")] *)
Definition Time_Format (t : Time) : string :=
  appendInt (year t) 4 +:+ "-" +:+ appendInt (month t) 2 +:+ "-" +:+ appendInt (day t) 2
  +:+ " " +:+ appendInt (hour t) 2 +:+ ":" +:+ appendInt (minute t) 2
  +:+ ":" +:+ appendInt (second t) 2.

Definition formatTimestamp (t : option Time) : string :=
  match t with
  | None => ""
  | Some t => Time_Format t
  end.

Definition formatInt (i : option Z) : string :=
  match i with
  | None => ""
  | Some i => Sprintf "%d" [AInt i]
  end.

Definition header : list string :=
  ["tenantid"; "hash"; "aggr"; "last_modified"; "version"].

Definition record_of (row : Row) : list string :=
  [Sprintf "%d" [AInt (TenantID row)]; Hash row; Aggr row;
   formatTimestamp (LastModified row); formatInt (Version row)].

Fixpoint write_rows (rows : list Row) : string :=
  match rows with
  | [] => EmptyString
  | row :: rest => csv_Write (record_of row) +:+ write_rows rest
  end.

(** [rowsToCSVBytes]: the buffer after the optional header and one record per
    row. *)
Definition rowsToCSVBytes (rows : list Row) (includeHeader : bool) : result string :=
  let buf := if includeHeader then csv_Write header else EmptyString in
  Ok (buf +:+ write_rows rows).

(** *** [querySegmentInTx] *)

(** [rows.Scan] of one row: a NULL column leaves the pointer nil. *)
Definition scan (r : DbRow) : Row :=
  mkRow (c_tenantid r) (c_hash r) (c_aggr r) (c_last_modified r) (c_version r).

Definition hashCondition (hasCursor useLessThan : bool) : string :=
  if hasCursor then
    if negb useLessThan then "hash > ? AND hash >= ? AND hash <= 'ff'"
    else "hash > ? AND hash >= ? AND hash < ?"
  else
    if negb useLessThan then "hash >= ? AND hash <= 'ff'"
    else "hash >= ? AND hash < ?".

Definition query_format : string := "
		SELECT tenantid, hash, aggr, last_modified, version
		FROM %s
		WHERE tenantid = ?
		  AND %s
		ORDER BY hash
		LIMIT ?".

(** The statement text and its arguments, as the function builds them. *)
Definition build_query (cfg : config.Config) (seg : segment.Segment) (lastHash : string)
  : string * list value :=
  let endHex := segment.EndHex seg in
  let useLessThan := true in
  let '(endHex, useLessThan) :=
    if String.eqb endHex "100" then ("ff", false) else (endHex, useLessThan) in
  let tableRef := config.TableName cfg in
  let tableRef :=
    if negb (String.eqb (config.MariaDBDatabase cfg) "")
    then Sprintf "%s.%s" [AStr (config.MariaDBDatabase cfg); AStr (config.TableName cfg)]
    else tableRef in
  let hasCursor := negb (String.eqb lastHash "") in
  let query := Sprintf query_format [AStr tableRef; AStr (hashCondition hasCursor useLessThan)] in
  let args := [VInt (config.TenantID cfg)] in
  let args :=
    if hasCursor then
      let args := args ++ [VStr lastHash] in
      let args := args ++ [VStr (segment.StartHex seg)] in
      if useLessThan then args ++ [VStr endHex] else args
    else
      let args := args ++ [VStr (segment.StartHex seg)] in
      if useLessThan then args ++ [VStr endHex] else args in
  let args := args ++ [VInt (config.BatchSize cfg)] in
  (query, args).

Definition querySegmentInTx (cfg : config.Config) (seg : segment.Segment) (lastHash : string)
  : M (result (list Row)) := fun w =>
  let '(query, args) := build_query cfg seg lastHash in
  let '(r, w) := sql.QueryContext query args w in
  match r with
  | Err err => (Err (Errorf "query failed: %w" [AErr err]), w)
  | Ok (rows, fault) =>
      match rows, fault with
      | _ :: _, ScanFault err => (Err (Errorf "failed to scan row: %w" [AErr err]), w)
      | _, RowsFault err => (Err (Errorf "row iteration error: %w" [AErr err]), w)
      | _, _ => (Ok (map scan rows), w)
      end
  end.

(** *** [ExportSegment] *)

Definition maxBatches : Z := 10000.

(** How the pagination loop is left. *)
Inductive loop_exit : Type :=
| Returned (err : error)             (* [return nil, err] from inside the loop *)
| LoopEnded (batchNum totalRows : Z). (* [break], or the loop condition failed *)

(** [for batchNum < maxBatches { ... }], with [todo] iterations left. *)
Fixpoint export_batches (todo : nat) (cfg : config.Config) (seg : segment.Segment)
    (batchNum : Z) (lastHash : string) (totalRows : Z) (headerWritten : bool)
    (stream : s3.MultipartUploadStream)
  : M (loop_exit * s3.MultipartUploadStream) :=
  match todo with
  | O => ret (LoopEnded batchNum totalRows, stream)
  | S todo' => fun w =>
      let '(q, w) :=
        if batchNum =? 0 then querySegmentInTx cfg seg "" w
        else querySegmentInTx cfg seg lastHash w in
      match q with
      | Err queryErr =>
          ((Returned (Errorf "failed to query segment: %w" [AErr queryErr]), stream), w)
      | Ok rows =>
          if Z.of_nat (length rows) =? 0 then ((LoopEnded batchNum totalRows, stream), w)
          else
            let lastHash := match last rows with Some r => Hash r | None => lastHash end in
            match rowsToCSVBytes rows (negb headerWritten) with
            | Err err =>
                ((Returned (Errorf "failed to convert rows to CSV: %w" [AErr err]), stream), w)
            | Ok csvBytes =>
                let '((err, stream), w) := s3.UploadPart stream csvBytes w in
                match err with
                | Some err =>
                    ((Returned (Errorf "failed to upload batch as multipart part: %w" [AErr err]),
                      stream), w)
                | None =>
                    let totalRows := totalRows + Z.of_nat (length rows) in
                    if Z.of_nat (length rows) <? config.BatchSize cfg
                    then ((LoopEnded batchNum totalRows, stream), w)
                    else export_batches todo' cfg seg (batchNum + 1) lastHash totalRows true
                                        stream w
                end
            end
      end
  end.

Definition s3Key_of (cfg : config.Config) (seg : segment.Segment) : string :=
  let filename :=
    Sprintf "tenant-%d.%s.hash-%s-%s.csv"
            [AInt (config.TenantID cfg); AStr (config.TableName cfg);
             AStr (segment.StartHex seg); AStr (segment.EndHex seg)] in
  Sprintf "%s/tenant-%d/%s/%s"
          [AStr (config.S3Prefix cfg); AInt (config.TenantID cfg);
           AStr (config.TableName cfg); AStr filename].

(** The first deferred function: [if err != nil { stream.Abort() }].  It reads
    the function's variable [err], the one declared with [stream] and assigned
    again by [tx, err := e.db.BeginTx(...)]; the [err] and [queryErr] of the
    loop and of the later [if err := ...] statements are other variables. *)
Definition deferred_abort (err : option error) (stream : s3.MultipartUploadStream) : M unit :=
  match err with
  | Some _ => s3.Abort stream
  | None => ret tt
  end.

(** Everything after [defer tx.Rollback()], up to the [return]. *)
Definition export_body (cfg : config.Config) (seg : segment.Segment) (s3Key : string)
    (stream : s3.MultipartUploadStream)
  : M (result (option CSVFile) * s3.MultipartUploadStream) := fun w =>
  let '((exit_, stream), w) :=
    export_batches (Z.to_nat maxBatches) cfg seg 0 "" 0 false stream w in
  match exit_ with
  | Returned err => ((Err err, stream), w)
  | LoopEnded batchNum totalRows =>
      let '(err, w) := sql.Commit w in
      match err with
      | Some err => ((Err (Errorf "failed to commit transaction: %w" [AErr err]), stream), w)
      | None =>
          if totalRows =? 0 then
            let '(_, w) := s3.Abort stream w in
            ((Ok None, stream), w)
          else
            let '(err, w) := s3.Complete stream w in
            match err with
            | Some err =>
                ((Err (Errorf "failed to complete multipart upload: %w" [AErr err]), stream), w)
            | None => ((Ok (Some (mkCSVFile "" s3Key seg totalRows)), stream), w)
            end
      end
  end.

Definition ExportSegment (cfg : config.Config) (seg : segment.Segment)
  : M (result (option CSVFile)) := fun w =>
  let s3Key := s3Key_of cfg seg in
  let '(r, w) := s3.NewMultipartUploadStream cfg s3Key w in
  match r with
  | Err err => (Err (Errorf "failed to initiate multipart upload: %w" [AErr err]), w)
  | Ok stream =>
      (* err == nil here; defer #1 registered *)
      let '(r, w) := sql.BeginTx w in
      match r with
      | Err err =>
          (* err != nil: the deferred function aborts the stream *)
          let '(_, w) := deferred_abort (Some err) stream w in
          (Err (Errorf "failed to start transaction: %w" [AErr err]), w)
      | Ok _ =>
          (* err == nil from here to the end; defer tx.Rollback() registered *)
          let '((res, stream), w) := export_body cfg seg s3Key stream w in
          let '(_, w) := sql.Rollback w in
          let '(_, w) := deferred_abort None stream w in
          (res, w)
      end
  end.

End exporter.

(** ** Package [migration]: the batch scheduler *)
Module migration.
Import world.

(** What the two constructors meet when they reach outside the process:
    [sql.Open], [db.PingContext] and [awsconfig.LoadDefaultConfig]. *)
Record Env : Type := mkEnv {
  sql_Open : option error;
  db_Ping : option error;
  aws_LoadDefaultConfig : option error
}.

(** [exporter.NewExporter] *)
Definition NewExporter (env : Env) : result unit :=
  match sql_Open env with
  | Some err => Err (Errorf "failed to open database: %w" [AErr err])
  | None =>
      match db_Ping env with
      | Some err => Err (Errorf "failed to ping database: %w" [AErr err])
      | None => Ok tt
      end
  end.

(** [s3.NewUploader] *)
Definition NewUploader (env : Env) : result unit :=
  match aws_LoadDefaultConfig env with
  | Some err => Err (Errorf "failed to load AWS config: %w" [AErr err])
  | None => Ok tt
  end.

(** [ProcessSegment]: one segment, from export to the slice it returns. *)
Definition ProcessSegment (cfg : config.Config) (seg : segment.Segment)
  : M (result (list exporter.CSVFile)) := fun w =>
  let '(csvFile, w) := exporter.ExportSegment cfg seg w in
  match csvFile with
  | Err err => (Err (Errorf "failed to export segment: %w" [AErr err]), w)
  | Ok None => (Ok [], w)
  | Ok (Some f) => (Ok [f], w)
  end.

(** The waves of [for i := 0; i < len(segments); i += maxParallel]:
    [segments[i:batchEnd]] for each [i], with [fuel] bounding the number of
    iterations. *)
Fixpoint waves (fuel : nat) (maxParallel : nat) (segments : list segment.Segment)
  : list (list segment.Segment) :=
  match fuel, segments with
  | O, _ => []
  | _, [] => []
  | S fuel', _ => take maxParallel segments :: waves fuel' maxParallel (drop maxParallel segments)
  end.

Definition effective_maxParallel (cfg : config.Config) : Z :=
  let maxParallel := config.MaxParallelSegs cfg in
  if maxParallel <=? 0 then 8 else maxParallel.

Section Scheduler.

(** What the goroutine started for a segment got back from [ProcessSegment]. *)
Variable outcome : segment.Segment -> result (list exporter.CSVFile).

(** One goroutine reaching its end: on an error it logs and returns, otherwise
    it appends under the mutex. *)
Definition finish (allCSVFiles : list exporter.CSVFile) (s : segment.Segment)
  : list exporter.CSVFile :=
  match outcome s with
  | Err _ => allCSVFiles
  | Ok csvFiles => allCSVFiles ++ csvFiles
  end.

(** A wave: its goroutines finish in some order, and [wg.Wait] returns once
    all have. *)
Inductive wave_runs (batch : list segment.Segment)
  : list exporter.CSVFile -> list exporter.CSVFile -> Prop :=
| wave_order (order : list segment.Segment) (acc : list exporter.CSVFile) :
    Permutation order batch ->
    wave_runs batch acc (fold_left finish order acc).

Inductive waves_run
  : list (list segment.Segment) -> list exporter.CSVFile -> list exporter.CSVFile -> Prop :=
| waves_done (acc : list exporter.CSVFile) : waves_run [] acc acc
| waves_next (batch : list segment.Segment) (rest : list (list segment.Segment))
    (acc acc1 acc2 : list exporter.CSVFile) :
    wave_runs batch acc acc1 -> waves_run rest acc1 acc2 ->
    waves_run (batch :: rest) acc acc2.

(** [ProcessSegments]: the pairs [(allCSVFiles, err)] a call can return. *)
Inductive ProcessSegments (env : Env) (segments : list segment.Segment) (cfg : config.Config)
  : list exporter.CSVFile * option error -> Prop :=
| exporter_failed (err : error) :
    NewExporter env = Err err ->
    ProcessSegments env segments cfg ([], Some (Errorf "failed to create exporter: %w" [AErr err]))
| uploader_failed (err : error) :
    NewExporter env = Ok tt -> NewUploader env = Err err ->
    ProcessSegments env segments cfg
      ([], Some (Errorf "failed to create S3 uploader: %w" [AErr err]))
| all_waves_ran (allCSVFiles : list exporter.CSVFile) :
    NewExporter env = Ok tt -> NewUploader env = Ok tt ->
    waves_run (waves (length segments) (Z.to_nat (effective_maxParallel cfg)) segments)
              [] allCSVFiles ->
    ProcessSegments env segments cfg (allCSVFiles, None).

End Scheduler.

End migration.

(** ** Sample data: the table and configuration of the package's own tests *)
Module fixtures.
Import world.

(** [TestExportSegment]'s configuration. *)
Definition cfg : config.Config :=
  config.mkConfig 999999 "fis_aggr" "fis" 1000 "test-bucket" "test-prefix" 8.

(** The same with a page of two rows, as in [TestQuerySegmentInTx_WithCursor]. *)
Definition cfg_small : config.Config :=
  config.mkConfig 999999 "fis_aggr" "fis" 2 "test-bucket" "test-prefix" 8.

Definition test_row (hash : string) : DbRow := mkDbRow 999999 hash "{}" None None.

(** [setupTestTable]'s hashes. *)
Definition testHashes : list string :=
  ["00abc123def456"; "1aabc123def456"; "3fabc123def456"; "40abc123def456";
   "7fabc123def456"; "80abc123def456"; "bfabc123def456"; "c0abc123def456";
   "ffabc123def456"].

Definition test_tables : gmap string (list DbRow) :=
  {[ "fis.fis_aggr" := map test_row testHashes ]}.

(** A fresh bucket, the test table, and no fault anywhere. *)
Definition calm : World := mkWorld ∅ ∅ 0 [] test_tables [] TxNone [].

(** The second round trip to the database (the first query) fails. *)
Definition query_fails : World :=
  mkWorld ∅ ∅ 0 [] test_tables [NoFault; CallFault (errorString "invalid connection")] TxNone [].

(** The first page is read, the query for the second one fails. *)
Definition second_query_fails : World :=
  mkWorld ∅ ∅ 0 [] test_tables
          [NoFault; NoFault; CallFault (errorString "invalid connection")] TxNone [].


(** The store accepts the session and then refuses every part. *)
Definition upload_refused : error := errorString "RequestTimeout".
Definition parts_fail : World :=
  mkWorld ∅ ∅ 0 (None :: repeat (Some upload_refused) 5) test_tables [] TxNone [].


Definition seg_00_40 : segment.Segment := segment.mkSegment 0 "00" "40".
Definition seg_c0_100 : segment.Segment := segment.mkSegment 3 "c0" "100".

End fixtures.

(** ** Package [strconv] and [strings]: the two library functions the
    configuration and SQL stages lean on *)
Module gostrings.

(** [strings.Contains] *)
Fixpoint Contains (s substr : string) : bool :=
  String.prefix substr s
  || match s with
     | EmptyString => false
     | String _ rest => Contains rest substr
     end.

Definition digit (c : ascii) : option Z :=
  let n := Z.of_nat (nat_of_ascii c) in
  if (48 <=? n) && (n <=? 57) then Some (n - 48) else None.

Fixpoint digits (acc : Z) (s : string) : option Z :=
  match s with
  | EmptyString => Some acc
  | String c rest =>
      match digit c with
      | Some d => digits (10 * acc + d) rest
      | None => None
      end
  end.

(** [strconv.Atoi] on a 64-bit platform: an optional sign and at least one
    decimal digit; a value outside [int64] is an error. *)
Definition Atoi (s : string) : option Z :=
  let '(neg, body) :=
    match s with
    | String "-" rest => (true, rest)
    | String "+" rest => (false, rest)
    | _ => (false, s)
    end in
  match body with
  | EmptyString => None
  | _ => match digits 0 body with
         | Some v =>
             let z := if neg then - v else v in
             if (- 2 ^ 63 <=? z) && (z <=? 2 ^ 63 - 1) then Some z else None
         | None => None
         end
  end.

End gostrings.

(** ** Package [util]: AWS credentials and the database password *)
Module util.

Definition DefaultAWSAuroraKeyFile : string := "/vault/secrets/awsauroramysqlkey".
Definition DefaultAWSAuroraPassFile : string := "/vault/secrets/awsauroramysqlpass".
Definition AWSSQLPasswordEnv : string := "FIS_AWS_SQL_PASSWORD".

(** The process environment, and the files that can be read. *)
Record Proc : Type := mkProc {
  environ : gmap string string;
  files : gmap string string
}.

(** [os.Getenv]: an unset variable reads as the empty string. *)
Definition Getenv (key : string) (p : Proc) : string := default "" (environ p !! key).

(** [os.LookupEnv] *)
Definition LookupEnv (key : string) (p : Proc) : option string := environ p !! key.

Fixpoint has_nul (s : string) : bool :=
  match s with
  | EmptyString => false
  | String c rest => Ascii.eqb c "000"%char || has_nul rest
  end.

(** [_ = os.Setenv(key, value)] for the keys of this package: the call
    fails, and changes nothing, when the value holds a NUL byte; the error is
    dropped. *)
Definition Setenv (key value : string) (p : Proc) : Proc :=
  if has_nul value then p else mkProc (<[key := value]> (environ p)) (files p).

(** [os.ReadFile]: [None] for a file that cannot be read. *)
Definition ReadFile (path : string) (p : Proc) : option string := files p !! path.

Section Credentials.

(** [strings.TrimSpace] *)
Variable TrimSpace : string -> string.

(** [LoadAWSCredentialsFromVault] *)
Definition LoadAWSCredentialsFromVault (p : Proc) : Proc :=
  if negb (String.eqb (Getenv "AWS_ACCESS_KEY_ID" p) "")
     && negb (String.eqb (Getenv "AWS_SECRET_ACCESS_KEY" p) "")
  then p
  else
    let p :=
      if String.eqb (Getenv "AWS_ACCESS_KEY_ID" p) "" then
        match ReadFile DefaultAWSAuroraKeyFile p with
        | Some content => Setenv "AWS_ACCESS_KEY_ID" (TrimSpace content) p
        | None => p
        end
      else p in
    let p :=
      if String.eqb (Getenv "AWS_SECRET_ACCESS_KEY" p) "" then
        match ReadFile DefaultAWSAuroraPassFile p with
        | Some content => Setenv "AWS_SECRET_ACCESS_KEY" (TrimSpace content) p
        | None => p
        end
      else p in
    p.

(** [LoadAWSCredentials] *)
Definition LoadAWSCredentials (accessKeyID secretAccessKey sessionToken : string) (p : Proc)
  : Proc :=
  if negb (String.eqb accessKeyID "") && negb (String.eqb secretAccessKey "") then
    let p := Setenv "AWS_ACCESS_KEY_ID" accessKeyID p in
    let p := Setenv "AWS_SECRET_ACCESS_KEY" secretAccessKey p in
    let p := if negb (String.eqb sessionToken "")
             then Setenv "AWS_SESSION_TOKEN" sessionToken p else p in
    p
  else if negb (String.eqb (Getenv "AWS_ACCESS_KEY_ID" p) "")
          && negb (String.eqb (Getenv "AWS_SECRET_ACCESS_KEY" p) "")
  then p
  else
    let p :=
      if String.eqb (Getenv "AWS_ACCESS_KEY_ID" p) "" then
        match ReadFile DefaultAWSAuroraKeyFile p with
        | Some content => Setenv "AWS_ACCESS_KEY_ID" (TrimSpace content) p
        | None => p
        end
      else p in
    let p :=
      if String.eqb (Getenv "AWS_SECRET_ACCESS_KEY" p) "" then
        match ReadFile DefaultAWSAuroraPassFile p with
        | Some content => Setenv "AWS_SECRET_ACCESS_KEY" (TrimSpace content) p
        | None => p
        end
      else p in
    p.

End Credentials.

(** What [GetPasswordFromSecretsManager] meets outside the process: the AWS
    session, the secret's value ([None] for a nil [SecretString]), and what
    [json.Unmarshal] makes of the [password] field of a secret string. *)
Record SecretsManager : Type := mkSecretsManager {
  NewSession : option error;
  GetSecretValue : string -> string -> result (option string);
  Unmarshal_password : string -> result string
}.

(** [GetPasswordFromSecretsManager] *)
Definition GetPasswordFromSecretsManager (sm : SecretsManager) (secretName region : string)
  : result string :=
  if String.eqb secretName "" then
    Err (Errorf "secret name is required for Secrets Manager" [])
  else if String.eqb region "" then
    Err (Errorf "region is required for Secrets Manager" [])
  else
    match NewSession sm with
    | Some err => Err (Errorf "create AWS session: %w" [AErr err])
    | None =>
        match GetSecretValue sm region secretName with
        | Err err => Err (Errorf "get secret value: %w" [AErr err])
        | Ok None => Err (Errorf "secret string empty for %s" [AStr secretName])
        | Ok (Some secretString) =>
            match Unmarshal_password sm secretString with
            | Err err => Err (Errorf "parse secret json: %w" [AErr err])
            | Ok password =>
                if String.eqb password "" then
                  Err (Errorf "password field empty in secret %s" [AStr secretName])
                else Ok password
            end
        end
    end.

(** [ResolveAWSDBPassword] *)
Definition ResolveAWSDBPassword (sm : SecretsManager) (secretName region : string) (p : Proc)
  : result string :=
  match LookupEnv AWSSQLPasswordEnv p with
  | Some pwd => Ok pwd
  | None => GetPasswordFromSecretsManager sm secretName region
  end.

End util.

(** ** Package [store]: the SQL client *)
Module store.

Definition DefaultDBName : string := "fis".
Definition dbTimeout : Z := 5.
Definition ErrBadHostname : error := errorString "hostname is required".

(** [type SQLClient struct]: the pool is named by the data source it was
    opened on; the timeout is a [time.Duration], in nanoseconds. *)
Record SQLClient : Type := mkSQLClient {
  dsn : string;
  timeout : Z;
  name : string
}.

Section Client.

(** The server behind the pool, as a state [S] of the caller's choosing:
    what [sql.Open] says to a data source name, and the pool's
    [PingContext] and [Close] on that state. *)
Context {S : Type}.
Variable sql_Open : string -> option error.
Variable PingContext : S -> option error * S.
Variable db_Close : S -> S.

(** [NewSQLClient] *)
Definition NewSQLClient (hostname user pwd : string) (timeout : Z)
    (dbType dbName : string) (s : S) : result SQLClient * S :=
  if String.eqb hostname "" then (Err ErrBadHostname, s)
  else
    let dbType := if String.eqb dbType "" then "mp-mariadb"%string else dbType in
    let dbName := if String.eqb dbName "" then DefaultDBName else dbName in
    let dsn :=
      if String.eqb dbType "aws-aurora" then
        let user := if String.eqb user "" then "root"%string else user in
        if negb (String.eqb pwd "") then
          Ok (Sprintf "%s:%s@tcp(%s)/%s?parseTime=true"
                      [AStr user; AStr pwd; AStr hostname; AStr dbName])
        else
          Ok (Sprintf "%s@tcp(%s)/%s?parseTime=true" [AStr user; AStr hostname; AStr dbName])
      else if String.eqb dbType "mp-mariadb" then
        let dsn := Sprintf "tcp(%s)/%s?parseTime=true" [AStr hostname; AStr dbName] in
        if negb (String.eqb user "") then
          let user := if negb (String.eqb pwd "") then user +:+ ":" +:+ pwd else user in
          Ok (user +:+ "@" +:+ dsn)
        else Ok dsn
      else
        Err (Errorf "unsupported database type: %s (must be mp-mariadb or aws-aurora)"
                    [AStr dbType]) in
    match dsn with
    | Err err => (Err err, s)
    | Ok dsn =>
        match sql_Open dsn with
        | Some err => (Err err, s)
        | None =>
            let timeout := if timeout <? 1 then dbTimeout else timeout in
            let sc := mkSQLClient dsn (segment.wrap64 (timeout * 1000000000)) dbType in
            let '(err, s) := PingContext s in
            match err with
            | Some err => (Err err, db_Close s)
            | None => (Ok sc, s)
            end
        end
    end.

End Client.

End store.

(** ** Package [config]: loading the configuration

    [config.Config] in full, and [LoadConfig] with what it reads: the parsed
    command line, the environment, the YAML file and the auth file. *)
Module config_load.
Import gostrings.

(** [type Config struct] *)
Record Config : Type := mkConfig {
  TenantID : Z;
  TableName : string;
  MariaDBHost : string;
  MariaDBPort : Z;
  MariaDBUser : string;
  MariaDBPassword : string;
  MariaDBDatabase : string;
  S3Bucket : string;
  S3Prefix : string;
  AWSRegion : string;
  AuroraHost : string;
  AuroraPort : Z;
  AuroraUser : string;
  AuroraSecretsManagerSecret : string;
  AuroraRegion : string;
  AuroraDatabase : string;
  ExecuteSQL : bool;
  Segments : Z;
  MaxParallelSegs : Z;
  BatchSize : Z;
  CSVDelimiter : string;
  CSVQuote : string;
  SQLExecTimeout : Z;
  Quiet : bool
}.

(** The zero value, [&Config{}]. *)
Definition zero : Config :=
  mkConfig 0 "" "" 0 "" "" "" "" "" "" "" 0 "" "" "" "" false 0 0 0 "" "" 0 false.

(** The values of the flags after [flag.Parse]. *)
Record Flags : Type := mkFlags {
  tenantID : Z;
  tableName : string;
  mariadbHost : string;
  mariadbPort : Z;
  mariadbUser : string;
  mariadbPassword : string;
  mariadbAuth : string;
  mariadbDatabase : string;
  s3Bucket : string;
  s3Prefix : string;
  awsRegion : string;
  segments : Z;
  maxParallelSegs : Z;
  batchSize : Z;
  configFile : string;
  auroraHost : string;
  auroraPort : Z;
  auroraUser : string;
  auroraSecret : string;
  auroraRegion : string;
  auroraDatabase : string;
  executeSQL : bool;
  sqlExecTimeout : Z;
  quiet : bool
}.

(** The flags as declared: what [flag.Parse] leaves when the command line
    names none of them. *)
Definition default_flags : Flags :=
  mkFlags 0 "fis_aggr" "" 3306 "" "" "" "fis" "" "fis-migration" "" 16 8 100000 "migration-config.yaml" "" 3306 "" "" "" "fis" false 300 false.

(** The struct [yaml.Unmarshal] fills. *)
Record YamlCfg : Type := mkYamlCfg {
  y_TenantID : Z;
  y_TableName : string;
  y_MariaDBHost : string;
  y_MariaDBPort : Z;
  y_MariaDBUser : string;
  y_MariaDBPassword : string;
  y_MariaDBDatabase : string;
  y_S3Bucket : string;
  y_S3Prefix : string;
  y_AWSRegion : string;
  y_AuroraHost : string;
  y_AuroraPort : Z;
  y_AuroraUser : string;
  y_AuroraSecretsManagerSecret : string;
  y_AuroraRegion : string;
  y_AuroraDatabase : string;
  y_ExecuteSQL : bool;
  y_Segments : Z;
  y_MaxParallelSegs : Z;
  y_BatchSize : Z;
  y_SQLExecTimeout : Z
}.

(** What is found at the path of the config file. *)
Inductive YamlFile : Type :=
| YamlNotExist (err : error)       (* [os.ReadFile] fails, [os.IsNotExist(err)] *)
| YamlUnreadable (err : error)     (* [os.ReadFile] fails otherwise *)
| YamlMalformed (err : error)      (* [yaml.Unmarshal] fails *)
| YamlParsed (y : YamlCfg).

(** What is found at the path of the auth file: the [user] and [password]
    fields [json.Unmarshal] reads. *)
Inductive AuthFile : Type :=
| AuthUnreadable (err : error)
| AuthMalformed (err : error)
| AuthParsed (user password : string).

(** [loadFromYAML]: the error, and whether it is an [os.IsNotExist] one. *)
Definition loadFromYAML (cfg : Config) (file : YamlFile) : Config * option (error * bool) :=
  match file with
  | YamlNotExist err => (cfg, Some (err, true))
  | YamlUnreadable err => (cfg, Some (err, false))
  | YamlMalformed err => (cfg, Some (err, false))
  | YamlParsed y =>
      (
  {|
     TenantID := if 0 <? y_TenantID y then y_TenantID y else TenantID cfg;
     TableName := if negb (String.eqb (y_TableName y) "") then y_TableName y else TableName cfg;
     MariaDBHost := if negb (String.eqb (y_MariaDBHost y) "") then y_MariaDBHost y else MariaDBHost cfg;
     MariaDBPort := if 0 <? y_MariaDBPort y then y_MariaDBPort y else MariaDBPort cfg;
     MariaDBUser := if negb (String.eqb (y_MariaDBUser y) "") then y_MariaDBUser y else MariaDBUser cfg;
     MariaDBPassword := if negb (String.eqb (y_MariaDBPassword y) "") then y_MariaDBPassword y else MariaDBPassword cfg;
     MariaDBDatabase := if negb (String.eqb (y_MariaDBDatabase y) "") then y_MariaDBDatabase y else MariaDBDatabase cfg;
     S3Bucket := if negb (String.eqb (y_S3Bucket y) "") then y_S3Bucket y else S3Bucket cfg;
     S3Prefix := if negb (String.eqb (y_S3Prefix y) "") then y_S3Prefix y else S3Prefix cfg;
     AWSRegion := if negb (String.eqb (y_AWSRegion y) "") then y_AWSRegion y else AWSRegion cfg;
     AuroraHost := if negb (String.eqb (y_AuroraHost y) "") then y_AuroraHost y else AuroraHost cfg;
     AuroraPort := if 0 <? y_AuroraPort y then y_AuroraPort y else AuroraPort cfg;
     AuroraUser := if negb (String.eqb (y_AuroraUser y) "") then y_AuroraUser y else AuroraUser cfg;
     AuroraSecretsManagerSecret := if negb (String.eqb (y_AuroraSecretsManagerSecret y) "") then y_AuroraSecretsManagerSecret y else AuroraSecretsManagerSecret cfg;
     AuroraRegion := if negb (String.eqb (y_AuroraRegion y) "") then y_AuroraRegion y else AuroraRegion cfg;
     AuroraDatabase := if negb (String.eqb (y_AuroraDatabase y) "") then y_AuroraDatabase y else AuroraDatabase cfg;
     ExecuteSQL := y_ExecuteSQL y;
     Segments := if 0 <? y_Segments y then y_Segments y else Segments cfg;
     MaxParallelSegs := if 0 <? y_MaxParallelSegs y then y_MaxParallelSegs y else MaxParallelSegs cfg;
     BatchSize := if 0 <? y_BatchSize y then y_BatchSize y else BatchSize cfg;
     CSVDelimiter := CSVDelimiter cfg;
     CSVQuote := CSVQuote cfg;
     SQLExecTimeout := if 0 <? y_SQLExecTimeout y then y_SQLExecTimeout y else SQLExecTimeout cfg;
     Quiet := Quiet cfg
  |}, None)
  end.

(** [if val := os.Getenv(key); val != "" { field = val }] *)
Definition env_string (p : util.Proc) (key : string) (old : string) : string :=
  let val := util.Getenv key p in
  if negb (String.eqb val "") then val else old.

(** The same through [strconv.Atoi], whose error leaves the field alone. *)
Definition env_int (p : util.Proc) (key : string) (old : Z) : Z :=
  let val := util.Getenv key p in
  if negb (String.eqb val "") then
    match Atoi val with
    | Some n => n
    | None => old
    end
  else old.

Definition env_bool (p : util.Proc) (key : string) (old : bool) : bool :=
  let val := util.Getenv key p in
  if negb (String.eqb val "") then String.eqb val "true" || String.eqb val "1" else old.

(** [loadFromEnv] *)
Definition loadFromEnv (p : util.Proc) (cfg : Config) : Config :=
  {|
     TenantID := env_int p "FIS_MIGRATION_TENANT_ID" (TenantID cfg);
     TableName := env_string p "FIS_MIGRATION_TABLE_NAME" (TableName cfg);
     MariaDBHost := env_string p "FIS_MIGRATION_MARIADB_HOST" (MariaDBHost cfg);
     MariaDBPort := env_int p "FIS_MIGRATION_MARIADB_PORT" (MariaDBPort cfg);
     MariaDBUser := env_string p "FIS_MIGRATION_MARIADB_USER" (MariaDBUser cfg);
     MariaDBPassword := env_string p "FIS_MIGRATION_MARIADB_PASSWORD" (MariaDBPassword cfg);
     MariaDBDatabase := env_string p "FIS_MIGRATION_MARIADB_DATABASE" (MariaDBDatabase cfg);
     S3Bucket := env_string p "FIS_MIGRATION_S3_BUCKET" (S3Bucket cfg);
     S3Prefix := env_string p "FIS_MIGRATION_S3_PREFIX" (S3Prefix cfg);
     AWSRegion := env_string p "FIS_MIGRATION_AWS_REGION" (AWSRegion cfg);
     AuroraHost := env_string p "FIS_MIGRATION_AURORA_HOST" (AuroraHost cfg);
     AuroraPort := env_int p "FIS_MIGRATION_AURORA_PORT" (AuroraPort cfg);
     AuroraUser := env_string p "FIS_MIGRATION_AURORA_USER" (AuroraUser cfg);
     AuroraSecretsManagerSecret := env_string p "FIS_MIGRATION_AURORA_SECRET" (AuroraSecretsManagerSecret cfg);
     AuroraRegion := env_string p "FIS_MIGRATION_AURORA_REGION" (AuroraRegion cfg);
     AuroraDatabase := env_string p "FIS_MIGRATION_AURORA_DATABASE" (AuroraDatabase cfg);
     ExecuteSQL := env_bool p "FIS_MIGRATION_EXECUTE_SQL" (ExecuteSQL cfg);
     Segments := env_int p "FIS_MIGRATION_SEGMENTS" (Segments cfg);
     MaxParallelSegs := env_int p "FIS_MIGRATION_MAX_PARALLEL_SEGMENTS" (MaxParallelSegs cfg);
     BatchSize := env_int p "FIS_MIGRATION_BATCH_SIZE" (BatchSize cfg);
     CSVDelimiter := CSVDelimiter cfg;
     CSVQuote := CSVQuote cfg;
     SQLExecTimeout := env_int p "FIS_MIGRATION_SQL_EXEC_TIMEOUT" (SQLExecTimeout cfg);
     Quiet := Quiet cfg
  |}.

(** [ReadMariaDBAuth] *)
Definition ReadMariaDBAuth (cfg : Config) (authFile : string) (file : AuthFile)
  : Config * option error :=
  if String.eqb authFile "" then (cfg, None)
  else
    match file with
    | AuthUnreadable err => (cfg, Some (Errorf "failed to read auth file: %w" [AErr err]))
    | AuthMalformed err => (cfg, Some (Errorf "failed to parse auth file: %w" [AErr err]))
    | AuthParsed user password =>
        (
  {|
     TenantID := TenantID cfg;
     TableName := TableName cfg;
     MariaDBHost := MariaDBHost cfg;
     MariaDBPort := MariaDBPort cfg;
     MariaDBUser := user;
     MariaDBPassword := password;
     MariaDBDatabase := MariaDBDatabase cfg;
     S3Bucket := S3Bucket cfg;
     S3Prefix := S3Prefix cfg;
     AWSRegion := AWSRegion cfg;
     AuroraHost := AuroraHost cfg;
     AuroraPort := AuroraPort cfg;
     AuroraUser := AuroraUser cfg;
     AuroraSecretsManagerSecret := AuroraSecretsManagerSecret cfg;
     AuroraRegion := AuroraRegion cfg;
     AuroraDatabase := AuroraDatabase cfg;
     ExecuteSQL := ExecuteSQL cfg;
     Segments := Segments cfg;
     MaxParallelSegs := MaxParallelSegs cfg;
     BatchSize := BatchSize cfg;
     CSVDelimiter := CSVDelimiter cfg;
     CSVQuote := CSVQuote cfg;
     SQLExecTimeout := SQLExecTimeout cfg;
     Quiet := Quiet cfg
  |}, None)
    end.

(** The overrides from the command line that come before the auth file. *)
Definition flags_before_auth (fl : Flags) (cfg : Config) : Config :=
  {|
     TenantID := if 0 <? tenantID fl then tenantID fl else TenantID cfg;
     TableName := if negb (String.eqb (tableName fl) "") then tableName fl else TableName cfg;
     MariaDBHost := if negb (String.eqb (mariadbHost fl) "") then mariadbHost fl else MariaDBHost cfg;
     MariaDBPort := if 0 <? mariadbPort fl then mariadbPort fl else MariaDBPort cfg;
     MariaDBUser := if negb (String.eqb (mariadbUser fl) "") then mariadbUser fl else MariaDBUser cfg;
     MariaDBPassword := if negb (String.eqb (mariadbPassword fl) "") then mariadbPassword fl else MariaDBPassword cfg;
     MariaDBDatabase := MariaDBDatabase cfg;
     S3Bucket := S3Bucket cfg;
     S3Prefix := S3Prefix cfg;
     AWSRegion := AWSRegion cfg;
     AuroraHost := AuroraHost cfg;
     AuroraPort := AuroraPort cfg;
     AuroraUser := AuroraUser cfg;
     AuroraSecretsManagerSecret := AuroraSecretsManagerSecret cfg;
     AuroraRegion := AuroraRegion cfg;
     AuroraDatabase := AuroraDatabase cfg;
     ExecuteSQL := ExecuteSQL cfg;
     Segments := Segments cfg;
     MaxParallelSegs := MaxParallelSegs cfg;
     BatchSize := BatchSize cfg;
     CSVDelimiter := CSVDelimiter cfg;
     CSVQuote := CSVQuote cfg;
     SQLExecTimeout := SQLExecTimeout cfg;
     Quiet := Quiet cfg
  |}.

(** The overrides from the command line that come after it. *)
Definition flags_after_auth (fl : Flags) (cfg : Config) : Config :=
  {|
     TenantID := TenantID cfg;
     TableName := TableName cfg;
     MariaDBHost := MariaDBHost cfg;
     MariaDBPort := MariaDBPort cfg;
     MariaDBUser := MariaDBUser cfg;
     MariaDBPassword := MariaDBPassword cfg;
     MariaDBDatabase := if negb (String.eqb (mariadbDatabase fl) "") then mariadbDatabase fl else MariaDBDatabase cfg;
     S3Bucket := if negb (String.eqb (s3Bucket fl) "") then s3Bucket fl else S3Bucket cfg;
     S3Prefix := if negb (String.eqb (s3Prefix fl) "") then s3Prefix fl else S3Prefix cfg;
     AWSRegion := if negb (String.eqb (awsRegion fl) "") then awsRegion fl else AWSRegion cfg;
     AuroraHost := if negb (String.eqb (auroraHost fl) "") then auroraHost fl else AuroraHost cfg;
     AuroraPort := if 0 <? auroraPort fl then auroraPort fl else AuroraPort cfg;
     AuroraUser := if negb (String.eqb (auroraUser fl) "") then auroraUser fl else AuroraUser cfg;
     AuroraSecretsManagerSecret := if negb (String.eqb (auroraSecret fl) "") then auroraSecret fl else AuroraSecretsManagerSecret cfg;
     AuroraRegion := if negb (String.eqb (auroraRegion fl) "") then auroraRegion fl else AuroraRegion cfg;
     AuroraDatabase := if negb (String.eqb (auroraDatabase fl) "") then auroraDatabase fl else AuroraDatabase cfg;
     ExecuteSQL := if executeSQL fl then true else ExecuteSQL cfg;
     Segments := if 0 <? segments fl then segments fl else Segments cfg;
     MaxParallelSegs := if 0 <? maxParallelSegs fl then maxParallelSegs fl else MaxParallelSegs cfg;
     BatchSize := if 0 <? batchSize fl then batchSize fl else BatchSize cfg;
     CSVDelimiter := CSVDelimiter cfg;
     CSVQuote := CSVQuote cfg;
     SQLExecTimeout := if 0 <? sqlExecTimeout fl then sqlExecTimeout fl else SQLExecTimeout cfg;
     Quiet := if quiet fl then true else Quiet cfg
  |}.

(** [// Set defaults] *)
Definition set_defaults (cfg : Config) : Config :=
  {|
     TenantID := TenantID cfg;
     TableName := TableName cfg;
     MariaDBHost := MariaDBHost cfg;
     MariaDBPort := if MariaDBPort cfg =? 0 then 3306 else MariaDBPort cfg;
     MariaDBUser := MariaDBUser cfg;
     MariaDBPassword := MariaDBPassword cfg;
     MariaDBDatabase := if String.eqb (MariaDBDatabase cfg) "" then "fis" else MariaDBDatabase cfg;
     S3Bucket := S3Bucket cfg;
     S3Prefix := S3Prefix cfg;
     AWSRegion := AWSRegion cfg;
     AuroraHost := AuroraHost cfg;
     AuroraPort := if AuroraPort cfg =? 0 then 3306 else AuroraPort cfg;
     AuroraUser := AuroraUser cfg;
     AuroraSecretsManagerSecret := AuroraSecretsManagerSecret cfg;
     AuroraRegion := AuroraRegion cfg;
     AuroraDatabase := if String.eqb (AuroraDatabase cfg) "" then "fis" else AuroraDatabase cfg;
     ExecuteSQL := ExecuteSQL cfg;
     Segments := if Segments cfg =? 0 then 16 else Segments cfg;
     MaxParallelSegs := if MaxParallelSegs cfg =? 0 then 8 else MaxParallelSegs cfg;
     BatchSize := if BatchSize cfg =? 0 then 100000 else BatchSize cfg;
     CSVDelimiter := if String.eqb (CSVDelimiter cfg) "" then "," else CSVDelimiter cfg;
     CSVQuote := if String.eqb (CSVQuote cfg) "" then String exporter.dquote EmptyString else CSVQuote cfg;
     SQLExecTimeout := if SQLExecTimeout cfg =? 0 then 300 else SQLExecTimeout cfg;
     Quiet := Quiet cfg
  |}.

(** [// Validate required fields]: the first complaint, if any. *)
Definition validate (cfg : Config) : option error :=
  if TenantID cfg <=? 0 then Some (Errorf "tenant-id is required" [])
  else if String.eqb (TableName cfg) "" then Some (Errorf "table-name is required" [])
  else if String.eqb (MariaDBHost cfg) "" then Some (Errorf "mariadb-host is required" [])
  else if String.eqb (S3Bucket cfg) "" then Some (Errorf "s3-bucket is required" [])
  else if String.eqb (AWSRegion cfg) "" then Some (Errorf "aws-region is required" [])
  else if ExecuteSQL cfg then
    if String.eqb (AuroraHost cfg) "" then
      Some (Errorf "aurora-host is required when -execute-sql is set" [])
    else if String.eqb (AuroraUser cfg) "" then
      Some (Errorf "aurora-user is required when -execute-sql is set" [])
    else if String.eqb (AuroraSecretsManagerSecret cfg) "" then
      Some (Errorf "aurora-secret is required when -execute-sql is set" [])
    else if String.eqb (AuroraRegion cfg) "" then
      Some (Errorf "aurora-region is required when -execute-sql is set" [])
    else None
  else None.

(** [LoadConfig] *)
Definition LoadConfig (fl : Flags) (p : util.Proc) (yaml : YamlFile) (auth : AuthFile)
  : result Config :=
  let cfg := zero in
  let '(cfg, yamlErr) :=
    if negb (String.eqb (configFile fl) "") then
      match loadFromYAML cfg yaml with
      | (cfg, Some (err, isNotExist)) =>
          if negb isNotExist then (cfg, Some err) else (cfg, None)
      | (cfg, None) => (cfg, None)
      end
    else (cfg, None) in
  match yamlErr with
  | Some err => Err (Errorf "failed to load config file: %w" [AErr err])
  | None =>
      let cfg := loadFromEnv p cfg in
      let cfg := flags_before_auth fl cfg in
      let '(cfg, authErr) :=
        if negb (String.eqb (mariadbAuth fl) "")
        then ReadMariaDBAuth cfg (mariadbAuth fl) auth
        else (cfg, None) in
      match authErr with
      | Some err => Err (Errorf "failed to read MariaDB auth file: %w" [AErr err])
      | None =>
          let cfg := flags_after_auth fl cfg in
          let cfg := set_defaults cfg in
          match validate cfg with
          | Some err => Err err
          | None => Ok cfg
          end
      end
  end.

(** [GetMariaDBDSN] *)
Definition GetMariaDBDSN (c : Config) : string :=
  let host := MariaDBHost c in
  let host :=
    if (0 <? MariaDBPort c) && negb (MariaDBPort c =? 3306)
    then Sprintf "%s:%d" [AStr (MariaDBHost c); AInt (MariaDBPort c)]
    else host in
  let dsn := Sprintf "tcp(%s)/%s?parseTime=true" [AStr host; AStr (MariaDBDatabase c)] in
  if negb (String.eqb (MariaDBUser c) "") then
    if negb (String.eqb (MariaDBPassword c) "") then
      Sprintf "%s:%s@%s" [AStr (MariaDBUser c); AStr (MariaDBPassword c); AStr dsn]
    else Sprintf "%s@%s" [AStr (MariaDBUser c); AStr dsn]
  else dsn.

(** The fields the export stage reads. *)
Definition for_export (c : Config) : config.Config :=
  config.mkConfig (TenantID c) (TableName c) (MariaDBDatabase c) (BatchSize c)
                  (S3Bucket c) (S3Prefix c) (MaxParallelSegs c).

(** *** The test helper [contains] of the package's tests *)

(** [s[lo:hi]] for [0 <= lo <= hi <= len(s)]. *)
Definition slice (s : string) (lo hi : Z) : string :=
  substring (Z.to_nat lo) (Z.to_nat (hi - lo)) s.

(** [for i := 0; i <= len(s)-len(substr); i++], with [todo] rounds left. *)
Fixpoint containsMiddle_from (todo : nat) (i : Z) (s substr : string) : bool :=
  match todo with
  | O => false
  | S todo' =>
      if i <=? len s - len substr then
        if String.eqb (slice s i (i + len substr)) substr then true
        else containsMiddle_from todo' (i + 1) s substr
      else false
  end.

Definition containsMiddle (s substr : string) : bool :=
  containsMiddle_from (S (String.length s)) 0 s substr.

Definition contains (s substr : string) : bool :=
  (len substr <=? len s)
  && (String.eqb s substr || (len substr =? 0)
      || ((len substr <? len s)
          && (String.eqb (slice s 0 (len substr)) substr
              || String.eqb (slice s (len s - len substr) (len s)) substr
              || containsMiddle s substr))).

End config_load.

(** ** Package [s3], continued: uploading a whole file *)
Module s3_files.
Import world.

(** A local file as [UploadFile] finds it: what [os.Open] and [file.Stat]
    return, and the bytes in it. *)
Record LocalFile : Type := mkLocalFile {
  os_Open : option error;
  file_Stat : option error;
  contents : string
}.

(** [manager.Uploader.Upload]: one call to the store, which either fails and
    leaves the bucket alone or puts the whole body under the key.  It is not
    part of the multipart sessions the trace records. *)
Definition manager_Upload (key body : string) : M (result unit) := fun w =>
  let '(f, w) := s3_fault w in
  match f with
  | Some e => (Err e, w)
  | None => (Ok tt, set_store w (uploads w) (<[key := body]> (objects w)) (next_upload w))
  end.

(** [Uploader.UploadFile] *)
Definition UploadFile (file : LocalFile) (s3Key : string) : M (option error) :=
  match os_Open file with
  | Some err => ret (Some (Errorf "failed to open file: %w" [AErr err]))
  | None =>
      match file_Stat file with
      | Some err => ret (Some (Errorf "failed to get file info: %w" [AErr err]))
      | None => fun w =>
          let '(r, w) := manager_Upload s3Key (contents file) w in
          match r with
          | Err err => (Some (Errorf "failed to upload file: %w" [AErr err]), w)
          | Ok _ => (None, w)
          end
      end
  end.

(** [Uploader.UploadFileWithRetry] on that file. *)
Definition UploadFileWithRetry (file : LocalFile) (s3Key : string) : M (option error) :=
  s3.UploadFileWithRetry (UploadFile file s3Key).

End s3_files.

(** ** Package [sqlgen]: the LOAD DATA statements *)
Module sqlgen.
Import world.

Definition nl : string := String exporter.LF EmptyString.

(** The statement's format, a raw string literal in the source: its line
    breaks are line feeds, and the backslash before the [n] is a backslash. *)
Definition load_data_format : string :=
  "LOAD DATA FROM S3 '%s'" +:+ nl
  +:+ "IGNORE" +:+ nl
  +:+ "INTO TABLE %s" +:+ nl
  +:+ "FIELDS TERMINATED BY ','" +:+ nl
  +:+ "OPTIONALLY ENCLOSED BY '" +:+ String exporter.dquote "'" +:+ nl
  +:+ "LINES TERMINATED BY '\n'" +:+ nl
  +:+ "(tenantid, hash, aggr, last_modified, version);".

(** The body of the loop of [GenerateLoadDataSQL]. *)
Definition load_statement (cfg : config_load.Config) (csvFile : exporter.CSVFile) : string :=
  let s3Path :=
    Sprintf "s3://%s/%s" [AStr (config_load.S3Bucket cfg); AStr (exporter.S3Key csvFile)] in
  Sprintf load_data_format [AStr s3Path; AStr (config_load.TableName cfg)].

(** [GenerateLoadDataSQL] *)
Definition GenerateLoadDataSQL (csvFiles : list exporter.CSVFile) (cfg : config_load.Config)
  : result (list string) :=
  Ok (fold_left (fun sqlStatements csvFile => sqlStatements ++ [load_statement cfg csvFile])
                csvFiles []).

(** *** [WriteSQLFile] and [GenerateSQLFile] *)

(** What the local file system does to one file being written: the error
    of [os.Create], and the [WriteString] call that fails (counted from
    zero) with its error. *)
Record Writing : Type := mkWriting {
  os_Create : option error;
  write_fault : option (nat * error)
}.

(** [for _, sql := range sqlStatements { file.WriteString(sql + "\n\n") }],
    with [i] writes done and [written] in the file. *)
Fixpoint write_statements (wr : Writing) (i : nat) (sqlStatements : list string)
    (written : string) : string * option error :=
  match sqlStatements with
  | [] => (written, None)
  | sql :: rest =>
      match write_fault wr with
      | Some (k, err) =>
          if Nat.eqb k i then (written, Some (Errorf "failed to write SQL: %w" [AErr err]))
          else write_statements wr (S i) rest (written +:+ sql +:+ nl +:+ nl)
      | None => write_statements wr (S i) rest (written +:+ sql +:+ nl +:+ nl)
      end
  end.

(** [WriteSQLFile]: [os.Create] truncates the file; what was written before
    a failing write stays in it. *)
Definition WriteSQLFile (wr : Writing) (sqlStatements : list string) (filepath : string)
    (disk : gmap string string) : option error * gmap string string :=
  match os_Create wr with
  | Some err => (Some (Errorf "failed to create SQL file: %w" [AErr err]), disk)
  | None =>
      let '(written, err) := write_statements wr 0 sqlStatements EmptyString in
      (err, <[filepath := written]> disk)
  end.

(** [GenerateSQLFile]; [filepath.Join("/tmp", filename)] has nothing to
    clean in a file name of this shape. *)
Definition GenerateSQLFile (wr : Writing) (csvFiles : list exporter.CSVFile)
    (cfg : config_load.Config) (disk : gmap string string)
  : result string * gmap string string :=
  match GenerateLoadDataSQL csvFiles cfg with
  | Err err => (Err (Errorf "failed to generate SQL: %w" [AErr err]), disk)
  | Ok sqlStatements =>
      let filename := Sprintf "load-data-tenant-%d.sql" [AInt (config_load.TenantID cfg)] in
      let filepath := "/tmp/" +:+ filename in
      match WriteSQLFile wr sqlStatements filepath disk with
      | (Some err, disk) => (Err (Errorf "failed to write SQL file: %w" [AErr err]), disk)
      | (None, disk) => (Ok filepath, disk)
      end
  end.

(** *** [GenerateAndUploadSQL] *)

(** [sqlContent]: every statement followed by an empty line. *)
Fixpoint sql_content (sqlStatements : list string) : string :=
  match sqlStatements with
  | [] => EmptyString
  | sql :: rest => sql +:+ nl +:+ nl +:+ sql_content rest
  end.

(** What the temporary file meets: [os.CreateTemp], [Write], [Close], and
    then [os.Open] and [Stat] when [UploadFile] reads it back. *)
Record TempFile : Type := mkTempFile {
  os_CreateTemp : option error;
  tmp_Write : option error;
  tmp_Close : option error;
  tmp_Open : option error;
  tmp_Stat : option error
}.

Definition GenerateAndUploadSQL (tmp : TempFile) (csvFiles : list exporter.CSVFile)
    (cfg : config_load.Config) : M (result string) :=
  match GenerateLoadDataSQL csvFiles cfg with
  | Err err => ret (Err (Errorf "failed to generate SQL: %w" [AErr err]))
  | Ok sqlStatements =>
      let sqlContent := sql_content sqlStatements in
      let filename := Sprintf "load-data-tenant-%d.sql" [AInt (config_load.TenantID cfg)] in
      let s3Key := Sprintf "%s/sql/%s" [AStr (config_load.S3Prefix cfg); AStr filename] in
      match os_CreateTemp tmp with
      | Some err => ret (Err (Errorf "failed to create temp file: %w" [AErr err]))
      | None =>
          match tmp_Write tmp with
          | Some err => ret (Err (Errorf "failed to write SQL to temp file: %w" [AErr err]))
          | None =>
              match tmp_Close tmp with
              | Some err => ret (Err (Errorf "failed to close temp file: %w" [AErr err]))
              | None => fun w =>
                  let file := s3_files.mkLocalFile (tmp_Open tmp) (tmp_Stat tmp) sqlContent in
                  let '(err, w) := s3_files.UploadFileWithRetry file s3Key w in
                  match err with
                  | Some err =>
                      (Err (Errorf "failed to upload SQL file to S3: %w" [AErr err]), w)
                  | None => (Ok s3Key, w)
                  end
              end
          end
      end
  end.

(** *** [ExecuteLoadDataSQL] *)

(** The Aurora server as the function meets it: what its pings and its
    statements will return, call after call (a script that has run out means
    success), and the record of what was sent and how long the process
    slept. *)
Record Aurora : Type := mkAurora {
  pings : list (option error);
  execs : list (option error);
  sent : list string;
  slept : list Z;
  closed : bool
}.

Definition Ping (a : Aurora) : option error * Aurora :=
  match pings a with
  | [] => (None, a)
  | r :: rest => (r, mkAurora rest (execs a) (sent a) (slept a) (closed a))
  end.

Definition ExecContext (sql : string) (a : Aurora) : option error * Aurora :=
  match execs a with
  | [] => (None, mkAurora (pings a) [] (sent a ++ [sql]) (slept a) (closed a))
  | r :: rest => (r, mkAurora (pings a) rest (sent a ++ [sql]) (slept a) (closed a))
  end.

Definition Sleep (d : Z) (a : Aurora) : Aurora :=
  mkAurora (pings a) (execs a) (sent a) (slept a ++ [d]) (closed a).

Definition Close (a : Aurora) : Aurora :=
  mkAurora (pings a) (execs a) (sent a) (slept a) true.

(** [for attempt := 1; attempt <= 3; attempt++], with [todo] rounds left.
    The [err] that [lastErr = err] reads is the function's own variable, the
    one [store.NewSQLClient] assigned last; the result of the ping lives in
    the [if] statement only. *)
Fixpoint ping_attempts (todo : nat) (attempt delay : Z) (err lastErr : option error)
    (a : Aurora) : option error * Aurora :=
  match todo with
  | O => (lastErr, a)
  | S todo' =>
      let '(pingErr, a) := Ping a in
      match pingErr with
      | None => (lastErr, a)
      | Some _ =>
          let lastErr := err in
          if attempt <? 3 then
            let a := Sleep delay a in
            ping_attempts todo' (attempt + 1) (delay * 2) err lastErr a
          else ping_attempts todo' (attempt + 1) delay err lastErr a
      end
  end.

(** [for i, sql := range sqlStatements]: every statement is sent; a failure
    that mentions a duplicate entry counts as a success. *)
Fixpoint exec_statements (sqlStatements : list string) (successCount failureCount : Z)
    (a : Aurora) : Z * Z * Aurora :=
  match sqlStatements with
  | [] => (successCount, failureCount, a)
  | sql :: rest =>
      let '(err, a) := ExecContext sql a in
      match err with
      | Some err =>
          let errorMsg := Error err in
          if gostrings.Contains errorMsg "Duplicate entry"
             || gostrings.Contains errorMsg "Error 1062"
          then exec_statements rest (successCount + 1) failureCount a
          else exec_statements rest successCount (failureCount + 1) a
      | None => exec_statements rest (successCount + 1) failureCount a
      end
  end.

Section Execute.

Variable TrimSpace : string -> string.
Variable sm : util.SecretsManager.
Variable sql_Open : string -> option error.

Definition ExecuteLoadDataSQL (sqlStatements : list string) (cfg : config_load.Config)
    (p : util.Proc) (a : Aurora) : option error * util.Proc * Aurora :=
  if Z.of_nat (length sqlStatements) =? 0 then
    (Some (Errorf "no SQL statements to execute" []), p, a)
  else
    let p := util.LoadAWSCredentialsFromVault TrimSpace p in
    match util.ResolveAWSDBPassword sm (config_load.AuroraSecretsManagerSecret cfg)
                                    (config_load.AuroraRegion cfg) p with
    | Err err =>
        (Some (Errorf "failed to get AWS password from Secrets Manager: %w" [AErr err]), p, a)
    | Ok awsPwd =>
        let hostname := config_load.AuroraHost cfg in
        let hostname :=
          if (0 <? config_load.AuroraPort cfg) && negb (config_load.AuroraPort cfg =? 3306)
          then Sprintf "%s:%d" [AStr (config_load.AuroraHost cfg);
                                AInt (config_load.AuroraPort cfg)]
          else hostname in
        match store.NewSQLClient sql_Open Ping Close hostname
                (config_load.AuroraUser cfg) awsPwd (config_load.SQLExecTimeout cfg)
                "aws-aurora" (config_load.AuroraDatabase cfg) a with
        | (Err err, a) =>
            (Some (Errorf "failed to create Aurora MySQL client: %w" [AErr err]), p, a)
        | (Ok auroraClient, a) =>
            (* [err] is nil from here on *)
            let '(lastErr, a) := ping_attempts 3 1 (1 * 1000000000) None None a in
            match lastErr with
            | Some lastErr =>
                (Some (Errorf "failed to connect to Aurora MySQL after retries: %w"
                              [AErr lastErr]), p, Close a)
            | None =>
                let '(successCount, failureCount, a) := exec_statements sqlStatements 0 0 a in
                if 0 <? failureCount then
                  (Some (Errorf "some SQL statements failed: %d/%d succeeded"
                                [AInt successCount; AInt (Z.of_nat (length sqlStatements))]),
                   p, Close a)
                else (None, p, Close a)
            end
        end
    end.

End Execute.

End sqlgen.

(** * Properties *)

Example sprintf_demo :
  Sprintf "%s/tenant-%d/%s/%s" [AStr "p"; AInt 12; AStr "t"; AStr "f"] = "p/tenant-12/t/f"
  /\ Sprintf "%02x" [AInt 10] = "0a" /\ Sprintf "%02x" [AInt 255] = "ff"
  /\ Errorf "query failed: %w" [AErr (errorString "boom")]
     = wrapError "query failed: boom" (errorString "boom").
Proof. repeat split; reflexivity. Qed.

Example SegmentHashSpace_4 :
  segment.SegmentHashSpace 4
  = Ok [segment.mkSegment 0 "00" "40"; segment.mkSegment 1 "40" "80";
        segment.mkSegment 2 "80" "c0"; segment.mkSegment 3 "c0" "100"].
Proof. reflexivity. Qed.

Example SegmentHashSpace_3 :
  segment.SegmentHashSpace 3
  = Ok [segment.mkSegment 0 "00" "56"; segment.mkSegment 1 "56" "ab";
        segment.mkSegment 2 "ab" "100"].
Proof. reflexivity. Qed.

Example HexToInt_tests :
  segment.HexToInt "00" = Ok 0 /\ segment.HexToInt "0a" = Ok 10
  /\ segment.HexToInt "ff" = Ok 255 /\ is_ok (segment.HexToInt "gg") = false
  /\ is_ok (segment.HexToInt "") = false /\ segment.HexToInt "100" = Ok 256.
Proof. repeat split; reflexivity. Qed.

Example HashInSegment_tests :
  let seg := segment.mkSegment 0 "00" "10" in
  segment.HashInSegment "00abc123" seg = true
  /\ segment.HashInSegment "0aabc123" seg = true
  /\ segment.HashInSegment "0fabc123" seg = true
  /\ segment.HashInSegment "ffabc123" seg = false
  /\ segment.HashInSegment "10abc123" seg = false
  /\ segment.HashInSegment "0" seg = false
  /\ segment.HashInSegment "" seg = false.
Proof. repeat split; reflexivity. Qed.

(** ** The partitioner *)
Module segment_facts.
Import segment.

(** The ordinal at which segment [i] of an [n]-way split starts. *)
Definition boundary (q r i : Z) : Z := i * q + Z.min i r.

(** The number of prefix values the claim gives to segment [i]. *)
Definition seg_size (n i : Z) : Z :=
  if i <? 256 mod n then 256 / n + 1 else 256 / n.

(** [v] lies in the numeric range the segment's two boundaries denote. *)
Definition covers (s : Segment) (v : Z) : bool :=
  match HexToInt (StartHex s), HexToInt (EndHex s) with
  | Ok lo, Ok hi => (lo <=? v) && (v <? hi)
  | _, _ => false
  end.

Lemma boundary_succ q r i :
  boundary q r (i + 1) = boundary q r i + (if i <? r then q + 1 else q).
Proof. unfold boundary. destruct (Z.ltb_spec i r); lia. Qed.

Lemma boundary_mono q r i j : 0 <= q -> i <= j -> boundary q r i <= boundary q r j.
Proof.
  intros Hq Hij. unfold boundary.
  assert (i * q <= j * q) by (apply Z.mul_le_mono_nonneg_r; lia). lia.
Qed.

Lemma boundary_strict q r i j : 0 < q -> i < j -> boundary q r i < boundary q r j.
Proof.
  intros Hq Hij. unfold boundary.
  assert (i * q < j * q) by (apply Z.mul_lt_mono_pos_r; lia). lia.
Qed.

Lemma fill_length todo : forall i start q r, length (fill todo i start q r) = todo.
Proof. induction todo as [|todo IH]; intros; simpl; [reflexivity | now rewrite IH]. Qed.

(** The loop invariant: [start] is the boundary of [i], and as long as the
    last boundary stays within 256 the clamp never fires. *)
Lemma fill_lookup todo : forall i start q r (j : nat),
  (j < todo)%nat -> 0 <= q ->
  start = boundary q r i ->
  boundary q r (i + Z.of_nat todo) <= 256 ->
  fill todo i start q r !! j
  = Some (mkSegment (i + Z.of_nat j)
            (intToHex (boundary q r (i + Z.of_nat j)))
            (intToHex (boundary q r (i + Z.of_nat j + 1)))).
Proof.
  induction todo as [|todo IH]; intros i start q r j Hj Hq Hstart Hend; [lia|].
  assert (Hnext : start + (if i <? r then q + 1 else q) = boundary q r (i + 1))
    by (rewrite boundary_succ; lia).
  assert (Hle : boundary q r (i + 1) <= 256).
  { etransitivity; [apply (boundary_mono q r (i + 1) (i + Z.of_nat (S todo))); lia | exact Hend]. }
  cbn [fill]. rewrite Hnext.
  destruct (Z.ltb_spec 256 (boundary q r (i + 1))) as [Hbad|_]; [lia|].
  destruct j as [|j].
  - cbn. rewrite Z.add_0_r. now subst start.
  - cbn [lookup list_lookup]. rewrite (IH (i + 1) _ q r j); try lia; try reflexivity.
    + replace (i + Z.of_nat (S j)) with (i + 1 + Z.of_nat j) by lia. reflexivity.
    + replace (i + 1 + Z.of_nat todo) with (i + Z.of_nat (S todo)) by lia. exact Hend.
Qed.

Lemma bounded_check (P : Z -> bool) (hi : nat) :
  forallb (fun k => P (Z.of_nat k)) (seq 0 hi) = true ->
  forall v, 0 <= v < Z.of_nat hi -> P v = true.
Proof.
  intros Hall v Hv. rewrite forallb_forall in Hall.
  specialize (Hall (Z.to_nat v)). rewrite Z2Nat.id in Hall by lia.
  apply Hall. apply in_seq. lia.
Qed.

(** Every boundary the partitioner prints reads back as the same number. *)
Lemma HexToInt_intToHex v : 0 <= v <= 256 -> HexToInt (intToHex v) = Ok v.
Proof.
  intros Hv.
  pose (P := fun v => match HexToInt (intToHex v) with Ok x => x =? v | Err _ => false end).
  assert (HP : P v = true).
  { apply (bounded_check P 257); [vm_compute; reflexivity | lia]. }
  unfold P in HP. destruct (HexToInt (intToHex v)); [|discriminate].
  apply Z.eqb_eq in HP. now subst.
Qed.

(** Below 256 a boundary is never printed as ["ff"] unless it is 255. *)
Lemma intToHex_256 : intToHex 256 = "100".
Proof. reflexivity. Qed.

Lemma quot_rem_256 n :
  1 <= n <= 256 ->
  Z.quot 256 n = 256 / n /\ Z.rem 256 n = 256 mod n
  /\ 1 <= 256 / n /\ 0 <= 256 mod n < n
  /\ boundary (256 / n) (256 mod n) n = 256.
Proof.
  intros Hn.
  assert (Hq : Z.quot 256 n = 256 / n) by (apply Z.quot_div_nonneg; lia).
  assert (Hr : Z.rem 256 n = 256 mod n) by (apply Z.rem_mod_nonneg; lia).
  assert (Hm : 0 <= 256 mod n < n) by (apply Z.mod_pos_bound; lia).
  assert (Hd : 256 = n * (256 / n) + 256 mod n) by (apply Z.div_mod; lia).
  assert (H1 : 1 <= 256 / n) by (apply Z.div_le_lower_bound; lia).
  repeat split; try lia. unfold boundary. lia.
Qed.

(** What [SegmentHashSpace] returns on a valid count, element by element. *)
Lemma SegmentHashSpace_elements n :
  1 <= n <= 256 ->
  exists segs,
    SegmentHashSpace n = Ok segs
    /\ length segs = Z.to_nat n
    /\ forall i : nat, (i < Z.to_nat n)%nat ->
         segs !! i
         = Some (mkSegment (Z.of_nat i)
                   (intToHex (boundary (256 / n) (256 mod n) (Z.of_nat i)))
                   (intToHex (boundary (256 / n) (256 mod n) (Z.of_nat i + 1)))).
Proof.
  intros Hn. destruct (quot_rem_256 n Hn) as (Hq & Hr & Hq1 & Hm & Hb).
  unfold SegmentHashSpace.
  destruct (Z.leb_spec n 0); [lia|]. destruct (Z.ltb_spec 256 n); [lia|].
  rewrite Hq, Hr.
  set (segs := fill (Z.to_nat n) 0 0 (256 / n) (256 mod n)).
  assert (Hlook : forall i : nat, (i < Z.to_nat n)%nat ->
            segs !! i
            = Some (mkSegment (Z.of_nat i)
                      (intToHex (boundary (256 / n) (256 mod n) (Z.of_nat i)))
                      (intToHex (boundary (256 / n) (256 mod n) (Z.of_nat i + 1))))).
  { intros i Hi. unfold segs. rewrite (fill_lookup _ 0 0 (256 / n) (256 mod n) i); try lia.
    - reflexivity.
    - unfold boundary. lia.
    - rewrite Z.add_0_l, Z2Nat.id by lia. lia. }
  assert (Hlen : length segs = Z.to_nat n) by apply fill_length.
  assert (Hfix : fix_last segs = segs).
  { unfold fix_last. rewrite last_lookup, Hlen, Hlook by lia. cbn [EndHex].
    replace (Z.of_nat (Nat.pred (Z.to_nat n)) + 1) with n by lia.
    rewrite Hb. reflexivity. }
  exists segs. rewrite Hfix. auto.
Qed.

Lemma boundary_locate q r (k : nat) v :
  0 <= q -> 0 <= r -> 0 <= v < boundary q r (Z.of_nat k) ->
  exists i : nat, (i < k)%nat
    /\ boundary q r (Z.of_nat i) <= v < boundary q r (Z.of_nat i + 1).
Proof.
  intros Hq Hr. induction k as [|k IH]; intros Hv.
  - unfold boundary in Hv. cbn in Hv. lia.
  - destruct (Z.lt_ge_cases v (boundary q r (Z.of_nat k))) as [Hlt|Hge].
    + destruct IH as (i & Hi & Hb); [lia|]. exists i. split; [lia | exact Hb].
    + exists k. split; [lia|]. replace (Z.of_nat k + 1) with (Z.of_nat (S k)) by lia. lia.
Qed.

Lemma covers_boundary q r i j v :
  0 <= q -> 0 <= r -> 0 <= i -> boundary q r (i + 1) <= 256 ->
  covers (mkSegment j (intToHex (boundary q r i)) (intToHex (boundary q r (i + 1)))) v
  = (boundary q r i <=? v) && (v <? boundary q r (i + 1)).
Proof.
  intros Hq Hr Hi Hle.
  assert (H0 : 0 <= boundary q r i) by (unfold boundary; nia).
  assert (H1 : boundary q r i <= boundary q r (i + 1)) by (apply boundary_mono; lia).
  unfold covers; cbn [StartHex EndHex].
  now rewrite !HexToInt_intToHex by lia.
Qed.

(** C1. For every n in [1,256], [SegmentHashSpace n] succeeds with exactly n
    segments; the first starts at "00" and the last ends at the sentinel
    "100"; segment i spans floor(256/n)+1 prefix values when i < 256 mod n and
    floor(256/n) otherwise; consecutive segments share their boundary, and
    every prefix value 0..255 lies in exactly one segment.  For n <= 0 or
    n > 256 it returns an error. *)
Theorem SegmentHashSpace_partition (n : Z) :
  (1 <= n <= 256 ->
   exists segs,
     SegmentHashSpace n = Ok segs
     /\ Z.of_nat (length segs) = n
     /\ (exists s0, head segs = Some s0 /\ StartHex s0 = "00")
     /\ (exists sl, last segs = Some sl /\ EndHex sl = "100")
     /\ (forall (i : nat) s, segs !! i = Some s ->
           Index s = Z.of_nat i
           /\ exists lo hi,
                HexToInt (StartHex s) = Ok lo /\ HexToInt (EndHex s) = Ok hi
                /\ 0 <= lo /\ hi <= 256 /\ hi - lo = seg_size n (Z.of_nat i))
     /\ (forall (i : nat) s t, segs !! i = Some s -> segs !! S i = Some t ->
           EndHex s = StartHex t)
     /\ (forall v, 0 <= v < 256 ->
           exists (i : nat) s, segs !! i = Some s /\ covers s v = true
             /\ forall (j : nat) t, segs !! j = Some t -> covers t v = true -> j = i))
  /\ (n <= 0 \/ 256 < n -> exists e, SegmentHashSpace n = Err e).
Proof.
  split.
  - intros Hn. destruct (quot_rem_256 n Hn) as (_ & _ & Hq1 & Hm & Hb).
    destruct (SegmentHashSpace_elements n Hn) as (segs & Hrun & Hlen & Hlook).
    set (q := 256 / n) in *. set (r := 256 mod n) in *.
    assert (Hin : forall (i : nat) s, segs !! i = Some s ->
              (i < Z.to_nat n)%nat
              /\ s = mkSegment (Z.of_nat i) (intToHex (boundary q r (Z.of_nat i)))
                               (intToHex (boundary q r (Z.of_nat i + 1)))).
    { intros i s Hs. assert (Hi : (i < Z.to_nat n)%nat).
      { rewrite <- Hlen. eapply lookup_lt_Some; eauto. }
      split; [exact Hi|]. rewrite (Hlook i Hi) in Hs. now inversion Hs. }
    assert (Hup : forall i : nat, (i < Z.to_nat n)%nat -> boundary q r (Z.of_nat i + 1) <= 256).
    { intros i Hi. rewrite <- Hb. apply boundary_mono; lia. }
    exists segs. split; [exact Hrun|]. split; [lia|].
    split; [|split; [|split; [|split]]].
    + exists (mkSegment 0 "00" (intToHex (boundary q r 1))). split; [|reflexivity].
      rewrite head_lookup, (Hlook 0%nat) by lia.
      replace (boundary q r (Z.of_nat 0)) with 0 by (unfold boundary; cbn; lia).
      reflexivity.
    + eexists. rewrite last_lookup, Hlen, Hlook by lia. split; [reflexivity|]. cbn [EndHex].
      replace (Z.of_nat (Nat.pred (Z.to_nat n)) + 1) with n by lia.
      now rewrite Hb.
    + intros i s Hs. destruct (Hin i s Hs) as [Hi ->]. split; [reflexivity|].
      exists (boundary q r (Z.of_nat i)), (boundary q r (Z.of_nat i + 1)).
      assert (H0 : 0 <= boundary q r (Z.of_nat i)) by (unfold boundary; nia).
      assert (H1 : boundary q r (Z.of_nat i) <= boundary q r (Z.of_nat i + 1))
        by (apply boundary_mono; lia).
      specialize (Hup i Hi). cbn [StartHex EndHex].
      rewrite !HexToInt_intToHex by lia.
      repeat split; try lia.
      rewrite boundary_succ. unfold seg_size. fold q r. destruct (Z.of_nat i <? r); lia.
    + intros i s t Hs Ht. destruct (Hin i s Hs) as [_ ->]. destruct (Hin (S i) t Ht) as [_ ->].
      cbn [StartHex EndHex]. do 2 f_equal. lia.
    + intros v Hv.
      destruct (boundary_locate q r (Z.to_nat n) v) as (i & Hi & Hiv); try lia.
      { rewrite Z2Nat.id by lia. lia. }
      exists i. eexists. split; [apply Hlook; exact Hi|].
      split.
      * rewrite covers_boundary by (try lia; apply Hup; exact Hi).
        apply andb_true_iff. split; [apply Z.leb_le | apply Z.ltb_lt]; lia.
      * intros j t Ht Hc. destruct (Hin j t Ht) as [Hj ->].
        rewrite covers_boundary in Hc by (try lia; apply Hup; exact Hj).
        apply andb_true_iff in Hc. destruct Hc as [Hc1%Z.leb_le Hc2%Z.ltb_lt].
        destruct (Nat.lt_trichotomy j i) as [Hlt|[Heq|Hgt]]; [|exact Heq|].
        -- assert (boundary q r (Z.of_nat j + 1) <= boundary q r (Z.of_nat i))
             by (apply boundary_mono; lia). lia.
        -- assert (boundary q r (Z.of_nat i + 1) <= boundary q r (Z.of_nat j))
             by (apply boundary_mono; lia). lia.
  - intros Hn. unfold SegmentHashSpace.
    destruct (Z.leb_spec n 0); [eauto|].
    destruct (Z.ltb_spec 256 n); [eauto | lia].
Qed.

(** The split into sixteen, as in the package's own test: sixteen segments
    from "00" up to the sentinel. *)
Lemma SegmentHashSpace_partition_witness :
  exists segs,
    SegmentHashSpace 16 = Ok segs
    /\ Z.of_nat (length segs) = 16
    /\ (exists s0, head segs = Some s0 /\ StartHex s0 = "00")
    /\ (exists sl, last segs = Some sl /\ EndHex sl = "100").
Proof.
  destruct (proj1 (SegmentHashSpace_partition 16)) as (segs & H1 & H2 & H3 & H4 & _).
  - lia.
  - exists segs. auto.
Defined.

(** *** Membership by prefix against membership by boundaries *)

(** Two-digit boundaries compare as strings the way their values compare. *)
Lemma intToHex_order a b :
  0 <= a < 256 -> 0 <= b < 256 ->
  str_lt (intToHex a) (intToHex b) = (a <? b)
  /\ str_ge (intToHex a) (intToHex b) = (b <=? a).
Proof.
  intros Ha Hb.
  pose (P := fun a => forallb (fun b : nat =>
               Bool.eqb (str_lt (intToHex a) (intToHex (Z.of_nat b))) (a <? Z.of_nat b)
               && Bool.eqb (str_ge (intToHex a) (intToHex (Z.of_nat b))) (Z.of_nat b <=? a))
               (seq 0 256)).
  assert (HP : P a = true) by (apply (bounded_check P 256); [vm_compute; reflexivity | lia]).
  unfold P in HP. rewrite forallb_forall in HP.
  specialize (HP (Z.to_nat b)). rewrite Z2Nat.id in HP by lia.
  assert (Hin : In (Z.to_nat b) (seq 0 256)) by (apply in_seq; lia).
  apply HP, andb_true_iff in Hin. destruct Hin as [H1 H2].
  apply Bool.eqb_prop in H1, H2. auto.
Qed.

(** Against the sentinel the string comparison holds only up to "10". *)
Lemma intToHex_below_sentinel a :
  0 <= a < 256 -> str_lt (intToHex a) "100" = (a <=? 16).
Proof.
  intros Ha.
  pose (P := fun a => Bool.eqb (str_lt (intToHex a) "100") (a <=? 16)).
  assert (HP : P a = true) by (apply (bounded_check P 256); [vm_compute; reflexivity | lia]).
  apply Bool.eqb_prop in HP. exact HP.
Qed.

(** [SegmentToHexRange] returns the boundaries of the segment with that index. *)
Lemma SegmentToHexRange_agrees n i :
  1 <= n <= 256 -> 0 <= i < n ->
  exists segs s,
    SegmentHashSpace n = Ok segs /\ segs !! Z.to_nat i = Some s
    /\ Index s = i
    /\ SegmentToHexRange i n = Ok (StartHex s, EndHex s).
Proof.
  intros Hn Hi. destruct (SegmentHashSpace_elements n Hn) as (segs & Hrun & Hlen & Hlook).
  specialize (Hlook (Z.to_nat i) ltac:(lia)).
  exists segs. eexists. split; [exact Hrun|]. split; [exact Hlook|].
  split; [cbn [Index]; lia|].
  unfold SegmentToHexRange. rewrite Hrun.
  destruct (Z.ltb_spec i 0); [lia|]. destruct (Z.leb_spec n i); [lia|]. cbn [orb].
  destruct (Z.leb_spec (Z.of_nat (length segs)) i); [lia|].
  rewrite Hlook. reflexivity.
Qed.

Lemma SegmentToHexRange_agrees_witness :
  exists segs s,
    SegmentHashSpace 16 = Ok segs /\ segs !! Z.to_nat 15 = Some s
    /\ Index s = 15
    /\ SegmentToHexRange 15 16 = Ok (StartHex s, EndHex s).
Proof. apply (SegmentToHexRange_agrees 16 15); lia. Defined.

(** For a key that starts with two lowercase hex digits, of value [v]:
    [HashInSegment] agrees with the segment's numeric range on every segment
    but the last one, where it accepts only the prefixes up to "10". *)
Lemma HashInSegment_numeric n i key v :
  1 <= n <= 256 -> 0 <= i < n -> 0 <= v < 256 ->
  (2 <= String.length key)%nat -> substring 0 2 key = intToHex v ->
  exists segs s,
    SegmentHashSpace n = Ok segs /\ segs !! Z.to_nat i = Some s
    /\ HashInSegment key s
       = if i <? n - 1 then covers s v else covers s v && (v <=? 16).
Proof.
  intros Hn Hi Hv Hlen Hkey.
  destruct (quot_rem_256 n Hn) as (_ & _ & Hq1 & Hm & Hb).
  destruct (SegmentHashSpace_elements n Hn) as (segs & Hrun & _ & Hlook).
  specialize (Hlook (Z.to_nat i) ltac:(lia)). rewrite Z2Nat.id in Hlook by lia.
  exists segs. eexists. split; [exact Hrun|]. split; [exact Hlook|].
  set (q := 256 / n) in *. set (r := 256 mod n) in *.
  assert (H0 : 0 <= boundary q r i) by (unfold boundary; nia).
  assert (Hlt : boundary q r i < boundary q r (i + 1)) by (apply boundary_strict; lia).
  assert (Hup : boundary q r (i + 1) <= 256) by (rewrite <- Hb; apply boundary_mono; lia).
  rewrite covers_boundary by lia.
  unfold HashInSegment, len. destruct (Z.ltb_spec (Z.of_nat (String.length key)) 2); [lia|].
  cbn [StartHex EndHex]. rewrite Hkey.
  rewrite (proj2 (intToHex_order v (boundary q r i) Hv ltac:(lia))).
  destruct (Z.ltb_spec i (n - 1)) as [Hin|Hlast].
  - assert (boundary q r (i + 1) < 256).
    { rewrite <- Hb. apply boundary_strict; lia. }
    now rewrite (proj1 (intToHex_order v (boundary q r (i + 1)) Hv ltac:(lia))).
  - replace (i + 1) with n by lia. rewrite Hb, intToHex_256, intToHex_below_sentinel by lia.
    destruct (Z.leb_spec (boundary q r i) v), (Z.ltb_spec v 256), (Z.leb_spec v 16);
      try reflexivity; lia.
Qed.

Lemma HashInSegment_numeric_witness :
  exists segs s,
    SegmentHashSpace 4 = Ok segs /\ segs !! Z.to_nat 1 = Some s
    /\ HashInSegment "5aabc123def456" s = covers s 90.
Proof.
  apply (HashInSegment_numeric 4 1 "5aabc123def456" 90);
    [lia | lia | lia | cbn; lia | reflexivity].
Defined.

(** C2 at the last of sixteen segments, key "ffabc123def456": the range
    [SegmentToHexRange] returns is f0-100, the same as the sixteenth segment
    of [SegmentHashSpace 16], and the key's prefix ff = 255 lies in it; yet
    [HashInSegment] answers false, because "ff" < "100" fails as a string
    comparison. *)
Lemma HashInSegment_misses_last_segment :
  SegmentToHexRange 15 16 = Ok ("f0", "100")
  /\ (exists segs, SegmentHashSpace 16 = Ok segs
        /\ segs !! 15%nat = Some (mkSegment 15 "f0" "100"))
  /\ HexToInt "f0" = Ok 240 /\ HexToInt "ff" = Ok 255 /\ HexToInt "100" = Ok 256
  /\ covers (mkSegment 15 "f0" "100") 255 = true
  /\ HashInSegment "ffabc123def456" (mkSegment 15 "f0" "100") = false
  /\ HashInSegment "ffabc123def456" (mkSegment 0 "00" "100") = false.
Proof.
  split; [reflexivity|]. split; [eexists; split; reflexivity|].
  repeat split; reflexivity.
Qed.

End segment_facts.

(** ** The remote object key *)
Module key_facts.
Import world.

Lemma append_empty_r (s : string) : s +:+ EmptyString = s.
Proof.
  induction s as [|c s IH]; [reflexivity|].
  change (String c (s +:+ EmptyString) = String c s). now rewrite IH.
Qed.

(** The key as the claim words it:
    [{prefix}/tenant-{tenantId}/{table}/{table}.hash-{startKey}-{endKey}.{ext}]. *)
Definition claimed_key (ext : string) (cfg : config.Config) (seg : segment.Segment) : string :=
  config.S3Prefix cfg +:+ "/tenant-" +:+ itoa (config.TenantID cfg) +:+ "/"
  +:+ config.TableName cfg +:+ "/" +:+ config.TableName cfg +:+ ".hash-"
  +:+ segment.StartHex seg +:+ "-" +:+ segment.EndHex seg +:+ "." +:+ ext.

(** The key the code builds: the file name repeats the tenant. *)
Definition tenant_key (cfg : config.Config) (seg : segment.Segment) : string :=
  config.S3Prefix cfg +:+ "/tenant-" +:+ itoa (config.TenantID cfg) +:+ "/"
  +:+ config.TableName cfg +:+ "/tenant-" +:+ itoa (config.TenantID cfg) +:+ "."
  +:+ config.TableName cfg +:+ ".hash-"
  +:+ segment.StartHex seg +:+ "-" +:+ segment.EndHex seg +:+ ".csv".

Lemma s3Key_of_format cfg seg : exporter.s3Key_of cfg seg = tenant_key cfg seg.
Proof.
  unfold exporter.s3Key_of, tenant_key, Sprintf.
  cbv [run fst head tail verb_s verb_d].
  rewrite append_empty_r. reflexivity.
Qed.

(** Case analysis on the next scrutinee of a hypothesis. *)
Ltac step_in H :=
  match type of H with
  | context [match ?x with _ => _ end] =>
      let E := fresh "E" in destruct x eqn:E; try discriminate H
  end.

Lemma export_body_file cfg seg s3Key stream w f stream' w' :
  exporter.export_body cfg seg s3Key stream w = (Ok (Some f), stream', w') ->
  exporter.S3Key f = s3Key /\ exporter.Segment f = seg /\ exporter.FilePath f = "".
Proof.
  unfold exporter.export_body. intros H.
  repeat step_in H; inversion H; subst; auto.
Qed.

(** C6 (amended). Whenever [ExportSegment] returns an object, its key is
    [{prefix}/tenant-{tenantId}/{table}/tenant-{tenantId}.{table}.hash-{startKey}-{endKey}.csv],
    character for character, with the segment's own boundaries. *)
Theorem ExportSegment_key cfg seg w f w' :
  exporter.ExportSegment cfg seg w = (Ok (Some f), w') ->
  exporter.S3Key f = tenant_key cfg seg /\ exporter.Segment f = seg.
Proof.
  unfold exporter.ExportSegment. intros H.
  repeat step_in H. inversion H; subst.
  match goal with E : exporter.export_body _ _ _ _ _ = _ |- _ =>
    apply export_body_file in E; destruct E as (Hk & Hs & _) end.
  rewrite Hk, Hs, s3Key_of_format. auto.
Qed.

(** The package's own expectation ([TestExportSegment]): segment 00-40 of the
    test table is exported under the key the test spells out. *)
Lemma ExportSegment_key_witness :
  exists f w',
    exporter.ExportSegment fixtures.cfg fixtures.seg_00_40 fixtures.calm = (Ok (Some f), w')
    /\ exporter.S3Key f
       = "test-prefix/tenant-999999/fis_aggr/tenant-999999.fis_aggr.hash-00-40.csv".
Proof.
  destruct (exporter.ExportSegment fixtures.cfg fixtures.seg_00_40 fixtures.calm)
    as [r w'] eqn:E.
  assert (Hr : r = Ok (Some (exporter.mkCSVFile EmptyString
             "test-prefix/tenant-999999/fis_aggr/tenant-999999.fis_aggr.hash-00-40.csv"
             fixtures.seg_00_40 3))).
  { apply (f_equal fst) in E. cbn [fst] in E. rewrite <- E. vm_compute. reflexivity. }
  subst r. eexists _, w'. split; [reflexivity|].
  destruct (ExportSegment_key _ _ _ _ _ E) as [Hk _]. rewrite Hk. reflexivity.
Defined.

(** C6 as stated fails: no extension makes the returned key equal to
    [{prefix}/tenant-{tenantId}/{table}/{table}.hash-{startKey}-{endKey}.{ext}]. *)
Lemma ExportSegment_key_counterexample :
  exists f,
    fst (exporter.ExportSegment fixtures.cfg fixtures.seg_00_40 fixtures.calm) = Ok (Some f)
    /\ ~ (exists ext, exporter.S3Key f = claimed_key ext fixtures.cfg fixtures.seg_00_40).
Proof.
  eexists. split; [vm_compute; reflexivity|].
  intros [ext H]. vm_compute in H. discriminate H.
Qed.

End key_facts.

(** ** Reading the trace *)
Module trace_facts.
Import world.

(** The parts a session has received according to a trace: number and body
    of every [UploadPart] call on [id] that succeeded, oldest first. *)
Definition uploaded_part (id : nat) (ev : event) : option (Z * string) :=
  match ev with
  | EvUploadPart id' pn body true => if Nat.eqb id id' then Some (pn, body) else None
  | _ => None
  end.

Definition uploaded (id : nat) (tr : list event) : list (Z * string) :=
  omap (uploaded_part id) tr.

(** The sleeps a trace records, oldest first. *)
Definition sleep_of (ev : event) : option Z :=
  match ev with EvSleep d => Some d | _ => None end.

Definition sleeps (tr : list event) : list Z := omap sleep_of tr.

(** The [AbortMultipartUpload] calls on [id] a trace records. *)
Definition abort_of (id : nat) (ev : event) : option bool :=
  match ev with
  | EvAbortMultipartUpload id' ok => if Nat.eqb id id' then Some ok else None
  | _ => None
  end.

Definition aborts (id : nat) (tr : list event) : list bool := omap (abort_of id) tr.

(** [w'] is [w] after some calls to the store: the database is as it was, and
    the trace grew by [evs]. *)
Definition store_step (w w' : World) (evs : list event) : Prop :=
  tables w' = tables w /\ db_script w' = db_script w /\ tx w' = tx w
  /\ trace w' = trace w ++ evs.

(** [w'] is [w] after some calls to the database: the store is as it was. *)
Definition db_step (w w' : World) (evs : list event) : Prop :=
  uploads w' = uploads w /\ objects w' = objects w /\ next_upload w' = next_upload w
  /\ s3_script w' = s3_script w /\ tables w' = tables w
  /\ trace w' = trace w ++ evs
  /\ forall id, uploaded id evs = [] /\ aborts id evs = [].

Lemma uploaded_app id a b : uploaded id (a ++ b) = uploaded id a ++ uploaded id b.
Proof. apply omap_app. Qed.

Lemma aborts_app id a b : aborts id (a ++ b) = aborts id a ++ aborts id b.
Proof. apply omap_app. Qed.

Lemma sleeps_app a b : sleeps (a ++ b) = sleeps a ++ sleeps b.
Proof. apply omap_app. Qed.

Lemma store_step_refl w : store_step w w [].
Proof. unfold store_step. rewrite app_nil_r. auto. Qed.

Lemma store_step_trans w w1 w2 e1 e2 :
  store_step w w1 e1 -> store_step w1 w2 e2 -> store_step w w2 (e1 ++ e2).
Proof.
  unfold store_step. intros (Ha1 & Hb1 & Hc1 & Ht1) (Ha2 & Hb2 & Hc2 & Ht2).
  repeat split; try congruence. rewrite Ht2, Ht1, app_assoc. reflexivity.
Qed.

(** Events that are neither a received part nor an abort. *)
Definition quiet (evs : list event) : Prop :=
  forall id, uploaded id evs = [] /\ aborts id evs = [].

Lemma quiet_nil : quiet [].
Proof. intros id. auto. Qed.

Lemma quiet_app a b : quiet a -> quiet b -> quiet (a ++ b).
Proof.
  intros Ha Hb id. rewrite uploaded_app, aborts_app.
  destruct (Ha id) as [-> ->], (Hb id) as [-> ->]. auto.
Qed.

(** [w'] is [w] after calls to the database that used up [n] entries of its
    fault script and left the transaction as it was. *)
Definition db_only (n : nat) (w w' : World) : Prop :=
  tx w' = tx w /\ db_script w' = drop n (db_script w)
  /\ exists evs, db_step w w' evs.

End trace_facts.

(** ** The row filter of [querySegmentInTx] *)
Module query_facts.
Import world trace_facts.

Fixpoint no_blank (s : string) : bool :=
  match s with
  | EmptyString => true
  | String c rest => negb (mariadb.is_space c) && no_blank rest
  end.

(** A table reference the statement text can carry as one word. *)
Definition identifier (s : string) : Prop := s <> EmptyString /\ no_blank s = true.

Definition tableRef (cfg : config.Config) : string :=
  if String.eqb (config.MariaDBDatabase cfg) ""
  then config.TableName cfg
  else config.MariaDBDatabase cfg +:+ "." +:+ config.TableName cfg.

(** The claim's filter on the row key. *)
Definition in_segment (seg : segment.Segment) (key : string) : bool :=
  str_ge key (segment.StartHex seg)
  && (if String.eqb (segment.EndHex seg) "100" then str_le key "ff"
      else str_lt key (segment.EndHex seg)).

Definition after_cursor (cursor key : string) : bool :=
  if String.eqb cursor "" then true else str_gt key cursor.

Definition row_filter (cfg : config.Config) (seg : segment.Segment) (cursor : string)
    (r : DbRow) : bool :=
  (c_tenantid r =? config.TenantID cfg)
  && after_cursor cursor (c_hash r) && in_segment seg (c_hash r).

(** Ascending by key. *)
Definition ascending (rows : list exporter.Row) : Prop :=
  Sorted (fun a b => str_le (exporter.Hash a) (exporter.Hash b) = true) rows.

Lemma app_String c s t : String c s +:+ t = String c (s +:+ t).
Proof. reflexivity. Qed.

Lemma app_empty_l t : EmptyString +:+ t = t.
Proof. reflexivity. Qed.

Lemma app_assoc_string (a b c : string) : (a +:+ b) +:+ c = a +:+ (b +:+ c).
Proof.
  induction a as [|x a IH]; [reflexivity|].
  rewrite !app_String. now rewrite IH.
Qed.

Lemma tokenize_word w : forall cur rest,
  no_blank w = true ->
  mariadb.tokenize cur (w +:+ rest) = mariadb.tokenize (cur +:+ w) rest.
Proof.
  induction w as [|c w IH]; intros cur rest Hw.
  - now rewrite app_empty_l, key_facts.append_empty_r.
  - cbn [no_blank] in Hw. apply andb_true_iff in Hw. destruct Hw as [Hc Hw].
    rewrite app_String. cbn [mariadb.tokenize].
    destruct (mariadb.is_space c); [discriminate|].
    rewrite IH by exact Hw. rewrite app_assoc_string. reflexivity.
Qed.

Definition atoms (hasCursor useLessThan : bool) : list mariadb.atom :=
  mariadb.mkAtom mariadb.ColTenantid mariadb.OpEq mariadb.Placeholder
  :: (if hasCursor then [mariadb.mkAtom mariadb.ColHash mariadb.OpGt mariadb.Placeholder] else [])
  ++ [mariadb.mkAtom mariadb.ColHash mariadb.OpGe mariadb.Placeholder;
      if useLessThan then mariadb.mkAtom mariadb.ColHash mariadb.OpLt mariadb.Placeholder
      else mariadb.mkAtom mariadb.ColHash mariadb.OpLe (mariadb.Literal "ff")].

Lemma tableRef_Sprintf cfg :
  Sprintf "%s.%s" [AStr (config.MariaDBDatabase cfg); AStr (config.TableName cfg)]
  = config.MariaDBDatabase cfg +:+ "." +:+ config.TableName cfg.
Proof.
  unfold Sprintf. cbv [run fst head tail verb_s]. now rewrite key_facts.append_empty_r.
Qed.

Lemma parse_statement (table : string) (hasCursor useLessThan : bool) :
  identifier table ->
  mariadb.parse_select
    (Sprintf exporter.query_format
             [AStr table; AStr (exporter.hashCondition hasCursor useLessThan)])
  = Some (mariadb.mkSelect table (atoms hasCursor useLessThan) mariadb.Placeholder).
Proof.
  intros [Hne Hnb]. unfold mariadb.parse_select, Sprintf, exporter.query_format.
  cbv [run fst head tail verb_s].
  cbn [mariadb.tokenize mariadb.is_space].
  rewrite tokenize_word by exact Hnb. rewrite app_empty_l.
  destruct table as [|c table]; [congruence|].
  destruct hasCursor, useLessThan; vm_compute; reflexivity.
Qed.

(** The statement and the arguments bound to its placeholders, in order:
    tenant, cursor (if any), lower bound, upper bound (unless the segment is
    the last one), limit. *)
Lemma build_query_eq cfg seg cursor :
  exporter.build_query cfg seg cursor
  = (Sprintf exporter.query_format
       [AStr (tableRef cfg);
        AStr (exporter.hashCondition (negb (String.eqb cursor ""))
                                     (negb (String.eqb (segment.EndHex seg) "100")))],
     [VInt (config.TenantID cfg)]
     ++ (if String.eqb cursor "" then [] else [VStr cursor])
     ++ [VStr (segment.StartHex seg)]
     ++ (if String.eqb (segment.EndHex seg) "100" then [] else [VStr (segment.EndHex seg)])
     ++ [VInt (config.BatchSize cfg)]).
Proof.
  unfold exporter.build_query, tableRef. rewrite tableRef_Sprintf.
  destruct (String.eqb (segment.EndHex seg) "100"),
           (String.eqb (config.MariaDBDatabase cfg) ""),
           (String.eqb cursor ""); reflexivity.
Qed.

Lemma filter_ext_bool {A} (f g : A -> bool) (l : list A) :
  (forall x, f x = g x) -> List.filter f l = List.filter g l.
Proof.
  intros H. induction l as [|x l IH]; [reflexivity|].
  cbn [List.filter]. now rewrite H, IH.
Qed.

(** What the database answers to the statement: the rows of the table that
    pass the filter, ascending by key, at most [BatchSize] of them. *)
Lemma execute_statement tbls cfg seg cursor :
  identifier (tableRef cfg) ->
  mariadb.execute tbls (fst (exporter.build_query cfg seg cursor))
                  (snd (exporter.build_query cfg seg cursor))
  = match tbls !! tableRef cfg with
    | None => Err (errorString "Error 1146: Table doesn't exist")
    | Some rows =>
        if config.BatchSize cfg <? 0
        then Err (errorString "Error 1064: You have an error in your SQL syntax")
        else Ok (take (Z.to_nat (config.BatchSize cfg))
                      (mariadb.order_by_hash (List.filter (row_filter cfg seg cursor) rows)))
    end.
Proof.
  intros Hid. rewrite build_query_eq. cbn [fst snd].
  unfold mariadb.execute. rewrite parse_statement by exact Hid.
  cbn [mariadb.sel_table mariadb.sel_where mariadb.sel_limit].
  destruct (tbls !! tableRef cfg) as [rows|]; [|reflexivity].
  unfold row_filter, after_cursor, in_segment.
  destruct (String.eqb cursor ""), (String.eqb (segment.EndHex seg) "100");
    cbn; destruct (config.BatchSize cfg <? 0); try reflexivity;
    do 3 f_equal; apply filter_ext_bool; intros r;
    unfold mariadb.keeps; cbn;
    rewrite ?andb_true_r, ?andb_assoc; reflexivity.
Qed.

Definition hash_le (a b : DbRow) : Prop := str_le (c_hash a) (c_hash b) = true.

Lemma insert_by_hash_sorted r l :
  Sorted hash_le l -> Sorted hash_le (mariadb.insert_by_hash r l).
Proof.
  induction 1 as [|x l Hs IH Hhd]; cbn [mariadb.insert_by_hash].
  - repeat constructor.
  - destruct (str_le (c_hash r) (c_hash x)) eqn:Hle.
    + constructor; [constructor; assumption | constructor; exact Hle].
    + assert (Hxr : hash_le x r).
      { destruct (String.leb_total (c_hash r) (c_hash x)) as [H|H]; [|exact H].
        unfold str_le in Hle. congruence. }
      constructor; [exact IH|].
      destruct Hhd as [|y l Hxy]; cbn [mariadb.insert_by_hash].
      * constructor; exact Hxr.
      * destruct (str_le (c_hash r) (c_hash y)); constructor; assumption.
Qed.

Lemma order_by_hash_sorted l : Sorted hash_le (mariadb.order_by_hash l).
Proof.
  induction l as [|x l IH]; cbn [mariadb.order_by_hash];
    [constructor | apply insert_by_hash_sorted, IH].
Qed.

Lemma insert_by_hash_In r x l : In x (mariadb.insert_by_hash r l) <-> x = r \/ In x l.
Proof.
  induction l as [|y l IH]; cbn [mariadb.insert_by_hash].
  - cbn. intuition.
  - destruct (str_le (c_hash r) (c_hash y)); cbn [In]; [intuition|].
    rewrite IH. intuition.
Qed.

Lemma order_by_hash_In x l : In x (mariadb.order_by_hash l) <-> In x l.
Proof.
  induction l as [|y l IH]; cbn [mariadb.order_by_hash]; [tauto|].
  rewrite insert_by_hash_In, IH. cbn. intuition.
Qed.

Lemma Sorted_take {A} (R : A -> A -> Prop) (l : list A) :
  Sorted R l -> forall n, Sorted R (take n l).
Proof.
  induction 1 as [|x l Hs IH Hhd]; intros [|n]; cbn [take]; try constructor.
  - apply IH.
  - destruct Hhd as [|y l Hxy]; destruct n; cbn [take]; constructor; exact Hxy.
Qed.

Lemma Sorted_map_scan l :
  Sorted hash_le l -> ascending (map exporter.scan l).
Proof.
  unfold ascending.
  induction 1 as [|x l Hs IH Hhd]; cbn [map]; constructor; [exact IH|].
  destruct Hhd as [|y l Hxy]; cbn [map]; constructor. exact Hxy.
Qed.

Lemma In_take {A} (x : A) n l : In x (take n l) -> In x l.
Proof.
  revert n. induction l as [|y l IH]; intros [|n]; cbn; try tauto.
  intros [H|H]; [left; exact H | right; eapply IH; exact H].
Qed.

(** What one page is, as a function of the snapshot. *)
Definition page (cfg : config.Config) (seg : segment.Segment) (cursor : string)
    (table : list DbRow) : list exporter.Row :=
  map exporter.scan
      (take (Z.to_nat (config.BatchSize cfg))
            (mariadb.order_by_hash (List.filter (row_filter cfg seg cursor) table))).

Lemma page_rows cfg seg cursor table r :
  In r (page cfg seg cursor table) ->
  exporter.TenantID r = config.TenantID cfg
  /\ after_cursor cursor (exporter.Hash r) = true
  /\ in_segment seg (exporter.Hash r) = true.
Proof.
  unfold page. intros H. apply in_map_iff in H. destruct H as (d & <- & Hd).
  apply In_take, order_by_hash_In, filter_In in Hd. destruct Hd as [_ Hf].
  unfold row_filter in Hf. apply andb_true_iff in Hf. destruct Hf as [Hf H3].
  apply andb_true_iff in Hf. destruct Hf as [H1 H2]. apply Z.eqb_eq in H1.
  cbn. auto.
Qed.

Lemma page_ascending cfg seg cursor table : ascending (page cfg seg cursor table).
Proof. apply Sorted_map_scan, Sorted_take, order_by_hash_sorted. Qed.

Lemma page_length cfg seg cursor table :
  0 <= config.BatchSize cfg ->
  Z.of_nat (length (page cfg seg cursor table)) <= config.BatchSize cfg.
Proof.
  intros H. unfold page. rewrite length_map, length_take. lia.
Qed.

Lemma QueryContext_cases query args w r w' :
  sql.QueryContext query args w = (r, w') ->
  db_only 1 w w'
  /\ match r with
     | Ok (rows, f) =>
         tx w = TxOpen /\ mariadb.execute (tables w) query args = Ok rows
         /\ f = hd NoFault (db_script w) /\ (forall e, f <> CallFault e)
     | Err _ => True
     end.
Proof.
  unfold sql.QueryContext, db_next_fault, db_only, db_step. intros H.
  destruct (db_script w) as [|f script] eqn:Hs; [|destruct f];
    cbn [tx tables set_db_script log] in H;
    destruct (tx w) eqn:Htx;
    destruct (mariadb.execute (tables w) query args) eqn:Hrun;
    inversion H; subst; cbn; rewrite ?Hs;
    repeat split; eauto 10; try congruence;
    eexists; repeat split; reflexivity.
Qed.

(** [querySegmentInTx], case by case. *)
Lemma querySegmentInTx_cases cfg seg cursor w r w' :
  identifier (tableRef cfg) ->
  exporter.querySegmentInTx cfg seg cursor w = (r, w') ->
  db_only 1 w w'
  /\ match r with
     | Ok rows =>
         exists table,
           tx w = TxOpen /\ tables w !! tableRef cfg = Some table
           /\ 0 <= config.BatchSize cfg
           /\ rows = page cfg seg cursor table
     | Err _ => True
     end.
Proof.
  intros Hid H. unfold exporter.querySegmentInTx in H.
  pose proof (execute_statement (tables w) cfg seg cursor Hid) as Hex.
  destruct (exporter.build_query cfg seg cursor) as [query args]. cbn [fst snd] in Hex.
  destruct (sql.QueryContext query args w) as [r1 w1] eqn:EQ.
  apply QueryContext_cases in EQ. destruct EQ as [Hframe Hr1].
  destruct r1 as [[rows f]|e].
  - destruct Hr1 as (Htx & Hrun & _ & _). rewrite Hex in Hrun.
    destruct (tables w !! tableRef cfg) as [table|]; [|discriminate].
    destruct (Z.ltb_spec (config.BatchSize cfg) 0); [discriminate|].
    inversion Hrun; subst rows; clear Hrun.
    fold (page cfg seg cursor table) in H.
    destruct (take _ _) as [|d ds] eqn:Hp in H; destruct f;
      inversion H; subst; (split; [exact Hframe|]); try exact I;
      exists table; repeat split; auto.
  - inversion H; subst. split; [exact Hframe | exact I].
Qed.

Lemma take_all {A} (n : nat) (l : list A) : (length (take n l) < n)%nat -> take n l = l.
Proof.
  intros H. rewrite length_take in H. apply take_ge. lia.
Qed.

(** On an open transaction, with the table at hand and no fault on the call,
    the query returns. *)
Lemma querySegmentInTx_runs cfg seg cursor w :
  identifier (tableRef cfg) ->
  tx w = TxOpen -> (forall e, hd NoFault (db_script w) <> CallFault e) ->
  (hd NoFault (db_script w) = NoFault
   \/ page cfg seg cursor (default [] (tables w !! tableRef cfg)) = []
      /\ forall e, hd NoFault (db_script w) <> RowsFault e) ->
  is_Some (tables w !! tableRef cfg) -> 0 <= config.BatchSize cfg ->
  exists rows w', exporter.querySegmentInTx cfg seg cursor w = (Ok rows, w').
Proof.
  intros Hid Htx Hcall Hf [table Ht] Hb.
  unfold exporter.querySegmentInTx.
  pose proof (execute_statement (tables w) cfg seg cursor Hid) as Hex.
  destruct (exporter.build_query cfg seg cursor) as [query args]. cbn [fst snd] in Hex.
  rewrite Ht in Hex, Hf. cbn [default] in Hf.
  destruct (Z.ltb_spec (config.BatchSize cfg) 0); [lia|].
  unfold sql.QueryContext, db_next_fault.
  destruct (db_script w) as [|f script]; cbn [hd] in *.
  - cbn [tx tables set_db_script log]. rewrite Htx, Hex. destruct (take _ _); eauto.
  - cbn [tx tables set_db_script log].
    destruct f as [|e|e|e]; try (exfalso; eapply Hcall; reflexivity);
      rewrite Htx, Hex.
    + destruct (take _ _); eauto.
    + destruct Hf as [Hf|[Hf _]]; [discriminate|].
      unfold page in Hf. destruct (take _ _); [eauto | discriminate].
    + destruct Hf as [Hf|[_ Hf]]; [discriminate | exfalso; eapply Hf; reflexivity].
Qed.

(** C3. The rows [querySegmentInTx] returns are those rows of the table that
    belong to the tenant and pass the key filter: key >= startKey and
    key < endKey, or key >= startKey and key <= 'ff' when endKey is the
    sentinel "100", and also key > cursor when the cursor is not empty.
    They come ascending by key, at most [BatchSize] of them; a page shorter
    than [BatchSize] holds every such row.  On an open transaction with no
    fault the call succeeds. *)
Theorem querySegmentInTx_filter cfg seg cursor w :
  identifier (tableRef cfg) ->
  (forall rows w',
     exporter.querySegmentInTx cfg seg cursor w = (Ok rows, w') ->
     exists table,
       tables w !! tableRef cfg = Some table
       /\ rows = map exporter.scan
                    (take (Z.to_nat (config.BatchSize cfg))
                          (mariadb.order_by_hash
                             (List.filter (row_filter cfg seg cursor) table)))
       /\ (forall r, In r rows ->
             exporter.TenantID r = config.TenantID cfg
             /\ str_ge (exporter.Hash r) (segment.StartHex seg) = true
             /\ (if String.eqb (segment.EndHex seg) "100"
                 then str_le (exporter.Hash r) "ff"
                 else str_lt (exporter.Hash r) (segment.EndHex seg)) = true
             /\ (cursor <> "" -> str_gt (exporter.Hash r) cursor = true))
       /\ (Z.of_nat (length rows) < config.BatchSize cfg ->
           forall d, In d table -> row_filter cfg seg cursor d = true ->
                     In (exporter.scan d) rows)
       /\ ascending rows
       /\ Z.of_nat (length rows) <= config.BatchSize cfg)
  /\ (tx w = TxOpen -> hd NoFault (db_script w) = NoFault ->
      is_Some (tables w !! tableRef cfg) -> 0 <= config.BatchSize cfg ->
      exists rows w', exporter.querySegmentInTx cfg seg cursor w = (Ok rows, w')).
Proof.
  intros Hid. split.
  - intros rows w' H. destruct (querySegmentInTx_cases _ _ _ _ _ _ Hid H) as [_ Hrows].
    destruct Hrows as (table & _ & Ht & Hb & ->).
    exists table. split; [exact Ht|]. split; [reflexivity|].
    fold (page cfg seg cursor table).
    split; [|split; [|split]].
    + intros r Hr. destruct (page_rows _ _ _ _ _ Hr) as (H1 & H2 & H3).
      unfold in_segment in H3. apply andb_true_iff in H3. destruct H3 as [H3 H4].
      repeat split; auto.
      intros Hc. unfold after_cursor in H2.
      destruct (String.eqb_spec cursor ""); [contradiction | exact H2].
    + intros Hshort d Hd Hf. unfold page in *. rewrite length_map in Hshort.
      apply in_map. rewrite take_all by lia.
      apply order_by_hash_In, filter_In. auto.
    + apply page_ascending.
    + apply page_length, Hb.
  - intros Htx Hf Ht Hb.
    apply querySegmentInTx_runs; auto.
    intros e. rewrite Hf. discriminate.
Qed.

(** The package's own test ([TestQuerySegmentInTx_FromStart]): segment 00-40
    of the test table has three rows. *)
Lemma querySegmentInTx_filter_witness :
  exists rows w',
    exporter.querySegmentInTx fixtures.cfg fixtures.seg_00_40 ""
                              (snd (sql.BeginTx fixtures.calm)) = (Ok rows, w')
    /\ map exporter.Hash rows = ["00abc123def456"; "1aabc123def456"; "3fabc123def456"]
    /\ ascending rows.
Proof.
  assert (Hid : identifier (tableRef fixtures.cfg)) by (split; [discriminate | reflexivity]).
  destruct (querySegmentInTx_filter fixtures.cfg fixtures.seg_00_40 ""
              (snd (sql.BeginTx fixtures.calm)) Hid) as [Hspec Hruns].
  destruct Hruns as (rows & w' & Hrun);
    [reflexivity | reflexivity | eexists; reflexivity | discriminate |].
  exists rows, w'. split; [exact Hrun|].
  destruct (Hspec rows w' Hrun) as (table & Ht & Hrows & _ & _ & Hasc & _).
  split; [|exact Hasc].
  vm_compute in Ht. inversion Ht; subst table. rewrite Hrows. vm_compute. reflexivity.
Defined.

End query_facts.

(** ** The multipart upload stream *)
Module stream_facts.
Import world trace_facts.

Lemma NewMultipartUploadStream_cases cfg s3Key w r w' :
  s3.NewMultipartUploadStream cfg s3Key w = (r, w') ->
  match r with
  | Ok m =>
      m = s3.mkStream (config.S3Bucket cfg) s3Key (Some (next_upload w)) [] 1
      /\ uploads w' = <[next_upload w := mkUpload s3Key ∅]> (uploads w)
      /\ objects w' = objects w
      /\ store_step w w' [EvCreateMultipartUpload s3Key true]
  | Err _ =>
      uploads w' = uploads w /\ objects w' = objects w
      /\ store_step w w' [EvCreateMultipartUpload s3Key false]
  end.
Proof.
  unfold s3.NewMultipartUploadStream, CreateMultipartUpload, s3_fault, store_step.
  intros H. destruct (s3_script w) as [|[e|] script];
    inversion H; subst; cbn; auto 10.
Qed.

(** One call of the store's [UploadPart]. *)
Lemma api_UploadPart_cases id pn body w r w' :
  UploadPart id pn body w = (r, w') ->
  objects w' = objects w
  /\ match r with
     | Ok etag =>
         etag = etag_of body
         /\ store_step w w' [EvUploadPart id pn body true]
         /\ exists u, uploads w !! id = Some u
              /\ uploads w' = <[id := mkUpload (up_key u) (<[pn := body]> (up_parts u))]> (uploads w)
     | Err _ =>
         uploads w' = uploads w /\ store_step w w' [EvUploadPart id pn body false]
     end.
Proof.
  unfold UploadPart, s3_fault, store_step. intros H.
  destruct (s3_script w) as [|[e|] script];
    cbn [uploads set_s3_script] in H;
    destruct (uploads w !! id) as [u|] eqn:Hu;
    inversion H; subst; cbn; rewrite ?Hu; eauto 10.
Qed.

(** What one attempt of the loop sends, also when the stream has no upload id. *)
Definition attempt_call (m : s3.MultipartUploadStream) (data : string) : M (result string) :=
  fun w =>
    match s3.uploadID m with
    | Some id => UploadPart id (s3.partNumber m) data w
    | None => (Err s3.nil_uploadID, w)
    end.

(** The store after part [pn] of session [id] was received with body [data]. *)
Definition part_received (id : nat) (pn : Z) (data : string) (w w' : World) : Prop :=
  exists u, uploads w !! id = Some u
    /\ uploads w' = <[id := mkUpload (up_key u) (<[pn := data]> (up_parts u))]> (uploads w).

Lemma attempt_call_cases m data w r w' :
  attempt_call m data w = (r, w') ->
  objects w' = objects w
  /\ exists evs, store_step w w' evs /\ (forall id, aborts id evs = [])
     /\ match r with
        | Ok etag =>
            etag = etag_of data
            /\ exists id, s3.uploadID m = Some id
                 /\ part_received id (s3.partNumber m) data w w'
                 /\ forall id', uploaded id' evs
                      = if Nat.eqb id' id then [(s3.partNumber m, data)] else []
        | Err _ => uploads w' = uploads w /\ forall id, uploaded id evs = []
        end.
Proof.
  unfold attempt_call. intros H. destruct (s3.uploadID m) as [id|] eqn:Hid.
  - apply api_UploadPart_cases in H. destruct H as [Hobj H]. split; [exact Hobj|].
    destruct r as [etag|e].
    + destruct H as (-> & Hstep & Hrecv). eexists. split; [exact Hstep|].
      split; [reflexivity|]. split; [reflexivity|]. exists id. repeat split; auto.
      intros id'. cbn. destruct (Nat.eqb id' id); reflexivity.
    + destruct H as (Hup & Hstep). eexists. split; [exact Hstep|]. cbn. auto.
  - inversion H; subst. split; [reflexivity|]. exists []. split; [apply store_step_refl|].
    cbn. auto.
Qed.

Lemma maybe_sleep (b : bool) (d : Z) (w : World) :
  let w2 := if b then snd (Sleep d w) else w in
  uploads w2 = uploads w /\ objects w2 = objects w
  /\ exists evs, store_step w w2 evs /\ quiet evs
       /\ sleeps evs = if b then [d] else [].
Proof.
  destruct b; cbn.
  - repeat split. eexists. split; [unfold store_step; cbn; eauto|]. split; [|reflexivity].
    intros id. auto.
  - repeat split. exists []. split; [apply store_step_refl|]. split; [apply quiet_nil|].
    reflexivity.
Qed.

(** The retry loop: it stops at the first attempt that succeeds, or uses up
    its attempts; failed attempts leave the store as it was. *)
Lemma upload_attempts_cases todo : forall attempt m data po err w res w',
  s3.upload_attempts todo attempt m data po err w = (res, w') ->
  objects w' = objects w
  /\ exists evs, store_step w w' evs /\ (forall id, aborts id evs = [])
     /\ ((todo = O /\ res = (po, err) /\ uploads w' = uploads w
          /\ forall id, uploaded id evs = [])
         \/ (exists e, todo <> O /\ res = (None, Some e) /\ uploads w' = uploads w
               /\ forall id, uploaded id evs = [])
         \/ (res = (Some (etag_of data), None)
             /\ exists id, s3.uploadID m = Some id
                  /\ part_received id (s3.partNumber m) data w w'
                  /\ forall id', uploaded id' evs
                       = if Nat.eqb id' id then [(s3.partNumber m, data)] else [])).
Proof.
  induction todo as [|todo IH]; intros attempt m data po err w res w' H.
  - cbn in H. inversion H; subst. split; [reflexivity|].
    exists []. split; [apply store_step_refl|]. split; [reflexivity|]. left. auto.
  - cbn [s3.upload_attempts] in H. fold (attempt_call m data w) in H.
    destruct (attempt_call m data w) as [r w1] eqn:Hcall.
    apply attempt_call_cases in Hcall.
    destruct Hcall as (Hobj & evs1 & Hs1 & Ha1 & Hr).
    destruct r as [etag|e].
    + destruct Hr as (-> & id & Hid & Hrecv & Hev). inversion H; subst.
      split; [exact Hobj|]. exists evs1. split; [exact Hs1|]. split; [exact Ha1|].
      right. right. split; [reflexivity|]. eauto.
    + destruct Hr as (Hup1 & Hev1).
      destruct (maybe_sleep (attempt <? s3.maxS3Retries) (s3.initialRetryDelay * attempt) w1)
        as (Hup2 & Hobj2 & evs2 & Hs2 & Hq2 & _).
      apply IH in H. destruct H as (Hobj3 & evs3 & Hs3 & Ha3 & Hres).
      split; [congruence|]. exists (evs1 ++ evs2 ++ evs3).
      split; [eapply store_step_trans; [exact Hs1 | eapply store_step_trans; eauto]|].
      split; [intros id; rewrite !aborts_app, Ha1, Ha3, (proj2 (Hq2 id)); reflexivity|].
      assert (Hnone : (forall id, uploaded id evs3 = []) ->
                      forall id, uploaded id (evs1 ++ evs2 ++ evs3) = []).
      { intros H3 id. rewrite !uploaded_app, Hev1, H3, (proj1 (Hq2 id)). reflexivity. }
      destruct Hres as [(-> & -> & Hup3 & Hev3)
                       |[(e3 & Hne & -> & Hup3 & Hev3)
                        |(-> & id & Hid & (u & Hu & Hup3) & Hev3)]].
      * right. left. exists e. repeat split; auto; congruence.
      * right. left. exists e3. repeat split; auto; congruence.
      * right. right. split; [reflexivity|]. exists id. split; [exact Hid|].
        split; [exists u; split; congruence|].
        intros id'. rewrite !uploaded_app, Hev1, Hev3, (proj1 (Hq2 id')). reflexivity.
Qed.

Lemma len_zero (s : string) : (len s =? 0) = true <-> s = EmptyString.
Proof.
  unfold len. destruct s; cbn [String.length]; split; intros H;
    try reflexivity; discriminate.
Qed.

(** [abortMultipartUpload] on a session: one call to the store, whose
    outcome is only logged; when it succeeds the session is gone. *)
Lemma abortMultipartUpload_cases b k id w w' :
  s3.abortMultipartUpload b k (Some id) w = (tt, w') ->
  objects w' = objects w
  /\ exists ok, store_step w w' [EvAbortMultipartUpload id ok]
       /\ uploads w' = (if ok then delete id (uploads w) else uploads w)
       /\ (ok = true <-> hd None (s3_script w) = None /\ is_Some (uploads w !! id)).
Proof.
  unfold s3.abortMultipartUpload, AbortMultipartUpload, s3_fault, store_step. intros H.
  destruct (s3_script w) as [|[e|] script];
    cbn [uploads set_s3_script] in H;
    destruct (uploads w !! id) as [u|] eqn:Hu;
    inversion H; subst; cbn; (split; [reflexivity|]);
    first [ exists true; repeat split; eauto; fail
          | exists false; repeat split; auto; try discriminate;
            intros [H1 H2]; try discriminate; destruct H2; discriminate ].
Qed.

Lemma abort_events id ok :
  (forall id', uploaded id' [EvAbortMultipartUpload id ok] = [])
  /\ aborts id [EvAbortMultipartUpload id ok] = [ok].
Proof. split; [reflexivity|]. cbn. now rewrite Nat.eqb_refl. Qed.

(** The stream a successful [UploadPart] leaves behind. *)
Definition with_part (m : s3.MultipartUploadStream) (data : string) : s3.MultipartUploadStream :=
  s3.mkStream (s3.bucket m) (s3.key m) (s3.uploadID m)
              (s3.parts m ++ [mkCompletedPart (etag_of data) (s3.partNumber m)])
              (s3.wrap32 (s3.partNumber m + 1)).

Lemma UploadPart_cases m data w err m' w' :
  s3.UploadPart m data w = ((err, m'), w') ->
  objects w' = objects w
  /\ exists evs, store_step w w' evs
     /\ ((data = EmptyString /\ err = None /\ m' = m /\ w' = w /\ evs = [])
         \/ (data <> EmptyString /\ err = None /\ m' = with_part m data
             /\ (forall id, aborts id evs = [])
             /\ exists id, s3.uploadID m = Some id
                  /\ part_received id (s3.partNumber m) data w w'
                  /\ forall id', uploaded id' evs
                       = if Nat.eqb id' id then [(s3.partNumber m, data)] else [])
         \/ (data <> EmptyString /\ m' = m
             /\ (exists e, err = Some (Errorf "failed to upload part %d: %w"
                                              [AInt (s3.partNumber m); AErr e]))
             /\ (forall id, uploaded id evs = [])
             /\ (forall id, s3.uploadID m = Some id -> exists ok, aborts id evs = [ok])
             /\ (uploads w' = uploads w
                 \/ exists id, s3.uploadID m = Some id /\ uploads w' = delete id (uploads w)))).
Proof.
  unfold s3.UploadPart. intros H.
  destruct (len data =? 0) eqn:Hlen.
  - apply len_zero in Hlen. inversion H; subst. split; [reflexivity|].
    exists []. split; [apply store_step_refl|]. left. auto.
  - assert (Hdata : data <> EmptyString).
    { intros ->. rewrite (proj2 (len_zero EmptyString) eq_refl) in Hlen. discriminate. }
    destruct (s3.upload_attempts (Z.to_nat s3.maxS3Retries) 1 m data None None w)
      as [[po e] w1] eqn:Hloop.
    apply upload_attempts_cases in Hloop.
    destruct Hloop as (Hobj1 & evs1 & Hs1 & Ha1 & Hres).
    destruct Hres as [(Hzero & _)|[(e1 & _ & Hres & Hup1 & Hev1)|(Hres & id & Hid & Hrecv & Hev1)]].
    + discriminate Hzero.
    + inversion Hres; subst po e. cbn [s3.abortMultipartUpload] in H.
      destruct (s3.uploadID m) as [id|] eqn:Hid.
      * destruct (s3.abortMultipartUpload (s3.bucket m) (s3.key m) (Some id) w1)
          as [[] w2] eqn:Hab.
        apply abortMultipartUpload_cases in Hab.
        destruct Hab as (Hobj2 & ok & Hs2 & Hup2 & _).
        inversion H; subst. split; [congruence|].
        eexists. split; [eapply store_step_trans; eauto|].
        right. right.
        split; [exact Hdata|]. split; [reflexivity|]. split; [eauto|].
        split; [intros id'; rewrite uploaded_app, Hev1; reflexivity|].
        split.
        -- intros id' Hid'. inversion Hid'; subst id'. exists ok.
           rewrite aborts_app, Ha1. apply abort_events.
        -- destruct ok; [right; exists id; split; [reflexivity | congruence]
                        | left; congruence].
      * cbn in H. inversion H; subst. split; [exact Hobj1|].
        exists evs1. split; [exact Hs1|]. right. right.
        split; [exact Hdata|]. split; [reflexivity|]. split; [eauto|].
        split; [exact Hev1|]. split; [discriminate | left; exact Hup1].
    + inversion Hres; subst po e. inversion H; subst.
      split; [exact Hobj1|]. exists evs1. split; [exact Hs1|].
      right. left. repeat split; eauto.
Qed.

(** [Complete], case by case. *)
Lemma Complete_cases m w err w' :
  s3.Complete m w = (err, w') ->
  exists evs, store_step w w' evs /\ (forall id, uploaded id evs = [])
    /\ ((s3.parts m = [] /\ err = Some (errorString "no parts uploaded")
         /\ objects w' = objects w
         /\ forall id, s3.uploadID m = Some id -> exists ok, evs = [EvAbortMultipartUpload id ok])
        \/ (s3.parts m <> [] /\ err = None
            /\ exists id u body,
                 s3.uploadID m = Some id /\ uploads w !! id = Some u
                 /\ assemble (up_parts u) None (s3.parts m) = Some body
                 /\ objects w' = <[up_key u := body]> (objects w)
                 /\ uploads w' = delete id (uploads w)
                 /\ evs = [EvCompleteMultipartUpload id (s3.parts m) true])
        \/ (s3.parts m <> []
            /\ (exists e, err = Some (Errorf "failed to complete multipart upload: %w" [AErr e]))
            /\ objects w' = objects w
            /\ forall id, s3.uploadID m = Some id ->
                 exists ok, evs = [EvCompleteMultipartUpload id (s3.parts m) false;
                                   EvAbortMultipartUpload id ok])).
Proof.
  unfold s3.Complete. intros H.
  destruct (s3.parts m) as [|p ps] eqn:Hparts.
  - change (Z.of_nat (length (@nil CompletedPart)) =? 0) with true in H.
    cbv beta iota in H.
    destruct (s3.uploadID m) as [id|] eqn:Hid.
    + destruct (s3.abortMultipartUpload (s3.bucket m) (s3.key m) (Some id) w)
        as [[] w1] eqn:Hab.
      apply abortMultipartUpload_cases in Hab. destruct Hab as (Hobj & ok & Hs & _).
      inversion H; subst. eexists. split; [exact Hs|]. split; [apply abort_events|].
      left. repeat split; auto. intros id' Hid'. inversion Hid'; subst. exists ok.
      reflexivity.
    + cbn in H. inversion H; subst. exists []. split; [apply store_step_refl|].
      split; [reflexivity|]. left. repeat split; auto. discriminate.
  - replace (Z.of_nat (length (p :: ps)) =? 0) with false in H
      by (symmetry; apply Z.eqb_neq; cbn [length]; lia).
    destruct (s3.uploadID m) as [id|] eqn:Hid.
    + unfold CompleteMultipartUpload, s3_fault in H.
      destruct (s3_script w) as [|[e|] script] eqn:Hscript;
        cbn [uploads objects next_upload set_s3_script] in H;
        destruct (uploads w !! id) as [u|] eqn:Hu;
        try destruct (assemble (up_parts u) None (p :: ps)) as [body|] eqn:Hasm.
      all: try match type of H with
        | context [s3.abortMultipartUpload ?b ?k ?i ?w0] =>
            destruct (s3.abortMultipartUpload b k i w0) as [[] w2] eqn:Hab;
            apply abortMultipartUpload_cases in Hab;
            destruct Hab as (Hobj & ok & (Hf1 & Hf2 & Hf3 & Hf4) & _);
            inversion H; subst;
            exists [EvCompleteMultipartUpload id (p :: ps) false; EvAbortMultipartUpload id ok];
            (split; [unfold store_step; cbn in *; rewrite Hf4, <- app_assoc; auto|]);
            (split; [reflexivity|]);
            right; right; (split; [discriminate|]); (split; [eauto|]);
            (split; [exact Hobj|]);
            intros id' Hid'; inversion Hid'; subst; eauto
        end.
      all: inversion H; subst;
        exists [EvCompleteMultipartUpload id (p :: ps) true];
        (split; [unfold store_step; cbn; auto|]); (split; [reflexivity|]);
        right; left; (split; [discriminate|]); (split; [reflexivity|]);
        exists id, u, body; cbn; auto 10.
    + cbn in H. inversion H; subst. exists []. split; [apply store_step_refl|].
      split; [reflexivity|]. right. right. split; [discriminate|].
      split; [exists s3.nil_uploadID; reflexivity|].
      split; [reflexivity|]. discriminate.
Qed.

(** *** A session: the stream, the store and the trace, kept in step *)

(** Parts numbered from [start] on, as [m.parts] lists them and as pairs. *)
Fixpoint numbered (start : Z) (bodies : list string) : list CompletedPart :=
  match bodies with
  | [] => []
  | b :: rest => mkCompletedPart (etag_of b) start :: numbered (start + 1) rest
  end.

Fixpoint numbered_bodies (start : Z) (bodies : list string) : list (Z * string) :=
  match bodies with
  | [] => []
  | b :: rest => (start, b) :: numbered_bodies (start + 1) rest
  end.

(** The concatenation of the bodies, first to last. *)
Fixpoint joined (bodies : list string) : string :=
  match bodies with
  | [] => EmptyString
  | b :: rest => b +:+ joined rest
  end.

Lemma numbered_snoc bodies : forall start b,
  numbered start (bodies ++ [b])
  = numbered start bodies ++ [mkCompletedPart (etag_of b) (start + Z.of_nat (length bodies))].
Proof.
  induction bodies as [|x bodies IH]; intros start b; cbn [numbered app length].
  - now rewrite Z.add_0_r.
  - rewrite IH.
    replace (start + Z.of_nat (S (length bodies))) with (start + 1 + Z.of_nat (length bodies))
      by lia.
    reflexivity.
Qed.

Lemma numbered_bodies_snoc bodies : forall start b,
  numbered_bodies start (bodies ++ [b])
  = numbered_bodies start bodies ++ [(start + Z.of_nat (length bodies), b)].
Proof.
  induction bodies as [|x bodies IH]; intros start b; cbn [numbered_bodies app length].
  - now rewrite Z.add_0_r.
  - rewrite IH.
    replace (start + Z.of_nat (S (length bodies))) with (start + 1 + Z.of_nat (length bodies))
      by lia.
    reflexivity.
Qed.

Lemma numbered_PartNumber bodies : forall start,
  map PartNumber (numbered start bodies) = map fst (numbered_bodies start bodies).
Proof.
  induction bodies as [|x bodies IH]; intros start; cbn; [reflexivity | now rewrite IH].
Qed.

(** The numbers of parts numbered from [start] ascend by one. *)
Lemma numbered_bodies_fst bodies : forall start (i : nat) p,
  numbered_bodies start bodies !! i = Some p ->
  fst p = start + Z.of_nat i /\ bodies !! i = Some (snd p).
Proof.
  induction bodies as [|x bodies IH]; intros start i p H; [discriminate|].
  destruct i as [|i]; cbn in H.
  - inversion H; subst. cbn. split; [lia | reflexivity].
  - apply IH in H. destruct H as [H1 H2]. split; [lia | exact H2].
Qed.

(** The store assembles the parts of a session that holds them all. *)
Lemma assemble_numbered (stored : gmap Z string) bodies : forall start above,
  (forall (i : nat) b, bodies !! i = Some b -> stored !! (start + Z.of_nat i) = Some b) ->
  match above with Some n => n < start | None => True end ->
  assemble stored above (numbered start bodies) = Some (joined bodies).
Proof.
  induction bodies as [|x bodies IH]; intros start above Hst Hab; [reflexivity|].
  cbn [numbered assemble PartNumber ETag joined].
  pose proof (Hst 0%nat x eq_refl) as H0. rewrite Z.add_0_r in H0. rewrite H0.
  unfold etag_of at 1. rewrite String.eqb_refl.
  replace (match above with Some n => n <? start | None => true end) with true
    by (destruct above; [symmetry; apply Z.ltb_lt; exact Hab | reflexivity]).
  cbn [andb]. rewrite (IH (start + 1) (Some start)); [reflexivity| |lia].
  intros i b Hb. replace (start + 1 + Z.of_nat i) with (start + Z.of_nat (S i)) by lia.
  apply Hst. exact Hb.
Qed.

(** The session [id] under key [key] has received exactly [bodies], in this
    order, as parts 1, 2, ...; [evs] are the events since it was created. *)
Definition session (id : nat) (key : string) (bodies : list string)
    (m : s3.MultipartUploadStream) (w : World) (evs : list event) : Prop :=
  s3.uploadID m = Some id
  /\ s3.parts m = numbered 1 bodies
  /\ s3.partNumber m = 1 + Z.of_nat (length bodies)
  /\ uploaded id evs = numbered_bodies 1 bodies
  /\ Forall (fun b => b <> EmptyString) bodies
  /\ forall u, uploads w !! id = Some u ->
       up_key u = key
       /\ forall (i : nat) b, bodies !! i = Some b -> up_parts u !! (1 + Z.of_nat i) = Some b.

Lemma session_created cfg s3Key w m w' :
  s3.NewMultipartUploadStream cfg s3Key w = (Ok m, w') ->
  session (next_upload w) s3Key [] m w' []
  /\ objects w' = objects w
  /\ store_step w w' [EvCreateMultipartUpload s3Key true]
  /\ uploads w' !! next_upload w = Some (mkUpload s3Key ∅).
Proof.
  intros H. apply NewMultipartUploadStream_cases in H.
  destruct H as (-> & Hup & Hobj & Hstep).
  split; [|split; [exact Hobj | split; [exact Hstep|]]].
  - unfold session. cbn. repeat split; auto.
    + rewrite Hup, lookup_insert_eq in H. inversion H; subst. reflexivity.
    + discriminate.
  - rewrite Hup. apply lookup_insert_eq.
Qed.

(** Calls to the database do not disturb a session. *)
Lemma session_db_step id key bodies m w evs w' evs' :
  session id key bodies m w evs -> db_step w w' evs' ->
  session id key bodies m w' (evs ++ evs').
Proof.
  intros (H1 & H2 & H3 & H4 & H5 & H6) (Hup & _ & _ & _ & _ & _ & Hq).
  unfold session. rewrite uploaded_app, (proj1 (Hq id)), app_nil_r, Hup. auto 10.
Qed.

(** One [UploadPart] on a session. *)
Lemma session_UploadPart id key bodies m w evs data err m' w' :
  session id key bodies m w evs ->
  Z.of_nat (length bodies) < 2 ^ 31 - 2 ->
  s3.UploadPart m data w = ((err, m'), w') ->
  objects w' = objects w
  /\ exists evs', store_step w w' evs'
     /\ ((data = EmptyString /\ err = None /\ m' = m /\ w' = w /\ evs' = [])
         \/ (data <> EmptyString /\ err = None
             /\ session id key (bodies ++ [data]) m' w' (evs ++ evs')
             /\ aborts id evs' = []
             /\ is_Some (uploads w !! id) /\ is_Some (uploads w' !! id))
         \/ (data <> EmptyString /\ m' = m
             /\ (exists e, err = Some (Errorf "failed to upload part %d: %w"
                                              [AInt (s3.partNumber m); AErr e]))
             /\ session id key bodies m' w' (evs ++ evs')
             /\ exists ok, aborts id evs' = [ok])).
Proof.
  intros (Hid & Hparts & Hpn & Hev & Hne & Hst) Hlen H.
  apply UploadPart_cases in H. destruct H as (Hobj & evs' & Hstep & Hcases).
  split; [exact Hobj|]. exists evs'. split; [exact Hstep|].
  destruct Hcases as [Hempty|[(Hd & -> & -> & Hab & id' & Hid' & (u & Hu & Hup) & Hev')
                             |(Hd & -> & He & Hev' & Hab & Hup)]].
  - left. exact Hempty.
  - right. left. rewrite Hid in Hid'. inversion Hid'; subst id'.
    split; [exact Hd|]. split; [reflexivity|].
    split; [|split; [apply Hab | split; [eauto | rewrite Hup, lookup_insert_eq; eauto]]].
    unfold session, with_part. cbn [s3.uploadID s3.parts s3.partNumber].
    split; [exact Hid|].
    split; [rewrite Hparts, numbered_snoc, Hpn; reflexivity|].
    split.
    { rewrite length_app. cbn [length]. unfold s3.wrap32.
      rewrite Hpn. rewrite Z.mod_small by lia. lia. }
    split.
    { rewrite uploaded_app, Hev, Hev', Nat.eqb_refl, numbered_bodies_snoc, Hpn.
      reflexivity. }
    split; [apply Forall_app; split; [exact Hne | constructor; [exact Hd | constructor]]|].
    intros u' Hu'. rewrite Hup, lookup_insert_eq in Hu'. inversion Hu'; subst u'.
    cbn [up_key up_parts]. destruct (Hst u Hu) as [Hkey Hold].
    split; [exact Hkey|]. intros i b Hb.
    destruct (Nat.lt_ge_cases i (length bodies)) as [Hi|Hi].
    + rewrite lookup_app_l in Hb by exact Hi.
      rewrite lookup_insert_ne by lia. apply Hold, Hb.
    + rewrite lookup_app_r in Hb by exact Hi.
      destruct (i - length bodies)%nat as [|k] eqn:Hk; [|destruct k; discriminate].
      inversion Hb; subst b. replace (1 + Z.of_nat i) with (s3.partNumber m) by lia.
      apply lookup_insert_eq.
  - right. right. split; [exact Hd|]. split; [reflexivity|]. split; [exact He|].
    split; [|apply Hab, Hid].
    unfold session. rewrite uploaded_app, Hev', app_nil_r.
    repeat split; auto;
      destruct Hup as [Hup|(id' & Hid' & Hup)]; rewrite Hup in H;
      try (apply Hst in H; destruct H; auto; fail);
      rewrite Hid in Hid'; inversion Hid'; subst id';
      rewrite lookup_delete_eq in H; discriminate.
Qed.

(** A [Complete] that succeeds leaves, under the session's key, the bodies
    received, joined in the order of their part numbers. *)
Lemma session_Complete id key bodies m w evs w' :
  session id key bodies m w evs ->
  s3.Complete m w = (None, w') ->
  bodies <> []
  /\ objects w' = <[key := joined bodies]> (objects w)
  /\ uploads w' = delete id (uploads w)
  /\ store_step w w' [EvCompleteMultipartUpload id (numbered 1 bodies) true].
Proof.
  intros (Hid & Hparts & Hpn & Hev & _ & Hst) H.
  apply Complete_cases in H. destruct H as (evs' & Hstep & _ & Hcases).
  destruct Hcases as [(_ & He & _)|[(Hne & _ & id' & u & body & Hid' & Hu & Hasm & Hobj & Hup & ->)
                                   |(_ & (e & He) & _)]]; try discriminate.
  rewrite Hid in Hid'. inversion Hid'; subst id'.
  destruct (Hst u Hu) as [Hkey Hstored].
  rewrite Hparts in *.
  rewrite (assemble_numbered (up_parts u) bodies 1 None Hstored I) in Hasm.
  inversion Hasm; subst body.
  split; [intros ->; apply Hne; reflexivity|].
  rewrite <- Hkey. auto.
Qed.

End stream_facts.

(** ** The upload sink over its lifetime *)
Module sink_facts.
Import world trace_facts stream_facts.

(** A caller's use of a stream: the chunks it hands to [UploadPart], one call
    after the other, whatever each call returns. *)
Fixpoint send_all (chunks : list string) (m : s3.MultipartUploadStream)
  : M s3.MultipartUploadStream :=
  match chunks with
  | [] => ret m
  | data :: rest => fun w =>
      let '((_, m), w) := s3.UploadPart m data w in send_all rest m w
  end.

Lemma session_send_all chunks : forall id key bodies m w evs m' w',
  session id key bodies m w evs ->
  Z.of_nat (length bodies) + Z.of_nat (length chunks) < 2 ^ 31 - 2 ->
  send_all chunks m w = (m', w') ->
  objects w' = objects w
  /\ exists bodies' evs',
       store_step w w' evs' /\ session id key (bodies ++ bodies') m' w' (evs ++ evs').
Proof.
  induction chunks as [|data chunks IH]; intros id key bodies m w evs m' w' Hs Hlen H.
  - inversion H; subst. split; [reflexivity|]. exists [], [].
    rewrite !app_nil_r. split; [apply store_step_refl | exact Hs].
  - cbn [send_all] in H. cbn [length] in Hlen.
    destruct (s3.UploadPart m data w) as [[err m1] w1] eqn:Hup.
    eapply session_UploadPart in Hup; [|exact Hs|lia].
    destruct Hup as (Hobj & evs1 & Hstep & Hcases).
    assert (Hnext : exists b1, session id key (bodies ++ b1) m1 w1 (evs ++ evs1)
                               /\ (length b1 <= 1)%nat).
    { destruct Hcases as [(_ & _ & -> & -> & ->)|[(_ & _ & Hs1 & _)|(_ & _ & _ & Hs1 & _)]].
      - exists []. rewrite !app_nil_r. auto.
      - exists [data]. auto.
      - exists []. rewrite app_nil_r. auto. }
    destruct Hnext as (b1 & Hs1 & Hb1).
    eapply IH in H; [|exact Hs1|rewrite length_app; lia].
    destruct H as (Hobj2 & b2 & evs2 & Hstep2 & Hs2).
    split; [congruence|]. exists (b1 ++ b2), (evs1 ++ evs2).
    split; [eapply store_step_trans; eauto|].
    rewrite !app_assoc. exact Hs2.
Qed.

Lemma numbered_bodies_snd bodies : forall start,
  map snd (numbered_bodies start bodies) = bodies.
Proof. induction bodies as [|b bodies IH]; intros; cbn; [|rewrite IH]; reflexivity. Qed.

Lemma numbered_ETag bodies : forall start,
  map ETag (numbered start bodies)
  = map (fun p => etag_of (snd p)) (numbered_bodies start bodies).
Proof. induction bodies as [|b bodies IH]; intros; cbn; [|rewrite IH]; reflexivity. Qed.

(** Parts numbered from [start] carry the numbers [start], [start + 1], ... *)
Lemma numbered_consecutive bodies : forall start,
  map PartNumber (numbered start bodies)
  = map (fun i : nat => start + Z.of_nat i) (seq 0 (length bodies)).
Proof.
  induction bodies as [|b bodies IH]; intros start; cbn [numbered map length seq];
    [reflexivity|].
  rewrite IH, <- seq_shift, map_map. f_equal; [cbn; lia|].
  apply map_ext. intros i. lia.
Qed.

Lemma numbered_length bodies : forall start, length (numbered start bodies) = length bodies.
Proof. induction bodies as [|b bodies IH]; intros; cbn; [|rewrite IH]; reflexivity. Qed.

(** C8. Over the lifetime of a session, [Complete] returns the error
    "no parts uploaded" exactly when no non-empty part was received; then it
    calls abort instead of complete and creates no object.  Otherwise it
    sends the accumulated part list, whose numbers are 1, 2, ... in ascending
    order, and on success the object is the parts' bodies joined in that
    order. *)
Theorem Complete_no_parts_iff cfg s3Key chunks w0 m0 w1 m w2 evs err w3 :
  s3.NewMultipartUploadStream cfg s3Key w0 = (Ok m0, w1) ->
  send_all chunks m0 w1 = (m, w2) ->
  trace w2 = trace w1 ++ evs ->
  Z.of_nat (length chunks) < 2 ^ 31 - 2 ->
  s3.Complete m w2 = (err, w3) ->
  let id := next_upload w0 in
  let received := uploaded id evs in
  Forall (fun p => snd p <> EmptyString) received
  /\ (err = Some (errorString "no parts uploaded") <-> received = [])
  /\ (received = [] ->
      objects w3 = objects w2
      /\ exists ok, trace w3 = trace w2 ++ [EvAbortMultipartUpload id ok])
  /\ (received <> [] ->
      exists parts ok rest,
        trace w3 = trace w2 ++ EvCompleteMultipartUpload id parts ok :: rest
        /\ map PartNumber parts = map fst received
        /\ map ETag parts = map (fun p => etag_of (snd p)) received
        /\ map PartNumber parts
           = map (fun i : nat => 1 + Z.of_nat i) (seq 0 (length parts))
        /\ (err = None <-> ok = true)
        /\ (ok = true ->
            objects w3 = <[s3Key := joined (map snd received)]> (objects w2)
            /\ uploads w3 !! id = None)).
Proof.
  intros Hnew Hsend Htrace Hlen Hc id received.
  apply session_created in Hnew. destruct Hnew as (Hs0 & _ & _ & _).
  eapply session_send_all in Hsend; [|exact Hs0|cbn [length]; lia].
  destruct Hsend as (_ & bodies & evs' & (_ & _ & _ & Htrace') & Hs).
  cbn [app] in Hs. rewrite Htrace in Htrace'. apply app_inv_head in Htrace'. subst evs'.
  pose proof Hs as (Hid & Hparts & Hpn & Hev & Hne & Hst).
  fold id in Hid, Hev. fold received in Hev.
  assert (Hrb : received = [] <-> bodies = []).
  { rewrite Hev. destruct bodies; cbn; split; congruence. }
  split.
  { rewrite Hev. clear -Hne. generalize 1. induction Hne; intros; cbn; constructor; auto. }
  pose proof Hc as Hc'. apply Complete_cases in Hc'.
  destruct Hc' as (evs3 & (_ & _ & _ & Ht3) & _ & Hcases).
  destruct Hcases as [(Hnil & -> & Hobj & Hab)
                     |[(Hnn & -> & id' & u & body & Hid' & Hu & Hasm & Hobj & Hup & ->)
                      |(Hnn & (e & ->) & Hobj & Hab)]].
  - assert (Hb : bodies = []) by (rewrite Hparts in Hnil; destruct bodies; [reflexivity | discriminate]).
    split; [tauto|]. split.
    + intros _. split; [exact Hobj|]. destruct (Hab id Hid) as [ok ->]. eauto.
    + intros Hr. tauto.
  - assert (Hb : bodies <> []) by (intros ->; rewrite Hparts in Hnn; contradiction).
    split; [split; [discriminate | tauto]|]. split; [tauto|]. intros _.
    destruct (session_Complete _ _ _ _ _ _ _ Hs Hc) as (_ & Hobj' & Hup' & _).
    exists (s3.parts m), true, []. rewrite Hid in Hid'. inversion Hid'; subst id'.
    split; [exact Ht3|]. rewrite Hparts, Hev.
    split; [apply numbered_PartNumber|]. split; [apply numbered_ETag|].
    split; [rewrite numbered_length; apply numbered_consecutive|].
    split; [tauto|]. intros _. rewrite numbered_bodies_snd.
    split; [exact Hobj'|]. rewrite Hup'. apply lookup_delete_eq.
  - assert (Hb : bodies <> []) by (intros ->; rewrite Hparts in Hnn; contradiction).
    split; [split; [discriminate | tauto]|]. split; [tauto|]. intros _.
    destruct (Hab id Hid) as [ok ->].
    exists (s3.parts m), false, [EvAbortMultipartUpload id ok].
    split; [exact Ht3|]. rewrite Hparts, Hev.
    split; [apply numbered_PartNumber|]. split; [apply numbered_ETag|].
    split; [rewrite numbered_length; apply numbered_consecutive|].
    split; [split; discriminate|]. discriminate.
Qed.

(** A session that is only ever handed empty chunks ends with
    "no parts uploaded". *)
Lemma Complete_no_parts_iff_witness :
  let created := s3.NewMultipartUploadStream fixtures.cfg "k" fixtures.calm in
  let m0 := s3.mkStream "test-bucket" "k" (Some 0%nat) [] 1 in
  let sent := send_all [EmptyString; EmptyString] m0 (snd created) in
  fst (s3.Complete (fst sent) (snd sent)) = Some (errorString "no parts uploaded").
Proof.
  intros created m0 sent.
  assert (H1 : s3.NewMultipartUploadStream fixtures.cfg "k" fixtures.calm
               = (Ok m0, snd created)) by reflexivity.
  assert (H2 : send_all [EmptyString; EmptyString] m0 (snd created) = (fst sent, snd sent))
    by reflexivity.
  assert (H3 : trace (snd sent) = trace (snd created) ++ []) by reflexivity.
  assert (H4 : Z.of_nat (length [EmptyString; EmptyString]) < 2 ^ 31 - 2) by (cbn; lia).
  assert (H5 : s3.Complete (fst sent) (snd sent)
               = (fst (s3.Complete (fst sent) (snd sent)),
                  snd (s3.Complete (fst sent) (snd sent)))) by reflexivity.
  destruct (Complete_no_parts_iff _ _ _ _ _ _ _ _ _ _ _ H1 H2 H3 H4 H5) as (_ & Hiff & _).
  apply Hiff. reflexivity.
Defined.

End sink_facts.

(** ** The segment exporter *)
Module export_facts.
Import world trace_facts query_facts stream_facts.

(** *** The database calls around the loop *)

Lemma db_step_refl w : db_step w w [].
Proof. unfold db_step. rewrite app_nil_r. repeat split; auto. Qed.

Lemma BeginTx_cases w r w' :
  sql.BeginTx w = (r, w') ->
  (exists evs, db_step w w' evs)
  /\ match r with Ok _ => tx w' = TxOpen | Err _ => tx w' = tx w end.
Proof.
  unfold sql.BeginTx, db_next_fault, db_step. intros H.
  destruct (db_script w) as [|[|e|e|e] script]; inversion H; subst; cbn;
    (split; [eexists; repeat split; reflexivity | reflexivity]).
Qed.

Lemma Commit_cases w err w' :
  sql.Commit w = (err, w') ->
  (exists evs, db_step w w' evs)
  /\ match err with
     | None => tx w = TxOpen /\ tx w' = TxCommitted
     | Some _ => tx w' = tx w
     end.
Proof.
  unfold sql.Commit, db_next_fault, db_step. intros H.
  destruct (db_script w) as [|[|e|e|e] script];
    cbn [tx set_db_script sql.fault_error] in H;
    destruct (tx w) eqn:Htx; inversion H; subst; cbn;
    (split; [eexists; repeat split; reflexivity | auto]).
Qed.

Lemma Rollback_cases w u w' :
  sql.Rollback w = (u, w') ->
  db_step w w' [EvRollback]
  /\ tx w' = match tx w with TxOpen => TxRolledBack | s => s end.
Proof.
  unfold sql.Rollback, db_step. intros H.
  destruct (tx w) eqn:Htx; inversion H; subst; cbn; rewrite ?Htx; repeat split; auto.
Qed.

(** *** Serialisation *)

Lemma write_rows_app a b :
  exporter.write_rows (a ++ b) = exporter.write_rows a +:+ exporter.write_rows b.
Proof.
  induction a as [|r a IH]; [reflexivity|].
  cbn [app exporter.write_rows]. now rewrite IH, app_assoc_string.
Qed.

Lemma csv_Write_not_empty record : exporter.csv_Write record <> EmptyString.
Proof.
  unfold exporter.csv_Write. destruct (exporter.csv_fields record); discriminate.
Qed.

Lemma append_not_empty_l a b : a <> EmptyString -> a +:+ b <> EmptyString.
Proof. destruct a; [contradiction | discriminate]. Qed.

Lemma append_not_empty_r a b : b <> EmptyString -> a +:+ b <> EmptyString.
Proof. destruct a; [intros H; exact H | discriminate]. Qed.

Lemma rowsToCSVBytes_not_empty rows includeHeader :
  rows <> [] ->
  exists data, exporter.rowsToCSVBytes rows includeHeader = Ok data /\ data <> EmptyString.
Proof.
  intros Hrows. unfold exporter.rowsToCSVBytes. eexists. split; [reflexivity|].
  destruct rows as [|r rows]; [contradiction|].
  apply append_not_empty_r. cbn [exporter.write_rows].
  apply append_not_empty_l, csv_Write_not_empty.
Qed.

(** *** Sequential cursor pagination, as a function of the snapshot *)

(** The table the statement reads; an unknown table has no rows to give. *)
Definition snapshot (cfg : config.Config) (w : World) : list DbRow :=
  default [] (tables w !! tableRef cfg).

(** The pages read one after the other: each starts after the last key of
    the page before; an empty page, a short page or the round limit ends the
    reading. *)
Fixpoint paginate (rounds : nat) (cfg : config.Config) (seg : segment.Segment)
    (cursor : string) (table : list DbRow) : list (list exporter.Row) :=
  match rounds with
  | O => []
  | S rounds' =>
      let rows := page cfg seg cursor table in
      match last rows with
      | None => []
      | Some r =>
          rows :: (if Z.of_nat (length rows) <? config.BatchSize cfg then []
                   else paginate rounds' cfg seg (exporter.Hash r) table)
      end
  end.

(** One part per page; only the first part of an object opens with the header. *)
Fixpoint csv_parts (headerWritten : bool) (pages : list (list exporter.Row)) : list string :=
  match pages with
  | [] => []
  | rows :: rest =>
      ((if headerWritten then EmptyString else exporter.csv_Write exporter.header)
       +:+ exporter.write_rows rows) :: csv_parts true rest
  end.

Lemma paginate_not_empty rounds : forall cfg seg cursor table,
  Forall (fun rows => rows <> []) (paginate rounds cfg seg cursor table).
Proof.
  induction rounds as [|rounds IH]; intros; cbn [paginate]; [constructor|].
  destruct (last (page cfg seg cursor table)) as [r|] eqn:Hlast; [|constructor].
  constructor.
  - intros Hnil. rewrite Hnil in Hlast. discriminate.
  - destruct (_ <? _); [constructor | apply IH].
Qed.

Lemma joined_csv_parts pages :
  joined (csv_parts true pages) = exporter.write_rows (concat pages).
Proof.
  induction pages as [|rows pages IH]; [reflexivity|].
  cbn [csv_parts joined concat]. rewrite IH, write_rows_app. reflexivity.
Qed.

(** The parts of an object, joined, are the header and then every row. *)
Lemma joined_csv_parts_header pages :
  pages <> [] ->
  joined (csv_parts false pages)
  = exporter.csv_Write exporter.header +:+ exporter.write_rows (concat pages).
Proof.
  destruct pages as [|rows pages]; [contradiction|]. intros _.
  cbn [csv_parts joined concat]. rewrite joined_csv_parts, write_rows_app.
  now rewrite app_assoc_string.
Qed.

Lemma snapshot_db_step cfg w w' evs : db_step w w' evs -> snapshot cfg w' = snapshot cfg w.
Proof. intros (_ & _ & _ & _ & Ht & _). unfold snapshot. now rewrite Ht. Qed.

Lemma snapshot_store_step cfg w w' evs : store_step w w' evs -> snapshot cfg w' = snapshot cfg w.
Proof. intros (Ht & _). unfold snapshot. now rewrite Ht. Qed.

(** The loop, when it is left by [break] or by its condition: the session
    received one part per page read, and the count grew by the rows read. *)
Lemma export_batches_ended todo :
  forall cfg seg batchNum lastHash totalRows headerWritten stream w
         batchNum' totalRows' stream' w' id key bodies evs,
  identifier (tableRef cfg) ->
  session id key bodies stream w evs ->
  0 <= batchNum -> (batchNum = 0 -> lastHash = EmptyString) ->
  Z.of_nat (length bodies) + Z.of_nat todo < 2 ^ 31 - 2 ->
  exporter.export_batches todo cfg seg batchNum lastHash totalRows headerWritten stream w
  = ((exporter.LoopEnded batchNum' totalRows', stream'), w') ->
  let pages := paginate todo cfg seg lastHash (snapshot cfg w) in
  exists evs',
    trace w' = trace w ++ evs'
    /\ objects w' = objects w /\ tables w' = tables w /\ tx w' = tx w
    /\ session id key (bodies ++ csv_parts headerWritten pages) stream' w' (evs ++ evs')
    /\ aborts id evs' = []
    /\ totalRows' = totalRows + Z.of_nat (length (concat pages))
    /\ (is_Some (uploads w !! id) -> is_Some (uploads w' !! id)).
Proof.
  induction todo as [|todo IH];
    intros cfg seg batchNum lastHash totalRows headerWritten stream w
           batchNum' totalRows' stream' w' id key bodies evs Hid Hs Hb0 Hb Hlen H pages.
  - cbn in H. inversion H; subst. exists []. subst pages. cbn [paginate csv_parts concat length].
    rewrite !app_nil_r, Z.add_0_r. auto 10.
  - cbn [exporter.export_batches] in H.
    assert (Hq : (if batchNum =? 0 then exporter.querySegmentInTx cfg seg "" w
                  else exporter.querySegmentInTx cfg seg lastHash w)
                 = exporter.querySegmentInTx cfg seg lastHash w).
    { destruct (Z.eqb_spec batchNum 0) as [H0|_]; [rewrite (Hb H0)|]; reflexivity. }
    rewrite Hq in H. clear Hq.
    destruct (exporter.querySegmentInTx cfg seg lastHash w) as [q w1] eqn:Hquery.
    apply (querySegmentInTx_cases _ _ _ _ _ _ Hid) in Hquery.
    destruct Hquery as ((Htx1 & _ & evs1 & Hstep1) & Hrows).
    destruct q as [rows|e]; [|discriminate H].
    destruct Hrows as (table & _ & Htable & _ & Hpage).
    assert (Hsnap : snapshot cfg w = table) by (unfold snapshot; now rewrite Htable).
    assert (Hs1 : session id key bodies stream w1 (evs ++ evs1))
      by (eapply session_db_step; eauto).
    pose proof Hstep1 as (Hup1 & Hobj1 & _ & _ & Htab1 & Htr1 & Hq1).
    subst pages. cbn [paginate]. rewrite Hsnap, <- Hpage.
    destruct rows as [|r0 rows0] eqn:Hrw.
    + cbn [length Z.of_nat Z.eqb] in H. inversion H; subst.
      exists evs1. cbn [last csv_parts concat length]. rewrite app_nil_r, Z.add_0_r.
      split; [exact Htr1|]. split; [exact Hobj1|]. split; [exact Htab1|].
      split; [exact Htx1|]. split; [exact Hs1|]. split; [apply (Hq1 id)|].
      split; [reflexivity|]. now rewrite Hup1.
    + rewrite <- Hrw in *.
      assert (Hne : rows <> []) by (rewrite Hrw; discriminate).
      replace (Z.of_nat (length rows) =? 0) with false in H
        by (symmetry; apply Z.eqb_neq; rewrite Hrw; cbn [length]; lia).
      destruct (last rows) as [r|] eqn:Hlast;
        [|rewrite Hrw in Hlast; rewrite last_cons in Hlast;
          destruct (last rows0); discriminate].
      destruct (rowsToCSVBytes_not_empty rows (negb headerWritten) Hne) as (csv & Hcsv & Hcsvne).
      rewrite Hcsv in H.
      destruct (s3.UploadPart stream csv w1) as [[err stream1] w2] eqn:Hup.
      eapply session_UploadPart in Hup; [|exact Hs1|lia].
      destruct Hup as (Hobj2 & evs2 & Hstep2 & Hcases).
      destruct Hcases as [(Hempty & _)|[(_ & -> & Hs2 & Hab2 & Hin1 & Hin2)|(_ & _ & (e & ->) & _)]];
        [contradiction | | discriminate H].
      pose proof Hstep2 as (Htab2 & _ & Htx2 & Htr2).
      assert (Hpart : csv = (if headerWritten then EmptyString
                             else exporter.csv_Write exporter.header)
                            +:+ exporter.write_rows rows).
      { unfold exporter.rowsToCSVBytes in Hcsv. inversion Hcsv.
        destruct headerWritten; reflexivity. }
      destruct (Z.of_nat (length rows) <? config.BatchSize cfg) eqn:Hshort.
      * inversion H; subst batchNum' totalRows' stream' w'.
        exists (evs1 ++ evs2). cbn [csv_parts concat]. rewrite app_nil_r, <- Hpart.
        split; [rewrite Htr2, Htr1, app_assoc; reflexivity|].
        split; [congruence|]. split; [congruence|]. split; [congruence|].
        split; [rewrite <- app_assoc in Hs2; exact Hs2|].
        split; [rewrite aborts_app, (proj2 (Hq1 id)), Hab2; reflexivity|].
        split; [reflexivity|]. intros _. exact Hin2.
      * eapply IH in H; [|exact Hid|exact Hs2|lia|lia|rewrite length_app; cbn [length]; lia].
        destruct H as (evs3 & Htr3 & Hobj3 & Htab3 & Htx3 & Hs3 & Hab3 & Htot & Hin3).
        assert (Hsnap2 : snapshot cfg w2 = table).
        { rewrite <- Hsnap. unfold snapshot. now rewrite Htab2, Htab1. }
        rewrite Hsnap2 in Hs3, Htot.
        exists (evs1 ++ evs2 ++ evs3). cbn [csv_parts concat]. rewrite <- Hpart.
        split; [rewrite Htr3, Htr2, Htr1, !app_assoc; reflexivity|].
        split; [congruence|]. split; [congruence|]. split; [congruence|].
        split.
        { rewrite <- !app_assoc in Hs3. exact Hs3. }
        split; [rewrite !aborts_app, (proj2 (Hq1 id)), Hab2, Hab3; reflexivity|].
        split; [rewrite Htot, length_app; lia|].
        intros _. apply Hin3. exact Hin2.
Qed.

Lemma concat_pages_nil (pages : list (list exporter.Row)) :
  Forall (fun rows => rows <> []) pages -> concat pages = [] -> pages = [].
Proof.
  intros Hne Hc. destruct pages as [|rows pages]; [reflexivity|].
  inversion Hne; subst. cbn in Hc. destruct rows; [contradiction | discriminate].
Qed.

(** The pages of a whole export: the loop starts without a cursor and runs
    at most [maxBatches] rounds. *)
Definition pages_of (cfg : config.Config) (seg : segment.Segment) (w : World)
  : list (list exporter.Row) :=
  paginate (Z.to_nat exporter.maxBatches) cfg seg "" (snapshot cfg w).

(** An export that returns without error, read off its result: the parts
    received are the pages' serialisations, numbered from one; without rows
    the session was aborted and no object appeared, with rows the object is
    the parts joined in order. *)
Lemma ExportSegment_returns cfg seg w o w' :
  identifier (tableRef cfg) ->
  exporter.ExportSegment cfg seg w = (Ok o, w') ->
  let id := next_upload w in
  let key := exporter.s3Key_of cfg seg in
  let pages := pages_of cfg seg w in
  exists evs,
    trace w' = trace w ++ evs
    /\ uploaded id evs = numbered_bodies 1 (csv_parts false pages)
    /\ tx w' = TxCommitted
    /\ match o with
       | None =>
           pages = [] /\ objects w' = objects w /\ exists ok, aborts id evs = [ok]
       | Some f =>
           pages <> []
           /\ f = exporter.mkCSVFile "" key seg (Z.of_nat (length (concat pages)))
           /\ objects w' = <[key := joined (csv_parts false pages)]> (objects w)
           /\ aborts id evs = []
           /\ uploads w' !! id = None
       end.
Proof.
  intros Hid H id key pages. unfold exporter.ExportSegment in H. fold key in H.
  destruct (s3.NewMultipartUploadStream cfg key w) as [r0 w1] eqn:Hnew.
  destruct r0 as [stream|e]; [|discriminate H].
  apply session_created in Hnew. fold id in Hnew.
  destruct Hnew as (Hs0 & Hobj0 & Hstep0 & Hin0).
  pose proof Hstep0 as (Htab0 & _ & _ & Htr0).
  destruct (sql.BeginTx w1) as [r1 w2] eqn:Hbegin.
  apply BeginTx_cases in Hbegin. destruct Hbegin as ((evs1 & Hstep1) & Htx1).
  destruct r1 as [[]|e].
  2:{ destruct (exporter.deferred_abort (Some e) stream w2). discriminate H. }
  pose proof (session_db_step _ _ _ _ _ _ _ _ Hs0 Hstep1) as Hs1. cbn [app] in Hs1.
  pose proof Hstep1 as (Hup1 & Hobj1 & _ & _ & Htab1 & Htr1 & Hq1).
  destruct (exporter.export_body cfg seg key stream w2) as [[res stream'] w3] eqn:Hbody.
  destruct (sql.Rollback w3) as [u4 w4] eqn:Hrb.
  apply Rollback_cases in Hrb. destruct Hrb as (Hstep4 & Htx4).
  pose proof Hstep4 as (Hup4 & Hobj4 & _ & _ & Htab4 & Htr4 & Hq4).
  cbn [exporter.deferred_abort ret] in H. inversion H; subst res w'. clear H.
  unfold exporter.export_body in Hbody.
  destruct (exporter.export_batches (Z.to_nat exporter.maxBatches) cfg seg 0 "" 0 false stream w2)
    as [[exit_ stream2] w5] eqn:Hloop.
  destruct exit_ as [e|batchNum totalRows]; [discriminate Hbody|].
  eapply export_batches_ended in Hloop;
    [|exact Hid|exact Hs1|lia|reflexivity
     |unfold exporter.maxBatches; rewrite Z2Nat.id by lia; cbn [length]; lia].
  destruct Hloop as (evs5 & Htr5 & Hobj5 & Htab5 & Htx5 & Hs5 & Hab5 & Htot & Hin5).
  assert (Hsnap : snapshot cfg w2 = snapshot cfg w).
  { unfold snapshot. now rewrite Htab1, Htab0. }
  rewrite Hsnap in Hs5, Htot. fold (pages_of cfg seg w) in Hs5, Htot. fold pages in Hs5, Htot.
  cbn [app] in Hs5. rewrite Z.add_0_l in Htot.
  destruct (sql.Commit w5) as [cerr w6] eqn:Hcommit.
  apply Commit_cases in Hcommit. destruct Hcommit as ((evs6 & Hstep6) & Htx6).
  destruct cerr as [e|]; [discriminate Hbody|]. destruct Htx6 as [_ Htx6].
  pose proof (session_db_step _ _ _ _ _ _ _ _ Hs5 Hstep6) as Hs6.
  pose proof Hstep6 as (Hup6 & Hobj6 & _ & _ & Htab6 & Htr6 & Hq6).
  pose proof (paginate_not_empty (Z.to_nat exporter.maxBatches) cfg seg "" (snapshot cfg w))
    as Hne. fold (pages_of cfg seg w) in Hne. fold pages in Hne.
  destruct (Z.eqb_spec totalRows 0) as [Hzero|Hrows].
  - destruct (s3.Abort stream2 w6) as [u7 w7] eqn:Habort. inversion Hbody; subst o stream' w3.
    unfold s3.Abort in Habort. destruct Hs6 as (Hsid & _). rewrite Hsid in Habort.
    destruct u7. apply abortMultipartUpload_cases in Habort.
    destruct Habort as (Hobj7 & ok & (Htab7 & _ & Htx7 & Htr7) & _).
    assert (Hpages : pages = []) by (apply concat_pages_nil; [exact Hne|];
      apply length_zero_iff_nil; lia).
    exists ([EvCreateMultipartUpload key true] ++ evs1 ++ evs5 ++ evs6
            ++ [EvAbortMultipartUpload id ok] ++ [EvRollback]).
    split; [rewrite Htr4, Htr7, Htr6, Htr5, Htr1, Htr0, <- !app_assoc; reflexivity|].
    rewrite Hpages in *. cbn [csv_parts] in *.
    destruct Hs5 as (_ & _ & _ & Hev5 & _).
    rewrite uploaded_app, (proj1 (Hq1 id)) in Hev5. cbn [app] in Hev5.
    split.
    { rewrite !uploaded_app, (proj1 (Hq1 id)), Hev5, (proj1 (Hq6 id)). reflexivity. }
    split; [rewrite Htx4, Htx7, Htx6; reflexivity|].
    split; [reflexivity|]. split; [congruence|]. exists ok.
    rewrite !aborts_app, (proj2 (Hq1 id)), Hab5, (proj2 (Hq6 id)).
    cbn. now rewrite Nat.eqb_refl.
  - destruct (s3.Complete stream2 w6) as [cerr w7] eqn:Hcomplete.
    destruct cerr as [e|]; [discriminate Hbody|]. inversion Hbody; subst o stream' w3.
    destruct (session_Complete _ _ _ _ _ _ _ Hs6 Hcomplete)
      as (Hbodies & Hobj7 & Hup7 & (Htab7 & _ & Htx7 & Htr7)).
    assert (Hpages : pages <> []).
    { intros Hp. rewrite Hp in Htot. cbn in Htot. lia. }
    exists ([EvCreateMultipartUpload key true] ++ evs1 ++ evs5 ++ evs6
            ++ [EvCompleteMultipartUpload id (numbered 1 (csv_parts false pages)) true]
            ++ [EvRollback]).
    split; [rewrite Htr4, Htr7, Htr6, Htr5, Htr1, Htr0, <- !app_assoc; reflexivity|].
    destruct Hs5 as (_ & _ & _ & Hev5 & _).
    rewrite uploaded_app, (proj1 (Hq1 id)) in Hev5. cbn [app] in Hev5.
    split.
    { rewrite !uploaded_app, (proj1 (Hq1 id)), (proj1 (Hq6 id)), Hev5.
      cbn. now rewrite app_nil_r. }
    split; [rewrite Htx4, Htx7, Htx6; reflexivity|].
    split; [exact Hpages|]. split; [rewrite Htot; reflexivity|].
    split; [rewrite Hobj4, Hobj7, Hobj6, Hobj5, Hobj1, Hobj0; reflexivity|].
    split.
    { rewrite !aborts_app, (proj2 (Hq1 id)), Hab5, (proj2 (Hq6 id)). reflexivity. }
    rewrite Hup4, Hup7. apply lookup_delete_eq.
Qed.

(** *** Key order across pages *)

Lemma str_gt_le a b : str_gt a b = true -> str_le b a = true.
Proof.
  unfold str_gt, str_le, String.ltb, String.leb.
  destruct (String.compare b a); [reflexivity | reflexivity | discriminate].
Qed.

Lemma str_le_empty a : str_le EmptyString a = true.
Proof. destruct a; reflexivity. Qed.

Lemma Sorted_app {A} (R : A -> A -> Prop) (l1 l2 : list A) :
  Sorted R l1 -> Sorted R l2 ->
  (forall a b, last l1 = Some a -> head l2 = Some b -> R a b) ->
  Sorted R (l1 ++ l2).
Proof.
  induction 1 as [|x l1 Hs IH Hhd]; intros H2 Hlink; [exact H2|].
  cbn [app]. constructor.
  - apply IH; [exact H2|]. intros a b Ha Hb. apply Hlink; [|exact Hb].
    rewrite last_cons, Ha. reflexivity.
  - destruct Hhd as [|y l1 Hxy]; cbn [app]; [|constructor; exact Hxy].
    destruct l2 as [|b l2]; constructor. apply Hlink; reflexivity.
Qed.

(** The rows of all pages, in the order read, ascend by key; the first of
    them lies after the cursor the reading started from. *)
Lemma paginate_ascending cfg seg table rounds : forall cursor,
  ascending (concat (paginate rounds cfg seg cursor table))
  /\ forall x, head (concat (paginate rounds cfg seg cursor table)) = Some x ->
               after_cursor cursor (exporter.Hash x) = true.
Proof.
  induction rounds as [|rounds IH]; intros cursor; cbn [paginate].
  - split; [constructor | discriminate].
  - destruct (last (page cfg seg cursor table)) as [r|] eqn:Hlast;
      [|split; [constructor | discriminate]].
    cbn [concat].
    set (rest := if Z.of_nat (length (page cfg seg cursor table)) <? config.BatchSize cfg
                 then [] else paginate rounds cfg seg (exporter.Hash r) table).
    assert (Hrest : ascending (concat rest)
                    /\ forall x, head (concat rest) = Some x ->
                                 after_cursor (exporter.Hash r) (exporter.Hash x) = true).
    { unfold rest. destruct (_ <? _); [split; [constructor | discriminate] | apply IH]. }
    destruct Hrest as [Hasc Hhead]. split.
    + apply Sorted_app; [apply page_ascending | exact Hasc|].
      intros a b Ha Hb. rewrite Hlast in Ha. inversion Ha; subst a.
      specialize (Hhead b Hb). unfold after_cursor in Hhead.
      destruct (String.eqb_spec (exporter.Hash r) "") as [He|_].
      * rewrite He. apply str_le_empty.
      * apply str_gt_le, Hhead.
    + intros x Hx.
      destruct (page cfg seg cursor table) as [|y ys] eqn:Hp; [discriminate Hlast|].
      cbn in Hx. inversion Hx; subst y.
      assert (Hin : In x (page cfg seg cursor table)) by (rewrite Hp; left; reflexivity).
      apply page_rows in Hin. tauto.
Qed.

(** C4. For every export that completes, the object under the returned key
    is exactly the uploaded parts joined in ascending part-number order
    (the parts are numbered 1, 2, ...); the parts are the serialisations of
    the pages that sequential cursor pagination reads, and their concatenation
    is the CSV of all those rows, in ascending key order, after exactly one
    header record, which only the first part carries. *)
Theorem ExportSegment_round_trip cfg seg w f w' :
  identifier (tableRef cfg) ->
  exporter.ExportSegment cfg seg w = (Ok (Some f), w') ->
  let id := next_upload w in
  let pages := pages_of cfg seg w in
  let rows := concat pages in
  exists evs,
    trace w' = trace w ++ evs
    /\ map fst (uploaded id evs)
       = map (fun i : nat => 1 + Z.of_nat i) (seq 0 (length (uploaded id evs)))
    /\ map snd (uploaded id evs) = csv_parts false pages
    /\ objects w' !! exporter.S3Key f = Some (joined (map snd (uploaded id evs)))
    /\ joined (map snd (uploaded id evs))
       = exporter.csv_Write exporter.header +:+ exporter.write_rows rows
    /\ exporter.rowsToCSVBytes rows true = Ok (joined (map snd (uploaded id evs)))
    /\ ascending rows
    /\ exporter.RowCount f = Z.of_nat (length rows).
Proof.
  intros Hid H id pages rows.
  destruct (ExportSegment_returns _ _ _ _ _ Hid H) as (evs & Htr & Hev & _ & Hf).
  fold id in Hev, Hf. fold pages in Hev, Hf.
  destruct Hf as (Hpages & -> & Hobj & _ & _).
  exists evs. split; [exact Htr|]. rewrite Hev.
  assert (Hsnd : map snd (numbered_bodies 1 (csv_parts false pages)) = csv_parts false pages)
    by apply sink_facts.numbered_bodies_snd.
  split.
  { rewrite <- numbered_PartNumber, sink_facts.numbered_consecutive.
    f_equal. f_equal. rewrite <- (length_map snd), Hsnd. reflexivity. }
  split; [exact Hsnd|]. rewrite Hsnd.
  split; [cbn [exporter.S3Key]; rewrite Hobj; apply lookup_insert_eq|].
  split; [apply joined_csv_parts_header, Hpages|].
  split; [unfold exporter.rowsToCSVBytes; now rewrite joined_csv_parts_header|].
  split; [apply paginate_ascending | reflexivity].
Qed.

Lemma identifier_fixture : identifier (tableRef fixtures.cfg_small).
Proof. split; [discriminate | reflexivity]. Qed.

(** Segment 00-40 of the test table, read two rows at a time: two parts, and
    an object with one header and the three rows in key order. *)
Lemma ExportSegment_round_trip_witness :
  exists f w',
    exporter.ExportSegment fixtures.cfg_small fixtures.seg_00_40 fixtures.calm
    = (Ok (Some f), w')
    /\ objects w' !! exporter.S3Key f = Some
"tenantid,hash,aggr,last_modified,version
999999,00abc123def456,{},,
999999,1aabc123def456,{},,
999999,3fabc123def456,{},,
"
    /\ map fst (uploaded 0 (trace w')) = [1; 2]
    /\ exporter.RowCount f = 3.
Proof.
  destruct (exporter.ExportSegment fixtures.cfg_small fixtures.seg_00_40 fixtures.calm)
    as [r w'] eqn:E.
  assert (Hr : r = Ok (Some (exporter.mkCSVFile EmptyString
             "test-prefix/tenant-999999/fis_aggr/tenant-999999.fis_aggr.hash-00-40.csv"
             fixtures.seg_00_40 3))).
  { apply (f_equal fst) in E. cbn [fst] in E. rewrite <- E. vm_compute. reflexivity. }
  subst r. eexists _, w'. split; [reflexivity|].
  destruct (ExportSegment_round_trip _ _ _ _ _ identifier_fixture E)
    as (evs & Htr & Hnum & Hparts & Hobj & Hcsv & _ & _ & Hcount).
  change (trace fixtures.calm) with (@nil event) in Htr. cbn [app] in Htr. subst evs.
  split; [|split].
  - rewrite Hobj, Hcsv. f_equal.
  - change (next_upload fixtures.calm) with 0%nat in Hnum, Hparts.
    rewrite Hnum. rewrite <- (length_map snd), Hparts. vm_compute. reflexivity.
  - rewrite Hcount. reflexivity.
Defined.

(** *** Exports that meet no fault *)













End export_facts.

(** ** The batch scheduler *)
Module scheduler_facts.
Import migration.

(** What a segment contributes to the result: its files, or nothing when its
    export failed. *)
Definition contribution (outcome : segment.Segment -> result (list exporter.CSVFile))
    (s : segment.Segment) : list exporter.CSVFile :=
  match outcome s with
  | Ok csvFiles => csvFiles
  | Err _ => []
  end.

Definition failed (outcome : segment.Segment -> result (list exporter.CSVFile))
    (s : segment.Segment) : bool :=
  negb (is_ok (outcome s)).

Lemma effective_maxParallel_pos cfg : (1 <= Z.to_nat (effective_maxParallel cfg))%nat.
Proof.
  unfold effective_maxParallel. destruct (Z.leb_spec (config.MaxParallelSegs cfg) 0); lia.
Qed.

(** The waves are the segments, cut into consecutive runs. *)
Lemma waves_concat n fuel : forall segments,
  (1 <= n)%nat -> (length segments <= fuel)%nat ->
  concat (waves fuel n segments) = segments.
Proof.
  induction fuel as [|fuel IH]; intros segments Hn Hlen.
  - destruct segments; [reflexivity | cbn in Hlen; lia].
  - destruct segments as [|s segments]; [reflexivity|].
    cbn [waves concat]. rewrite IH; [apply take_drop | exact Hn|].
    rewrite length_drop. cbn [length] in *. lia.
Qed.

Lemma waves_sizes n fuel : forall segments,
  (1 <= n)%nat ->
  Forall (fun batch => (1 <= length batch <= n)%nat) (waves fuel n segments).
Proof.
  induction fuel as [|fuel IH]; intros segments Hn; [constructor|].
  destruct segments as [|s segments]; [constructor|].
  cbn [waves]. constructor; [|apply IH; exact Hn].
  rewrite length_take. cbn [length]. lia.
Qed.

Lemma fold_finish outcome order : forall acc,
  fold_left (finish outcome) order acc = acc ++ flat_map (contribution outcome) order.
Proof.
  induction order as [|s order IH]; intros acc; cbn [fold_left flat_map].
  - now rewrite app_nil_r.
  - rewrite IH. unfold finish, contribution.
    destruct (outcome s); [now rewrite <- app_assoc | reflexivity].
Qed.

Lemma wave_runs_files outcome batch acc acc' :
  wave_runs outcome batch acc acc' ->
  exists added, acc' = acc ++ added /\ Permutation added (flat_map (contribution outcome) batch).
Proof.
  intros [order acc0 Hperm]. rewrite fold_finish. eexists. split; [reflexivity|].
  apply Permutation_flat_map, Hperm.
Qed.

Lemma waves_run_files outcome batches acc acc' :
  waves_run outcome batches acc acc' ->
  exists added,
    acc' = acc ++ added
    /\ Permutation added (flat_map (contribution outcome) (concat batches)).
Proof.
  induction 1 as [acc|batch rest acc acc1 acc2 Hwave Hrest IH].
  - exists []. now rewrite app_nil_r.
  - apply wave_runs_files in Hwave. destruct Hwave as (a1 & -> & Hp1).
    destruct IH as (a2 & -> & Hp2). exists (a1 ++ a2).
    split; [now rewrite app_assoc|].
    cbn [concat]. rewrite flat_map_app. apply Permutation_app; assumption.
Qed.

(** Every list of waves can run: the goroutines may finish in launch order. *)
Lemma waves_run_total outcome batches : forall acc, exists acc', waves_run outcome batches acc acc'.
Proof.
  induction batches as [|batch rest IH]; intros acc.
  - exists acc. constructor.
  - destruct (IH (fold_left (finish outcome) batch acc)) as [acc' Hrest].
    exists acc'. econstructor; [|exact Hrest]. constructor. reflexivity.
Qed.

(** C10. Once the exporter and the uploader exist, [ProcessSegments] returns
    a nil error whatever the segments' exports returned: the files returned
    are those of the segments that succeeded (in some order), a failed
    segment contributes nothing, and no error of a segment reaches the
    caller.  A non-nil error comes only from a constructor that failed.
    Every call returns. *)
Theorem ProcessSegments_nil_error outcome env segments cfg :
  (forall files err,
     ProcessSegments outcome env segments cfg (files, err) ->
     (NewExporter env = Ok tt -> NewUploader env = Ok tt ->
      err = None
      /\ Permutation files (flat_map (contribution outcome) segments)
      /\ forall s, In s segments -> failed outcome s = true -> contribution outcome s = [])
     /\ (err <> None ->
         files = [] /\ (is_ok (NewExporter env) = false \/ is_ok (NewUploader env) = false)))
  /\ exists files err, ProcessSegments outcome env segments cfg (files, err).
Proof.
  split.
  - intros files err H. inversion H as [e He|e He Hu|fs He Hu Hrun]; subst.
    + split; [intros He'; rewrite He in He'; discriminate|].
      intros _. split; [reflexivity|]. left. now rewrite He.
    + split; [intros _ Hu'; rewrite Hu in Hu'; discriminate|].
      intros _. split; [reflexivity|]. right. now rewrite Hu.
    + split; [|intros Hne; contradiction].
      intros _ _. split; [reflexivity|].
      apply waves_run_files in Hrun. destruct Hrun as (added & -> & Hperm).
      rewrite waves_concat in Hperm by (auto using effective_maxParallel_pos).
      split; [exact Hperm|].
      intros s _ Hf. unfold failed, contribution in *. destruct (outcome s); [discriminate | reflexivity].
  - destruct (NewExporter env) as [[]|e] eqn:He.
    + destruct (NewUploader env) as [[]|e] eqn:Hu.
      * destruct (waves_run_total outcome
                    (waves (length segments) (Z.to_nat (effective_maxParallel cfg)) segments) [])
          as [files Hrun].
        exists files, None. apply all_waves_ran; assumption.
      * eexists _, _. eapply uploader_failed; eassumption.
    + eexists _, _. eapply exporter_failed; eassumption.
Qed.

(** Four segments of the test table, the second of which meets a failing
    query: the call still returns a nil error, with the three other files. *)
Definition sample_outcome (s : segment.Segment) : result (list exporter.CSVFile) :=
  if segment.Index s =? 1
  then fst (ProcessSegment fixtures.cfg s fixtures.query_fails)
  else fst (ProcessSegment fixtures.cfg s fixtures.calm).

Definition sample_segments : list segment.Segment :=
  match segment.SegmentHashSpace 4 with Ok segs => segs | Err _ => [] end.

Lemma ProcessSegments_nil_error_witness :
  exists files,
    ProcessSegments sample_outcome (mkEnv None None None) sample_segments fixtures.cfg
                    (files, None)
    /\ length files = 3%nat
    /\ map (failed sample_outcome) sample_segments = [false; true; false; false].
Proof.
  destruct (ProcessSegments_nil_error sample_outcome (mkEnv None None None)
              sample_segments fixtures.cfg) as [Hspec (files & err & Hrun)].
  destruct (Hspec files err Hrun) as [Hok _].
  destruct (Hok eq_refl eq_refl) as (-> & Hperm & _).
  exists files. split; [exact Hrun|]. split; [|vm_compute; reflexivity].
  rewrite (Permutation_length Hperm). vm_compute. reflexivity.
Defined.

End scheduler_facts.

(** ** Failure paths, run on the sample data *)
Module failure_facts.
Import world trace_facts stream_facts.

(** Each wait is twice the one before. *)
Fixpoint doubling (delays : list Z) : bool :=
  match delays with
  | d1 :: ((d2 :: _) as rest) => (d2 =? 2 * d1) && doubling rest
  | _ => true
  end.

(** The number of [UploadPart] calls a trace records for a session. *)
Definition attempts (id : nat) (tr : list event) : nat :=
  length (List.filter (fun ev => match ev with
                                 | EvUploadPart id' _ _ _ => Nat.eqb id id'
                                 | _ => false
                                 end) tr).

Definition one_part_session : s3.MultipartUploadStream * World :=
  match s3.NewMultipartUploadStream fixtures.cfg "k" fixtures.parts_fail with
  | (Ok m, w) => (m, w)
  | (Err _, w) => (s3.mkStream "" "" None [] 1, w)
  end.

(** The waits of a loop that starts at attempt [from] and sleeps [n] times. *)
Definition backoff (from : Z) (n : nat) : list Z :=
  map (fun i : nat => s3.initialRetryDelay * (from + Z.of_nat i)) (seq 0 n).

Lemma backoff_S from n :
  backoff from (S n) = s3.initialRetryDelay * from :: backoff (from + 1) n.
Proof.
  unfold backoff. cbn [seq map]. rewrite Z.add_0_r. f_equal.
  rewrite <- seq_shift, map_map. apply map_ext. intros i. f_equal. lia.
Qed.

Lemma attempt_call_sleeps m data w r w' :
  attempt_call m data w = (r, w') ->
  exists evs, trace w' = trace w ++ evs /\ sleeps evs = [].
Proof.
  unfold attempt_call, UploadPart, s3_fault. intros H.
  destruct (s3.uploadID m) as [id|].
  - destruct (s3_script w) as [|[e|] script];
      cbn [uploads set_s3_script] in H;
      destruct (uploads w !! id) as [u|];
      inversion H; subst; cbn; eexists; split; reflexivity.
  - inversion H; subst. exists []. rewrite app_nil_r. split; reflexivity.
Qed.

(** The retry loop sleeps after each failed attempt but the last, attempt
    [k] being followed by a wait of [k] times the initial delay; when every
    attempt fails it has slept after all of them but the last. *)
Lemma upload_attempts_schedule todo : forall attempt m data po err w res w',
  s3.upload_attempts todo attempt m data po err w = (res, w') ->
  attempt + Z.of_nat todo = s3.maxS3Retries + 1 ->
  exists evs n,
    trace w' = trace w ++ evs /\ sleeps evs = backoff attempt n
    /\ (todo <> O ->
        (exists etag, res = (Some etag, None)) /\ (n < todo)%nat
        \/ (exists e, res = (None, Some e)) /\ S n = todo).
Proof.
  induction todo as [|todo IH]; intros attempt m data po err w res w' H Hsum.
  - cbn in H. inversion H; subst. exists [], 0%nat. rewrite app_nil_r.
    split; [reflexivity|]. split; [reflexivity|]. intros Hne. contradiction.
  - cbn [s3.upload_attempts] in H. fold (attempt_call m data w) in H.
    destruct (attempt_call m data w) as [r w1] eqn:Hcall.
    apply attempt_call_sleeps in Hcall. destruct Hcall as (evs1 & Ht1 & Hsl1).
    destruct r as [etag|e].
    + inversion H; subst. exists evs1, 0%nat.
      split; [exact Ht1|]. split; [exact Hsl1|]. intros _. left. split; [eauto | lia].
    + destruct (Z.ltb_spec attempt s3.maxS3Retries) as [Hlt|Hge].
      * apply IH in H; [|lia]. destruct H as (evs2 & n & Ht2 & Hsl2 & Hres).
        cbn [Sleep snd log trace] in Ht2.
        exists (evs1 ++ [EvSleep (s3.initialRetryDelay * attempt)] ++ evs2), (S n).
        split; [rewrite Ht2, Ht1, <- !app_assoc; reflexivity|].
        split; [rewrite !sleeps_app, Hsl1, Hsl2, backoff_S; reflexivity|].
        intros _. destruct Hres as [[Hok Hn]|[Herr Hn]]; [lia| |]; [left|right]; split; auto; lia.
      * assert (todo = O) by lia. subst todo. cbn in H. inversion H; subst.
        exists evs1, 0%nat. split; [exact Ht1|]. split; [exact Hsl1|].
        intros _. right. split; [eauto | reflexivity].
Qed.

Lemma abortMultipartUpload_sleeps b k uploadID w :
  exists evs, trace (snd (s3.abortMultipartUpload b k uploadID w)) = trace w ++ evs
    /\ sleeps evs = [].
Proof.
  destruct uploadID as [id|].
  - unfold s3.abortMultipartUpload, AbortMultipartUpload, s3_fault.
    destruct (s3_script w) as [|[e|] script];
      cbn [uploads set_s3_script];
      destruct (uploads w !! id) as [u|];
      cbn; eexists; split; reflexivity.
  - exists []. cbn. rewrite app_nil_r. split; reflexivity.
Qed.

(** The backoff of [MultipartUploadStream.UploadPart], on every stream, world
    and data: the waits are the initial delay times 1, 2, ..., at most four of
    them, and exactly the four when the call returns an error. These grow
    by a constant step; they do not double. *)
Theorem UploadPart_backoff_schedule m data w err m' w' :
  s3.UploadPart m data w = ((err, m'), w') ->
  exists evs n,
    trace w' = trace w ++ evs
    /\ sleeps evs = backoff 1 n /\ (n <= 4)%nat
    /\ (err <> None ->
        sleeps evs = [1000000000; 2000000000; 3000000000; 4000000000]
        /\ doubling (sleeps evs) = false).
Proof.
  unfold s3.UploadPart. intros H.
  destruct (len data =? 0).
  - inversion H; subst. exists [], 0%nat. rewrite app_nil_r.
    split; [reflexivity|]. split; [reflexivity|]. split; [lia|].
    intros Hne. contradiction.
  - destruct (s3.upload_attempts (Z.to_nat s3.maxS3Retries) 1 m data None None w)
      as [[po e] w1] eqn:Hloop.
    apply upload_attempts_schedule in Hloop; [|reflexivity].
    destruct Hloop as (evs1 & n & Ht1 & Hsl1 & Hres).
    change (Z.to_nat s3.maxS3Retries) with 5%nat in Hres.
    destruct (Hres ltac:(discriminate)) as [[[etag Hok] Hn]|[[e1 Herr] Hn]].
    + inversion Hok; subst po e. inversion H; subst.
      exists evs1, n. split; [exact Ht1|]. split; [exact Hsl1|]. split; [lia|].
      intros Hne. contradiction.
    + inversion Herr; subst po e.
      destruct (abortMultipartUpload_sleeps (s3.bucket m) (s3.key m) (s3.uploadID m) w1)
        as (evs2 & Ht2 & Hsl2).
      destruct (s3.abortMultipartUpload (s3.bucket m) (s3.key m) (s3.uploadID m) w1)
        as [[] w2].
      cbn [snd] in Ht2. inversion H; subst.
      assert (n = 4%nat) by lia. subst n.
      exists (evs1 ++ evs2), 4%nat.
      split; [rewrite Ht2, Ht1, <- app_assoc; reflexivity|].
      rewrite sleeps_app, Hsl1, Hsl2, app_nil_r.
      split; [reflexivity|]. split; [lia|]. intros _. split; reflexivity.
Qed.

Lemma UploadPart_backoff_schedule_witness :
  exists evs,
    trace (snd (s3.UploadPart (fst one_part_session) "a,b" (snd one_part_session)))
    = trace (snd one_part_session) ++ evs
    /\ sleeps evs = [1000000000; 2000000000; 3000000000; 4000000000].
Proof.
  destruct (s3.UploadPart (fst one_part_session) "a,b" (snd one_part_session))
    as [[err m'] w'] eqn:E.
  destruct (UploadPart_backoff_schedule _ _ _ _ _ _ E) as (evs & n & Htr & _ & _ & Hfail).
  assert (Herr : err <> None).
  { apply (f_equal (fun r => fst (fst r))) in E. cbn [fst] in E. rewrite <- E.
    vm_compute. discriminate. }
  exists evs. split; [exact Htr | apply (Hfail Herr)].
Defined.

(** C7 where the store refuses a part five times: five attempts, the session
    aborted, the error returned and no part recorded, as the claim says;
    but the waits between the attempts are 1 s, 2 s, 3 s and 4 s, which is
    not exponential backoff. *)
Lemma UploadPart_backoff_is_linear :
  let run := s3.UploadPart (fst one_part_session) "a,b" (snd one_part_session) in
  fst (fst run)
  = Some (wrapError "failed to upload part 1: RequestTimeout" fixtures.upload_refused)
  /\ snd (fst run) = fst one_part_session
  /\ attempts 0 (trace (snd run)) = 5%nat
  /\ aborts 0 (trace (snd run)) = [true]
  /\ uploads (snd run) !! 0%nat = None
  /\ sleeps (trace (snd run)) = [1000000000; 2000000000; 3000000000; 4000000000]
  /\ doubling (sleeps (trace (snd run))) = false.
Proof. repeat split; vm_compute; reflexivity. Qed.


(** C5 where the query for the second page fails: the error reaches the
    caller with its cause and the transaction is rolled back, as the claim
    says; but no abort is sent, and the session stays in the store with the
    part it had received. *)
Lemma ExportSegment_query_error_leaves_session :
  let run := exporter.ExportSegment fixtures.cfg_small fixtures.seg_00_40
                                    fixtures.second_query_fails in
  fst run = Err (wrapError "failed to query segment: query failed: invalid connection"
                   (wrapError "query failed: invalid connection"
                      (errorString "invalid connection")))
  /\ tx (snd run) = TxRolledBack
  /\ map fst (uploaded 0 (trace (snd run))) = [1]
  /\ aborts 0 (trace (snd run)) = []
  /\ (exists u, uploads (snd run) !! 0%nat = Some u
        /\ up_key u
           = "test-prefix/tenant-999999/fis_aggr/tenant-999999.fis_aggr.hash-00-40.csv"
        /\ is_Some (up_parts u !! 1)).
Proof.
  split; [vm_compute; reflexivity|]. split; [vm_compute; reflexivity|].
  split; [vm_compute; reflexivity|]. split; [vm_compute; reflexivity|].
  eexists. split; [vm_compute; reflexivity|]. split; [reflexivity|].
  eexists. vm_compute. reflexivity.
Qed.


End failure_facts.

(** * Further properties of the code *)

(** ** Bytewise string order *)
Module order_facts.

Lemma ascii_compare_refl (c : ascii) : Ascii.compare c c = Eq.
Proof. unfold Ascii.compare. apply N.compare_refl. Qed.

Lemma compare_refl (s : string) : String.compare s s = Eq.
Proof.
  induction s as [|c s IH]; [reflexivity|].
  cbn [String.compare]. now rewrite ascii_compare_refl.
Qed.

Lemma ascii_compare_lt_trans (a b c : ascii) :
  Ascii.compare a b = Lt -> Ascii.compare b c = Lt -> Ascii.compare a c = Lt.
Proof.
  unfold Ascii.compare. rewrite !N.compare_lt_iff. apply N.lt_trans.
Qed.

Lemma compare_lt_trans (a : string) : forall b c,
  String.compare a b = Lt -> String.compare b c = Lt -> String.compare a c = Lt.
Proof.
  induction a as [|x a IH]; intros [|y b] [|z c]; cbn [String.compare];
    try discriminate; try reflexivity.
  destruct (Ascii.compare x y) eqn:Hxy; try discriminate.
  - apply Ascii.compare_eq_iff in Hxy. subst y.
    destruct (Ascii.compare x z); try discriminate; [apply IH | reflexivity].
  - intros _. destruct (Ascii.compare y z) eqn:Hyz; try discriminate.
    + apply Ascii.compare_eq_iff in Hyz. subst z. now rewrite Hxy.
    + intros _. now rewrite (ascii_compare_lt_trans _ _ _ Hxy Hyz).
Qed.

Lemma str_lt_trans a b c : str_lt a b = true -> str_lt b c = true -> str_lt a c = true.
Proof.
  unfold str_lt, String.ltb.
  destruct (String.compare a b) eqn:Hab; try discriminate.
  destruct (String.compare b c) eqn:Hbc; try discriminate.
  now rewrite (compare_lt_trans _ _ _ Hab Hbc).
Qed.

Lemma str_le_lt_or_eq a b : str_le a b = true <-> str_lt a b = true \/ a = b.
Proof.
  unfold str_le, str_lt, String.leb, String.ltb.
  destruct (String.compare a b) eqn:Hab.
  - apply String.compare_eq_iff in Hab. tauto.
  - tauto.
  - split; [discriminate|]. intros [H|H]; [discriminate|].
    subst b. rewrite compare_refl in Hab. discriminate.
Qed.

Lemma str_le_refl a : str_le a a = true.
Proof. apply str_le_lt_or_eq. now right. Qed.

Lemma str_le_trans a b c : str_le a b = true -> str_le b c = true -> str_le a c = true.
Proof.
  rewrite !str_le_lt_or_eq. intros [Hab| ->] [Hbc| ->]; auto.
  left. eapply str_lt_trans; eauto.
Qed.

Lemma str_lt_le_trans a b c : str_lt a b = true -> str_le b c = true -> str_lt a c = true.
Proof.
  rewrite str_le_lt_or_eq. intros Hab [Hbc| ->]; [eapply str_lt_trans; eauto | exact Hab].
Qed.

Lemma str_le_lt_trans a b c : str_le a b = true -> str_lt b c = true -> str_lt a c = true.
Proof.
  rewrite str_le_lt_or_eq. intros [Hab| ->] Hbc; [eapply str_lt_trans; eauto | exact Hbc].
Qed.

Lemma str_lt_irrefl a : str_lt a a = false.
Proof. unfold str_lt, String.ltb. now rewrite compare_refl. Qed.

(** [a > b] is the negation of [a <= b]. *)
Lemma str_gt_not_le a b : str_gt a b = negb (str_le a b).
Proof.
  unfold str_gt, str_le, String.ltb, String.leb.
  rewrite (String.compare_antisym a b). destruct (String.compare b a); reflexivity.
Qed.

Lemma str_ge_not_lt a b : str_ge a b = negb (str_lt a b).
Proof.
  unfold str_ge, str_lt, String.ltb, String.leb.
  rewrite (String.compare_antisym a b). destruct (String.compare b a); reflexivity.
Qed.

(** Against a two-byte bound only the first two bytes of a key count. *)
Lemma compare_two_bytes a b rest c d :
  String.compare (String a (String b rest)) (String c (String d EmptyString))
  = match String.compare (String a (String b EmptyString)) (String c (String d EmptyString)) with
    | Eq => match rest with EmptyString => Eq | _ => Gt end
    | o => o
    end.
Proof.
  cbn [String.compare].
  destruct (Ascii.compare a c); try reflexivity.
  destruct (Ascii.compare b d); try reflexivity.
  destruct rest; reflexivity.
Qed.

End order_facts.

(** ** Hex boundaries and the key filter *)
Module filter_facts.
Import segment segment_facts query_facts order_facts.

(** *** [intToHex] and [HexToInt] *)

Definition lower_hex (c : ascii) : bool :=
  let n := nat_of_ascii c in
  (Nat.leb 48 n && Nat.leb n 57) || (Nat.leb 97 n && Nat.leb n 102).

Definition all_bytes : list ascii := map ascii_of_nat (seq 0 256).

Lemma In_all_bytes (c : ascii) : In c all_bytes.
Proof.
  unfold all_bytes. apply in_map_iff. exists (nat_of_ascii c).
  split; [apply ascii_nat_embedding|]. apply in_seq.
  pose proof (nat_ascii_bounded c). lia.
Qed.

Lemma intToHex_two_bytes v :
  0 <= v < 256 ->
  exists a b, intToHex v = String a (String b EmptyString)
    /\ lower_hex a = true /\ lower_hex b = true.
Proof.
  intros Hv.
  pose (P := fun v => match intToHex v with
                      | String a (String b EmptyString) => lower_hex a && lower_hex b
                      | _ => false
                      end).
  assert (HP : P v = true) by (apply (bounded_check P 256); [vm_compute; reflexivity | lia]).
  unfold P in HP. destruct (intToHex v) as [|a [|b [|? ?]]]; try discriminate.
  apply andb_true_iff in HP. exists a, b. tauto.
Qed.

Lemma lower_hex_pair a b :
  lower_hex a = true -> lower_hex b = true ->
  exists v, 0 <= v < 256
    /\ HexToInt (String a (String b EmptyString)) = Ok v
    /\ intToHex v = String a (String b EmptyString).
Proof.
  intros Ha Hb.
  pose (ok := fun a b : ascii =>
          negb (lower_hex a && lower_hex b)
          || match HexToInt (String a (String b EmptyString)) with
             | Ok v => (0 <=? v) && (v <? 256)
                       && String.eqb (intToHex v) (String a (String b EmptyString))
             | Err _ => false
             end).
  assert (Hall : forallb (fun a => forallb (ok a) all_bytes) all_bytes = true)
    by (vm_compute; reflexivity).
  rewrite forallb_forall in Hall. specialize (Hall a (In_all_bytes a)).
  rewrite forallb_forall in Hall. specialize (Hall b (In_all_bytes b)).
  unfold ok in Hall. rewrite Ha, Hb in Hall. cbn [andb negb orb] in Hall.
  destruct (HexToInt (String a (String b EmptyString))) as [v|]; [|discriminate].
  apply andb_true_iff in Hall. destruct Hall as [Hr He].
  apply andb_true_iff in Hr. destruct Hr as [H0%Z.leb_le H1%Z.ltb_lt].
  apply String.eqb_eq in He. exists v. auto.
Qed.

(** The two conversions undo each other: every boundary the partitioner
    prints, the sentinel included, reads back as its number, and every pair of
    lowercase hex digits is printed back as it was read. *)
Theorem HexToInt_intToHex_inverse :
  (forall v, 0 <= v <= 256 -> HexToInt (intToHex v) = Ok v)
  /\ (forall a b, lower_hex a = true -> lower_hex b = true ->
        exists v, 0 <= v < 256
          /\ HexToInt (String a (String b EmptyString)) = Ok v
          /\ intToHex v = String a (String b EmptyString)).
Proof. split; [apply HexToInt_intToHex | apply lower_hex_pair]. Qed.

Lemma HexToInt_intToHex_inverse_witness :
  HexToInt (intToHex 256) = Ok 256
  /\ exists v, 0 <= v < 256 /\ HexToInt "7f" = Ok v /\ intToHex v = "7f"%string.
Proof.
  split; [apply (proj1 HexToInt_intToHex_inverse); lia|].
  apply (proj2 HexToInt_intToHex_inverse "7"%char "f"%char); reflexivity.
Defined.

(** *** [SegmentToHexRange]: every way it fails *)

(** The index is checked first, against the count as given; so a count that
    is not positive is always reported as an index out of range, and the only
    message of [SegmentHashSpace] that can come through is the one for a count
    above 256. *)
Theorem SegmentToHexRange_errors (i n : Z) :
  (i < 0 \/ n <= i ->
   SegmentToHexRange i n
   = Err (errorString ("segment index " +:+ itoa i +:+ " out of range [0, "
                       +:+ itoa n +:+ ")")))
  /\ (0 <= i < n -> 256 < n ->
      SegmentToHexRange i n
      = Err (errorString ("segments cannot exceed 256, got " +:+ itoa n)))
  /\ (0 <= i < n -> n <= 256 -> exists lo hi, SegmentToHexRange i n = Ok (lo, hi)).
Proof.
  split; [|split].
  - intros Hi. unfold SegmentToHexRange.
    replace ((i <? 0) || (n <=? i)) with true
      by (symmetry; apply orb_true_iff; destruct Hi; [left; apply Z.ltb_lt | right; apply Z.leb_le]; lia).
    unfold Errorf. cbv [run fst snd head tail verb_d wrapped]. reflexivity.
  - intros Hi Hn. unfold SegmentToHexRange, SegmentHashSpace.
    destruct (Z.ltb_spec i 0); [lia|]. destruct (Z.leb_spec n i); [lia|]. cbn [orb].
    destruct (Z.leb_spec n 0); [lia|]. destruct (Z.ltb_spec 256 n); [|lia].
    unfold Errorf. cbv [run fst snd head tail verb_d wrapped].
    rewrite key_facts.append_empty_r. reflexivity.
  - intros Hi Hn.
    destruct (SegmentHashSpace_elements n ltac:(lia)) as (segs & Hrun & Hlen & Hlook).
    specialize (Hlook (Z.to_nat i) ltac:(lia)).
    unfold SegmentToHexRange. rewrite Hrun.
    destruct (Z.ltb_spec i 0); [lia|]. destruct (Z.leb_spec n i); [lia|]. cbn [orb].
    destruct (Z.leb_spec (Z.of_nat (length segs)) i); [lia|].
    rewrite Hlook. eauto.
Qed.

Lemma SegmentToHexRange_errors_witness :
  SegmentToHexRange 4 4 = Err (errorString "segment index 4 out of range [0, 4)")
  /\ SegmentToHexRange 0 0 = Err (errorString "segment index 0 out of range [0, 0)")
  /\ SegmentToHexRange 3 257 = Err (errorString "segments cannot exceed 256, got 257")
  /\ exists lo hi, SegmentToHexRange 3 4 = Ok (lo, hi).
Proof.
  split; [apply (proj1 (SegmentToHexRange_errors 4 4)); lia|].
  split; [apply (proj1 (SegmentToHexRange_errors 0 0)); lia|].
  split; [apply (proj1 (proj2 (SegmentToHexRange_errors 3 257))); lia|].
  apply (proj2 (proj2 (SegmentToHexRange_errors 3 4))); lia.
Defined.

(** *** The statement's filter against [HashInSegment] *)

Lemma key_two_bytes (key : string) :
  (2 <= String.length key)%nat ->
  exists a b rest, key = String a (String b rest)
    /\ substring 0 2 key = String a (String b EmptyString).
Proof.
  destruct key as [|a [|b rest]]; cbn [String.length]; try lia.
  intros _. exists a, b, rest. split; [reflexivity|]. cbn. now destruct rest.
Qed.

Lemma str_lt_two_bytes key c d :
  (2 <= String.length key)%nat ->
  str_lt key (String c (String d EmptyString))
  = str_lt (substring 0 2 key) (String c (String d EmptyString)).
Proof.
  intros Hk. destruct (key_two_bytes key Hk) as (a & b & rest & -> & ->).
  unfold str_lt, String.ltb. rewrite compare_two_bytes.
  destruct (String.compare _ _); try reflexivity. now destruct rest.
Qed.

Lemma str_ge_two_bytes key c d :
  (2 <= String.length key)%nat ->
  str_ge key (String c (String d EmptyString))
  = str_ge (substring 0 2 key) (String c (String d EmptyString)).
Proof.
  intros Hk. rewrite !str_ge_not_lt. f_equal. now apply str_lt_two_bytes.
Qed.

Lemma str_le_two_bytes key c d :
  (2 <= String.length key)%nat ->
  str_le key (String c (String d EmptyString))
  = str_lt (substring 0 2 key) (String c (String d EmptyString))
    || String.eqb key (String c (String d EmptyString)).
Proof.
  intros Hk. destruct (key_two_bytes key Hk) as (a & b & rest & -> & ->).
  unfold str_le, str_lt, String.leb, String.ltb. rewrite compare_two_bytes.
  destruct (String.compare (String a (String b EmptyString)) (String c (String d EmptyString)))
    eqn:Hcmp.
  - apply String.compare_eq_iff in Hcmp. inversion Hcmp; subst.
    destruct rest as [|x rest]; cbn [orb].
    + now rewrite String.eqb_refl.
    + symmetry. apply String.eqb_neq. discriminate.
  - reflexivity.
  - cbn [orb]. symmetry. apply String.eqb_neq. intros Heq. inversion Heq; subst.
    rewrite compare_refl in Hcmp. discriminate.
Qed.

(** On a segment whose two boundaries are two bytes long (every segment but
    the last of a partition) the filter of [querySegmentInTx] and
    [HashInSegment] accept the same keys of two bytes or more. *)
Theorem in_segment_HashInSegment (seg : Segment) (key : string) :
  String.length (StartHex seg) = 2%nat -> String.length (EndHex seg) = 2%nat ->
  (2 <= String.length key)%nat ->
  in_segment seg key = HashInSegment key seg.
Proof.
  intros Hs He Hk. unfold in_segment, HashInSegment, len.
  destruct (Z.ltb_spec (Z.of_nat (String.length key)) 2); [lia|].
  destruct (StartHex seg) as [|c [|d [|? ?]]]; try discriminate Hs.
  destruct (EndHex seg) as [|c' [|d' [|? ?]]] eqn:Hend; try discriminate He.
  replace (String.eqb (String c' (String d' EmptyString)) "100") with false
    by (symmetry; apply String.eqb_neq; discriminate).
  now rewrite str_ge_two_bytes, str_lt_two_bytes.
Qed.

Lemma in_segment_HashInSegment_witness :
  in_segment fixtures.seg_00_40 "3fabc123def456"
  = HashInSegment "3fabc123def456" fixtures.seg_00_40.
Proof. apply in_segment_HashInSegment; [reflexivity | reflexivity | cbn; lia]. Defined.

(** *** Which segment's statement reads a key *)

Lemma intToHex_not_sentinel v : 0 <= v < 256 -> String.eqb (intToHex v) "100" = false.
Proof.
  intros Hv. destruct (intToHex_two_bytes v Hv) as (a & b & -> & _).
  apply String.eqb_neq. discriminate.
Qed.

(** The filter on segment [j] of [n], for a key whose first two bytes print
    the value [v]. *)
Lemma in_segment_value n (j : nat) key v :
  1 <= n <= 256 -> (j < Z.to_nat n)%nat -> 0 <= v < 256 ->
  (2 <= String.length key)%nat -> substring 0 2 key = intToHex v ->
  let q := 256 / n in
  let r := 256 mod n in
  in_segment (mkSegment (Z.of_nat j) (intToHex (boundary q r (Z.of_nat j)))
                        (intToHex (boundary q r (Z.of_nat j + 1)))) key
  = (boundary q r (Z.of_nat j) <=? v)
    && (if Z.of_nat j <? n - 1 then v <? boundary q r (Z.of_nat j + 1)
        else (v <? 255) || String.eqb key "ff").
Proof.
  intros Hn Hj Hv Hk Hp q r.
  destruct (quot_rem_256 n Hn) as (_ & _ & Hq1 & Hm & Hb). fold q r in Hq1, Hm, Hb.
  assert (H0 : 0 <= boundary q r (Z.of_nat j)) by (unfold boundary; nia).
  assert (Hlo : boundary q r (Z.of_nat j) < 256).
  { rewrite <- Hb. apply boundary_strict; lia. }
  unfold in_segment. cbn [StartHex EndHex].
  destruct (intToHex_two_bytes _ (conj H0 Hlo)) as (c & d & Hcd & _).
  rewrite Hcd, str_ge_two_bytes, <- Hcd, Hp by exact Hk.
  rewrite (proj2 (intToHex_order v _ Hv (conj H0 Hlo))). f_equal.
  destruct (Z.ltb_spec (Z.of_nat j) (n - 1)) as [Hin|Hlast].
  - assert (Hhi : 0 <= boundary q r (Z.of_nat j + 1) < 256).
    { split; [unfold boundary; nia|]. rewrite <- Hb. apply boundary_strict; lia. }
    rewrite intToHex_not_sentinel by exact Hhi.
    destruct (intToHex_two_bytes _ Hhi) as (c' & d' & Hcd' & _).
    rewrite Hcd', str_lt_two_bytes, <- Hcd', Hp by exact Hk.
    apply (intToHex_order v _ Hv Hhi).
  - replace (Z.of_nat j + 1) with n by lia. rewrite Hb, intToHex_256.
    change (String.eqb "100" "100") with true. cbv iota.
    rewrite (str_le_two_bytes key "f" "f" Hk), Hp. f_equal.
    change "ff"%string with (intToHex 255).
    apply (intToHex_order v 255 Hv). lia.
Qed.

(** Over the segments of any partition, the filters of [querySegmentInTx]
    split the keys by their first two hex digits, with one exception: a key
    that starts with "ff" and goes on is accepted by no segment, because the
    last segment asks for [hash <= 'ff']. The key "ff" itself and every key
    with a smaller prefix is accepted by exactly one segment. *)
Theorem segment_filters_split_keys n key v :
  1 <= n <= 256 -> 0 <= v < 256 ->
  (2 <= String.length key)%nat -> substring 0 2 key = intToHex v ->
  exists segs,
    SegmentHashSpace n = Ok segs
    /\ if (v <? 255) || String.eqb key "ff"
       then exists (i : nat) s,
              segs !! i = Some s /\ in_segment s key = true
              /\ forall (j : nat) t, segs !! j = Some t -> in_segment t key = true -> j = i
       else forall (j : nat) t, segs !! j = Some t -> in_segment t key = false.
Proof.
  intros Hn Hv Hk Hp.
  destruct (quot_rem_256 n Hn) as (_ & _ & Hq1 & Hm & Hb).
  destruct (SegmentHashSpace_elements n Hn) as (segs & Hrun & Hlen & Hlook).
  set (q := 256 / n) in *. set (r := 256 mod n) in *.
  assert (Hin : forall (j : nat) t, segs !! j = Some t ->
            (j < Z.to_nat n)%nat
            /\ in_segment t key
               = (boundary q r (Z.of_nat j) <=? v)
                 && (if Z.of_nat j <? n - 1 then v <? boundary q r (Z.of_nat j + 1)
                     else (v <? 255) || String.eqb key "ff")).
  { intros j t Ht. assert (Hj : (j < Z.to_nat n)%nat).
    { rewrite <- Hlen. eapply lookup_lt_Some; eauto. }
    split; [exact Hj|]. rewrite (Hlook j Hj) in Ht. inversion Ht; subst t.
    apply in_segment_value; assumption. }
  exists segs. split; [exact Hrun|].
  destruct ((v <? 255) || String.eqb key "ff") eqn:Hcase.
  - destruct (boundary_locate q r (Z.to_nat n) v) as (i & Hi & Hiv); try lia.
    { rewrite Z2Nat.id by lia. lia. }
    exists i. eexists. split; [apply Hlook; exact Hi|]. split.
    + rewrite (proj2 (Hin i _ (Hlook i Hi))).
      apply andb_true_iff. split; [apply Z.leb_le; lia|].
      destruct (Z.of_nat i <? n - 1); [apply Z.ltb_lt; lia | reflexivity].
    + intros j t Ht Hc. destruct (Hin j t Ht) as [Hj Hval]. rewrite Hval in Hc.
      apply andb_true_iff in Hc. destruct Hc as [Hc1%Z.leb_le Hc2].
      assert (Hc3 : v < boundary q r (Z.of_nat j + 1)).
      { destruct (Z.ltb_spec (Z.of_nat j) (n - 1)); [apply Z.ltb_lt, Hc2|].
        replace (Z.of_nat j + 1) with n by lia. lia. }
      destruct (Nat.lt_trichotomy j i) as [Hlt|[Heq|Hgt]]; [|exact Heq|].
      * assert (boundary q r (Z.of_nat j + 1) <= boundary q r (Z.of_nat i))
          by (apply boundary_mono; lia). lia.
      * assert (boundary q r (Z.of_nat i + 1) <= boundary q r (Z.of_nat j))
          by (apply boundary_mono; lia). lia.
  - intros j t Ht. destruct (Hin j t Ht) as [Hj ->].
    apply orb_false_iff in Hcase. destruct Hcase as [Hv255%Z.ltb_ge _].
    apply andb_false_iff. right.
    destruct (Z.ltb_spec (Z.of_nat j) (n - 1)) as [Hlt|_]; [|reflexivity].
    apply Z.ltb_ge.
    assert (boundary q r (Z.of_nat j + 1) < boundary q r n)
      by (apply boundary_strict; lia). lia.
Qed.

(** The package's own test table, split in four: the key "bfabc123def456"
    is read by one segment, and "ffabc123def456" by none. *)
Lemma segment_filters_split_keys_witness :
  exists segs,
    SegmentHashSpace 4 = Ok segs
    /\ (exists (i : nat) s, segs !! i = Some s /\ in_segment s "bfabc123def456" = true)
    /\ (forall (j : nat) t, segs !! j = Some t -> in_segment t "ffabc123def456" = false).
Proof.
  destruct (segment_filters_split_keys 4 "bfabc123def456" 191) as (segs & Hrun & Hone);
    [lia | lia | cbn; lia | reflexivity |].
  destruct (segment_filters_split_keys 4 "ffabc123def456" 255) as (segs' & Hrun' & Hnone);
    [lia | lia | cbn; lia | reflexivity |].
  rewrite Hrun in Hrun'. inversion Hrun'; subst segs'.
  exists segs. split; [exact Hrun|]. split.
  - cbn in Hone. destruct Hone as (i & s & Hs & Ht & _). eauto.
  - exact Hnone.
Defined.

End filter_facts.

(** ** Cursor pagination against the table *)
Module pagination_facts.
Import world query_facts export_facts order_facts stream_facts.

(** The rows of the table the segment's statement accepts without a cursor,
    and the same in key order. *)
Definition matching (cfg : config.Config) (seg : segment.Segment) (table : list DbRow)
  : list DbRow :=
  List.filter (row_filter cfg seg "") table.

Definition in_key_order (cfg : config.Config) (seg : segment.Segment) (table : list DbRow)
  : list DbRow :=
  mariadb.order_by_hash (matching cfg seg table).

Definition hash_lt (a b : DbRow) : Prop := str_lt (c_hash a) (c_hash b) = true.

Definition after (cursor : string) (r : DbRow) : bool := after_cursor cursor (c_hash r).

(** *** Sorting and filtering commute *)

Lemma row_filter_cursor cfg seg cursor r :
  row_filter cfg seg cursor r = row_filter cfg seg "" r && after cursor r.
Proof.
  unfold row_filter, after, after_cursor. cbn [String.eqb].
  destruct (c_tenantid r =? config.TenantID cfg), (in_segment seg (c_hash r)),
    (if String.eqb cursor "" then true else str_gt (c_hash r) cursor); reflexivity.
Qed.

Lemma filter_twice {A} (p q : A -> bool) (l : list A) :
  List.filter (fun x => q x && p x) l = List.filter p (List.filter q l).
Proof.
  induction l as [|x l IH]; [reflexivity|]. cbn [List.filter].
  destruct (q x); cbn [andb List.filter]; [destruct (p x); now rewrite IH | exact IH].
Qed.

Lemma hash_le_StronglySorted l : Sorted hash_le l -> StronglySorted hash_le l.
Proof.
  apply Sorted_StronglySorted. intros a b c. unfold hash_le. apply str_le_trans.
Qed.

Lemma insert_by_hash_front x l :
  Forall (hash_le x) l -> mariadb.insert_by_hash x l = x :: l.
Proof.
  destruct l as [|y l]; [reflexivity|]. intros H. inversion H; subst.
  cbn [mariadb.insert_by_hash].
  match goal with Hxy : hash_le x y |- _ => unfold hash_le in Hxy; now rewrite Hxy end.
Qed.

Lemma Forall_filter {A} (P : A -> Prop) (p : A -> bool) l :
  Forall P l -> Forall P (List.filter p l).
Proof.
  induction 1 as [|x l Hx Hl IH]; cbn [List.filter]; [constructor|].
  destruct (p x); [constructor|]; assumption.
Qed.

Lemma filter_insert_by_hash (p : DbRow -> bool) x l :
  StronglySorted hash_le l ->
  List.filter p (mariadb.insert_by_hash x l)
  = if p x then mariadb.insert_by_hash x (List.filter p l) else List.filter p l.
Proof.
  induction 1 as [|y l Hs IH Hy]; cbn [mariadb.insert_by_hash List.filter].
  - destruct (p x); reflexivity.
  - destruct (str_le (c_hash x) (c_hash y)) eqn:Hxy.
    + cbn [List.filter]. destruct (p x); [|reflexivity].
      symmetry. apply insert_by_hash_front.
      assert (Hall : Forall (hash_le x) (y :: l)).
      { constructor; [exact Hxy|]. eapply Forall_impl; [exact Hy|].
        intros z Hz. unfold hash_le in *. eapply str_le_trans; eauto. }
      apply (Forall_filter _ p) in Hall. exact Hall.
    + cbn [List.filter]. rewrite IH.
      destruct (p y), (p x); cbn [mariadb.insert_by_hash]; rewrite ?Hxy; reflexivity.
Qed.

Lemma order_by_hash_filter (p : DbRow -> bool) l :
  mariadb.order_by_hash (List.filter p l) = List.filter p (mariadb.order_by_hash l).
Proof.
  induction l as [|x l IH]; [reflexivity|].
  cbn [List.filter mariadb.order_by_hash].
  rewrite filter_insert_by_hash by apply hash_le_StronglySorted, order_by_hash_sorted.
  destruct (p x); [cbn [mariadb.order_by_hash]; now rewrite IH | exact IH].
Qed.

(** A page is cut from the rows in key order that lie after the cursor. *)
Lemma page_cut cfg seg cursor table :
  page cfg seg cursor table
  = map exporter.scan
        (take (Z.to_nat (config.BatchSize cfg))
              (List.filter (after cursor) (in_key_order cfg seg table))).
Proof.
  unfold page, in_key_order, matching. do 2 f_equal.
  rewrite <- order_by_hash_filter. f_equal.
  rewrite <- filter_twice. apply filter_ext_bool. intros r. apply row_filter_cursor.
Qed.

(** *** Distinct keys *)

Lemma insert_by_hash_perm x l : Permutation (mariadb.insert_by_hash x l) (x :: l).
Proof.
  induction l as [|y l IH]; cbn [mariadb.insert_by_hash]; [reflexivity|].
  destruct (str_le (c_hash x) (c_hash y)); [reflexivity|].
  rewrite IH. apply perm_swap.
Qed.

Lemma order_by_hash_perm l : Permutation (mariadb.order_by_hash l) l.
Proof.
  induction l as [|x l IH]; cbn [mariadb.order_by_hash]; [reflexivity|].
  rewrite insert_by_hash_perm. now constructor.
Qed.

Lemma strictly_sorted l :
  StronglySorted hash_le l -> List.NoDup (map c_hash l) -> StronglySorted hash_lt l.
Proof.
  induction 1 as [|x l Hs IH Hx]; intros Hnd; [constructor|].
  cbn [map] in Hnd. inversion Hnd as [|? ? Hnotin Hnd']; subst.
  constructor; [apply IH, Hnd'|].
  rewrite List.Forall_forall in Hx |- *. intros z Hz. specialize (Hx z Hz).
  unfold hash_le in Hx. apply str_le_lt_or_eq in Hx. destruct Hx as [Hlt|Heq]; [exact Hlt|].
  exfalso. apply Hnotin. rewrite Heq. now apply in_map.
Qed.

Lemma in_key_order_strict cfg seg table :
  List.NoDup (map c_hash (matching cfg seg table)) ->
  StronglySorted hash_lt (in_key_order cfg seg table).
Proof.
  intros Hnd. unfold in_key_order. apply strictly_sorted.
  - apply hash_le_StronglySorted, order_by_hash_sorted.
  - eapply Permutation_NoDup; [|exact Hnd].
    apply Permutation_map. symmetry. apply order_by_hash_perm.
Qed.

Lemma StronglySorted_split {A} (R : A -> A -> Prop) (l1 : list A) x l2 :
  (forall a b c, R a b -> R b c -> R a c) ->
  StronglySorted R (l1 ++ x :: l2) ->
  Forall (fun a => R a x) l1 /\ Forall (R x) l2 /\ StronglySorted R l2.
Proof.
  intros Htr. induction l1 as [|y l1 IH]; cbn [app]; intros H.
  - inversion H; subst. auto.
  - inversion H as [|? ? Hs Hy]; subst. destruct (IH Hs) as (H1 & H2 & H3).
    split; [|auto]. constructor; [|exact H1].
    rewrite List.Forall_forall in Hy. apply Hy. apply in_or_app. right. now left.
Qed.

(** After the key of a row of a strictly ascending list lie exactly the rows
    behind it. *)
Lemma filter_after_row before d behind :
  StronglySorted hash_lt (before ++ d :: behind) -> c_hash d <> EmptyString ->
  List.filter (after (c_hash d)) (before ++ d :: behind) = behind.
Proof.
  intros Hs Hne.
  destruct (StronglySorted_split hash_lt before d behind) as (Hb & Ha & _); [|exact Hs|].
  { intros a b c. unfold hash_lt. apply str_lt_trans. }
  clear Hs.
  assert (Hafter : forall r, after (c_hash d) r = str_gt (c_hash r) (c_hash d)).
  { intros r. unfold after, after_cursor.
    destruct (String.eqb_spec (c_hash d) ""); [contradiction | reflexivity]. }
  rewrite List.filter_app. cbn [List.filter].
  replace (List.filter (after (c_hash d)) before) with (@nil DbRow).
  2:{ symmetry. induction Hb as [|y l Hy Hl IH]; [reflexivity|]. cbn [List.filter].
      rewrite Hafter. unfold str_gt.
      replace (String.ltb (c_hash d) (c_hash y)) with false; [exact IH|].
      symmetry. unfold hash_lt, str_lt in Hy.
      destruct (String.ltb (c_hash d) (c_hash y)) eqn:Hdy; [|reflexivity].
      pose proof (str_lt_trans _ _ _ Hy Hdy) as Hyy. rewrite str_lt_irrefl in Hyy.
      discriminate. }
  rewrite Hafter. unfold str_gt. fold (str_lt (c_hash d) (c_hash d)).
  rewrite str_lt_irrefl. cbn [app].
  induction Ha as [|y l Hy Hl IH]; [reflexivity|]. cbn [List.filter].
  rewrite Hafter. unfold str_gt. unfold hash_lt, str_lt in Hy. rewrite Hy. now rewrite IH.
Qed.

(** *** The pages, read off the rows in key order *)

Lemma last_map {A B} (f : A -> B) (l : list A) : last (map f l) = option_map f (last l).
Proof.
  induction l as [|x l IH]; [reflexivity|].
  cbn [map]. rewrite !last_cons, IH. destruct (last l); reflexivity.
Qed.

Lemma take_take_drop {A} (n m : nat) (l : list A) :
  take n l ++ take m (drop n l) = take (n + m) l.
Proof.
  revert l. induction n as [|n IH]; intros l; [reflexivity|].
  destruct l as [|x l]; [cbn [take drop app Nat.add]; now rewrite take_nil|].
  cbn [take drop app Nat.add]. now rewrite IH.
Qed.

(** With distinct non-empty keys, the pages read from a cursor that stands
    at the end of [before] are the rows behind it, in order, cut after
    [rounds] full pages. *)
Lemma paginate_rows cfg seg table rounds :
  0 < config.BatchSize cfg ->
  Forall (fun r => c_hash r <> EmptyString) (in_key_order cfg seg table) ->
  StronglySorted hash_lt (in_key_order cfg seg table) ->
  forall before behind cursor,
    in_key_order cfg seg table = before ++ behind ->
    (before = [] /\ cursor = EmptyString
     \/ exists d, last before = Some d /\ cursor = c_hash d) ->
    concat (paginate rounds cfg seg cursor table)
    = map exporter.scan (take (rounds * Z.to_nat (config.BatchSize cfg)) behind).
Proof.
  intros Hb Hne Hs.
  set (B := Z.to_nat (config.BatchSize cfg)).
  induction rounds as [|rounds IH]; intros before behind cursor Hsplit Hcur; [reflexivity|].
  assert (Hfilter : List.filter (after cursor) (in_key_order cfg seg table) = behind).
  { destruct Hcur as [[-> ->]|(d & Hlast & ->)].
    - cbn [app] in Hsplit. rewrite Hsplit.
      clear. induction behind as [|x l IH]; [reflexivity|]. cbn. now rewrite IH.
    - assert (Hbefore : exists pre, before = pre ++ [d]).
      { apply last_Some in Hlast. exact Hlast. }
      destruct Hbefore as (pre & ->). rewrite <- app_assoc in Hsplit. cbn [app] in Hsplit.
      rewrite Hsplit. apply filter_after_row.
      + rewrite <- Hsplit. exact Hs.
      + rewrite List.Forall_forall in Hne. apply Hne. rewrite Hsplit.
        apply in_or_app. right. now left. }
  cbn [paginate]. rewrite page_cut, Hfilter. fold B.
  rewrite last_map.
  destruct (last (take B behind)) as [d|] eqn:Hlast; cbn [option_map].
  - rewrite length_map.
    destruct (Z.ltb_spec (Z.of_nat (length (take B behind))) (config.BatchSize cfg))
      as [Hshort|Hfull].
    + cbn [concat]. rewrite app_nil_r.
      assert (Hlen : (length (take B behind) < B)%nat) by (unfold B in *; lia).
      rewrite (take_all _ _ Hlen).
      rewrite length_take in Hlen. f_equal. symmetry. apply take_ge. lia.
    + cbn [concat].
      assert (Hlen : length (take B behind) = B).
      { rewrite length_take in *. unfold B in *. lia. }
      assert (Hpre : exists pre, take B behind = pre ++ [d])
        by (apply last_Some in Hlast; exact Hlast).
      change (exporter.Hash (exporter.scan d)) with (c_hash d).
      rewrite (IH (before ++ take B behind) (drop B behind) (c_hash d)).
      * rewrite <- map_app. f_equal. rewrite take_take_drop. reflexivity.
      * rewrite <- app_assoc, take_drop. exact Hsplit.
      * right. exists d. split; [|reflexivity].
        destruct Hpre as (pre & ->). rewrite app_assoc. apply last_snoc.
  - cbn [concat]. apply last_None in Hlast.
    assert (Hnil : behind = []).
    { destruct behind as [|x l]; [reflexivity|].
      destruct B as [|B'] eqn:HB; [unfold B in HB; lia | discriminate Hlast]. }
    rewrite Hnil. destruct (S rounds * B)%nat; reflexivity.
Qed.

Lemma matching_not_empty_key cfg seg table :
  segment.StartHex seg <> EmptyString ->
  Forall (fun r => c_hash r <> EmptyString) (in_key_order cfg seg table).
Proof.
  intros Hstart. rewrite List.Forall_forall. intros r Hr.
  unfold in_key_order, matching in Hr. apply order_by_hash_In, filter_In in Hr.
  destruct Hr as [_ Hf]. unfold row_filter in Hf.
  apply andb_true_iff in Hf. destruct Hf as [_ Hseg].
  unfold in_segment in Hseg. apply andb_true_iff in Hseg. destruct Hseg as [Hge _].
  intros Hempty. rewrite Hempty in Hge. unfold str_ge, String.leb in Hge.
  destruct (segment.StartHex seg); [contradiction | discriminate].
Qed.

(** The rows an export holds. *)
Definition exported (cfg : config.Config) (seg : segment.Segment) (table : list DbRow)
  : list exporter.Row :=
  map exporter.scan
      (take (Z.to_nat exporter.maxBatches * Z.to_nat (config.BatchSize cfg))
            (in_key_order cfg seg table)).

Lemma pages_of_exported cfg seg w :
  0 < config.BatchSize cfg -> segment.StartHex seg <> EmptyString ->
  List.NoDup (map c_hash (matching cfg seg (snapshot cfg w))) ->
  concat (pages_of cfg seg w) = exported cfg seg (snapshot cfg w).
Proof.
  intros Hb Hstart Hnd. unfold pages_of, exported.
  apply (paginate_rows cfg seg (snapshot cfg w) _ Hb
           (matching_not_empty_key _ _ _ Hstart) (in_key_order_strict _ _ _ Hnd) []).
  - reflexivity.
  - left. auto.
Qed.

(** With the keys of the tenant's rows distinct (the table's unique key), a
    positive page size and a segment with a start boundary, an export that
    returns without error holds the matching rows of the snapshot in key
    order, each once, up to [maxBatches] pages of them: all of them when
    they are no more than [maxBatches * BatchSize], and silently only the
    first that many otherwise. No object is returned exactly when no row
    matches; the object returned is the header and these rows, and its row
    count is their number. *)
Theorem ExportSegment_exports_matching_rows cfg seg w o w' :
  identifier (tableRef cfg) ->
  0 < config.BatchSize cfg -> segment.StartHex seg <> EmptyString ->
  List.NoDup (map c_hash (matching cfg seg (snapshot cfg w))) ->
  exporter.ExportSegment cfg seg w = (Ok o, w') ->
  let all := map exporter.scan (in_key_order cfg seg (snapshot cfg w)) in
  let kept := exported cfg seg (snapshot cfg w) in
  (Z.of_nat (length all) <= exporter.maxBatches * config.BatchSize cfg -> kept = all)
  /\ (o = None <-> matching cfg seg (snapshot cfg w) = [])
  /\ (forall f, o = Some f ->
        exporter.RowCount f = Z.of_nat (length kept)
        /\ objects w' !! exporter.S3Key f
           = Some (exporter.csv_Write exporter.header +:+ exporter.write_rows kept)).
Proof.
  intros Hid Hb Hstart Hnd H all kept.
  pose proof (pages_of_exported cfg seg w Hb Hstart Hnd) as Hpages. fold kept in Hpages.
  destruct (ExportSegment_returns _ _ _ _ _ Hid H) as (evs & _ & _ & _ & Ho).
  pose proof (paginate_not_empty (Z.to_nat exporter.maxBatches) cfg seg "" (snapshot cfg w))
    as Hne. fold (pages_of cfg seg w) in Hne.
  assert (Hkept : kept = [] <-> matching cfg seg (snapshot cfg w) = []).
  { unfold kept, exported, in_key_order. split.
    - intros Hk. apply map_eq_nil in Hk.
      destruct (matching cfg seg (snapshot cfg w)) as [|y m'] eqn:Hm; [reflexivity|].
      exfalso. pose proof (order_by_hash_perm (y :: m')) as Hp.
      destruct (mariadb.order_by_hash (y :: m')) as [|x l].
      + apply Permutation_nil in Hp. discriminate.
      + unfold exporter.maxBatches in Hk.
        destruct (Z.to_nat 10000 * Z.to_nat (config.BatchSize cfg))%nat eqn:Hn; [lia|].
        discriminate Hk.
    - intros ->. cbn [mariadb.order_by_hash]. now rewrite take_nil. }
  split; [|split].
  - intros Hall. unfold kept, exported, all. f_equal. apply take_ge.
    unfold all in Hall. rewrite length_map in Hall. unfold exporter.maxBatches in *. nia.
  - rewrite <- Hkept, <- Hpages. destruct o as [f|].
    + destruct Ho as (Hp & _). split; [discriminate|].
      intros Hc. exfalso. apply Hp. apply concat_pages_nil; assumption.
    + destruct Ho as (Hp & _). rewrite Hp. split; reflexivity.
  - intros f ->. destruct Ho as (Hp & -> & Hobj & _).
    cbn [exporter.RowCount exporter.S3Key]. rewrite Hpages. split; [reflexivity|].
    rewrite Hobj, lookup_insert_eq, joined_csv_parts_header by exact Hp.
    now rewrite Hpages.
Qed.

(** Segment 00-40 of the test table, two rows to a page: the object holds
    the three matching rows. *)
Lemma ExportSegment_exports_matching_rows_witness :
  exists f w',
    exporter.ExportSegment fixtures.cfg_small fixtures.seg_00_40 fixtures.calm
    = (Ok (Some f), w')
    /\ exporter.RowCount f = 3
    /\ objects w' !! exporter.S3Key f
       = Some (exporter.csv_Write exporter.header
               +:+ exporter.write_rows
                     (map exporter.scan
                          (map fixtures.test_row
                               ["00abc123def456"; "1aabc123def456"; "3fabc123def456"]))).
Proof.
  destruct (exporter.ExportSegment fixtures.cfg_small fixtures.seg_00_40 fixtures.calm)
    as [r w'] eqn:E.
  assert (Hr : exists f, r = Ok (Some f)).
  { apply (f_equal fst) in E. cbn [fst] in E. rewrite <- E. eexists. vm_compute. reflexivity. }
  destruct Hr as (f & ->). exists f, w'. split; [reflexivity|].
  assert (Hnd : List.NoDup (map c_hash (matching fixtures.cfg_small fixtures.seg_00_40
                                          (snapshot fixtures.cfg_small fixtures.calm)))).
  { vm_compute. repeat constructor; cbn; intuition discriminate. }
  destruct (ExportSegment_exports_matching_rows
              fixtures.cfg_small fixtures.seg_00_40 fixtures.calm _ _ identifier_fixture
              ltac:(reflexivity) ltac:(discriminate) Hnd E) as (_ & _ & Hf).
  destruct (Hf f eq_refl) as [Hcount Hobj].
  split; [rewrite Hcount; vm_compute; reflexivity|].
  rewrite Hobj. vm_compute. reflexivity.
Defined.

End pagination_facts.

(** ** What every run of [ExportSegment] leaves behind *)
Module lifecycle_facts.
Import world.

Definition is_query (ev : event) : bool :=
  match ev with EvQuery _ _ _ => true | _ => false end.

(** The statements a trace records. *)
Definition queries (tr : list event) : nat := length (List.filter is_query tr).

Lemma queries_app a b : queries (a ++ b) = (queries a + queries b)%nat.
Proof. unfold queries. now rewrite List.filter_app, length_app. Qed.

Lemma queries_log ev w :
  queries (trace (log ev w)) = (queries (trace w) + if is_query ev then 1 else 0)%nat.
Proof. cbn [log trace]. rewrite queries_app. unfold queries at 2. cbn. now destruct (is_query ev). Qed.


(** A step that reads or changes neither the bucket's objects nor the
    transaction, and sends no statement. *)
Definition aside (w w' : World) : Prop :=
  objects w' = objects w /\ tx w' = tx w /\ queries (trace w') = queries (trace w).

Lemma aside_refl w : aside w w.
Proof. repeat split. Qed.

Lemma aside_trans w1 w2 w3 : aside w1 w2 -> aside w2 w3 -> aside w1 w3.
Proof. unfold aside. intros (? & ? & ?) (? & ? & ?). repeat split; congruence. Qed.

Arguments queries : simpl never.

Ltac aside_log :=
  unfold aside; cbn; rewrite ?queries_app; cbn; rewrite ?Nat.add_0_r; repeat split; auto.

Lemma NewMultipartUploadStream_aside cfg s3Key w :
  aside w (snd (s3.NewMultipartUploadStream cfg s3Key w)).
Proof.
  unfold s3.NewMultipartUploadStream, CreateMultipartUpload, s3_fault.
  destruct (s3_script w) as [|[e|] script]; aside_log.
Qed.

Lemma api_UploadPart_aside id pn body w : aside w (snd (UploadPart id pn body w)).
Proof.
  unfold UploadPart, s3_fault.
  destruct (s3_script w) as [|[e|] script]; cbn [uploads set_s3_script];
    destruct (uploads w !! id); aside_log.
Qed.

Lemma abortMultipartUpload_aside b k uploadID w :
  aside w (snd (s3.abortMultipartUpload b k uploadID w)).
Proof.
  destruct uploadID as [id|]; [|apply aside_refl].
  unfold s3.abortMultipartUpload, AbortMultipartUpload, s3_fault.
  destruct (s3_script w) as [|[e|] script]; cbn [uploads set_s3_script];
    destruct (uploads w !! id); aside_log.
Qed.

Lemma upload_attempts_aside todo : forall attempt m data po err w,
  aside w (snd (s3.upload_attempts todo attempt m data po err w)).
Proof.
  induction todo as [|todo IH]; intros attempt m data po err w; [apply aside_refl|].
  cbn [s3.upload_attempts].
  assert (Hcall : aside w (snd (match s3.uploadID m with
                                | Some id => UploadPart id (s3.partNumber m) data w
                                | None => (Err s3.nil_uploadID, w)
                                end))).
  { destruct (s3.uploadID m); [apply api_UploadPart_aside | apply aside_refl]. }
  destruct (match s3.uploadID m with
            | Some id => UploadPart id (s3.partNumber m) data w
            | None => (Err s3.nil_uploadID, w)
            end) as [r w1].
  cbn [snd] in Hcall. destruct r as [etag|e]; [exact Hcall|].
  eapply aside_trans; [exact Hcall|]. eapply aside_trans; [|apply IH].
  destruct (attempt <? s3.maxS3Retries); [aside_log | apply aside_refl].
Qed.

Lemma UploadPart_aside m data w : aside w (snd (s3.UploadPart m data w)).
Proof.
  unfold s3.UploadPart. destruct (len data =? 0); [apply aside_refl|].
  pose proof (upload_attempts_aside (Z.to_nat s3.maxS3Retries) 1 m data None None w) as Hloop.
  destruct (s3.upload_attempts (Z.to_nat s3.maxS3Retries) 1 m data None None w)
    as [[po e] w1].
  cbn [snd] in Hloop. destruct e as [e|].
  - pose proof (abortMultipartUpload_aside (s3.bucket m) (s3.key m) (s3.uploadID m) w1) as Hab.
    destruct (s3.abortMultipartUpload (s3.bucket m) (s3.key m) (s3.uploadID m) w1) as [u w2].
    cbn [snd] in *. eapply aside_trans; eassumption.
  - destruct po; exact Hloop.
Qed.

Lemma Abort_aside m w : aside w (snd (s3.Abort m w)).
Proof. apply abortMultipartUpload_aside. Qed.

(** [Complete] changes the objects only when it returns nil. *)
Lemma Complete_aside m w :
  fst (s3.Complete m w) <> None -> aside w (snd (s3.Complete m w)).
Proof.
  unfold s3.Complete. intros Herr.
  destruct (Z.of_nat (length (s3.parts m)) =? 0).
  - pose proof (abortMultipartUpload_aside (s3.bucket m) (s3.key m) (s3.uploadID m) w) as Hab.
    destruct (s3.abortMultipartUpload (s3.bucket m) (s3.key m) (s3.uploadID m) w) as [u w1].
    exact Hab.
  - assert (Hcall : forall r w1,
              match s3.uploadID m with
              | Some id => CompleteMultipartUpload id (s3.parts m) w
              | None => (Err s3.nil_uploadID, w)
              end = (r, w1) ->
              match r with Ok _ => True | Err _ => aside w w1 end).
    { intros r w1 H. destruct (s3.uploadID m) as [id|].
      - unfold CompleteMultipartUpload, s3_fault in H.
        destruct (s3_script w) as [|[e|] script]; cbn [uploads set_s3_script] in H;
          destruct (uploads w !! id) as [u|];
          try destruct (s3.parts m) as [|p ps];
          try destruct (assemble (up_parts u) None (p :: ps));
          inversion H; subst; try exact I; aside_log.
      - inversion H; subst. apply aside_refl. }
    destruct (match s3.uploadID m with
              | Some id => CompleteMultipartUpload id (s3.parts m) w
              | None => (Err s3.nil_uploadID, w)
              end) as [r w1] eqn:Hc.
    specialize (Hcall r w1 eq_refl). destruct r as [[]|e].
    + cbn in Herr. contradiction.
    + pose proof (abortMultipartUpload_aside (s3.bucket m) (s3.key m) (s3.uploadID m) w1)
        as Hab.
      destruct (s3.abortMultipartUpload (s3.bucket m) (s3.key m) (s3.uploadID m) w1) as [u w2].
      cbn [snd] in *. eapply aside_trans; eassumption.
Qed.

(** [Complete] leaves the transaction alone and sends no statement, whatever
    it returns. *)
Lemma Complete_tx m w :
  tx (snd (s3.Complete m w)) = tx w
  /\ queries (trace (snd (s3.Complete m w))) = queries (trace w).
Proof.
  destruct (fst (s3.Complete m w)) as [e|] eqn:Herr.
  - destruct (Complete_aside m w) as (_ & H1 & H2); [rewrite Herr; discriminate | auto].
  - destruct (s3.Complete m w) as [err w'] eqn:Hc. cbn [fst snd] in *. subst err.
    apply stream_facts.Complete_cases in Hc.
    destruct Hc as (evs & (_ & _ & Htx & Htr) & _ & Hcases).
    split; [exact Htx|]. rewrite Htr, queries_app.
    destruct Hcases as [(_ & He & _)|[(_ & _ & id & u & body & _ & _ & _ & _ & _ & ->)
                                     |(_ & (e & He) & _)]]; try discriminate.
    unfold queries. cbn. lia.
Qed.

Lemma BeginTx_frame w :
  let r := sql.BeginTx w in
  objects (snd r) = objects w /\ queries (trace (snd r)) = queries (trace w)
  /\ tx (snd r) = if is_ok (fst r) then TxOpen else tx w.
Proof.
  unfold sql.BeginTx, db_next_fault.
  destruct (db_script w) as [|[|e|e|e] script]; cbn; rewrite ?queries_app; cbn;
    rewrite ?Nat.add_0_r; auto.
Qed.

Lemma Commit_frame w :
  let r := sql.Commit w in
  objects (snd r) = objects w /\ queries (trace (snd r)) = queries (trace w)
  /\ match fst r with
     | None => tx w = TxOpen /\ tx (snd r) = TxCommitted
     | Some _ => tx (snd r) = tx w
     end.
Proof.
  unfold sql.Commit, db_next_fault.
  destruct (db_script w) as [|[|e|e|e] script];
    cbn [tx set_db_script sql.fault_error];
    destruct (tx w) eqn:Htx; cbn; rewrite ?queries_app; cbn;
    rewrite ?Nat.add_0_r; auto.
Qed.

Lemma Rollback_frame w :
  let w' := snd (sql.Rollback w) in
  objects w' = objects w /\ queries (trace w') = queries (trace w)
  /\ tx w' = match tx w with TxOpen => TxRolledBack | s => s end.
Proof.
  unfold sql.Rollback. destruct (tx w) eqn:Htx; cbn; rewrite ?queries_app; cbn;
    rewrite ?Nat.add_0_r, ?Htx; auto.
Qed.

(** One call of [querySegmentInTx] is one statement. *)
Lemma querySegmentInTx_frame cfg seg lastHash w :
  let w' := snd (exporter.querySegmentInTx cfg seg lastHash w) in
  objects w' = objects w /\ tx w' = tx w
  /\ queries (trace w') = S (queries (trace w)).
Proof.
  unfold exporter.querySegmentInTx.
  destruct (exporter.build_query cfg seg lastHash) as [query args].
  assert (Hq : let w1 := snd (sql.QueryContext query args w) in
               objects w1 = objects w /\ tx w1 = tx w
               /\ queries (trace w1) = S (queries (trace w))).
  { unfold sql.QueryContext, db_next_fault.
    destruct (db_script w) as [|f script]; [|destruct f];
      cbn [tx tables set_db_script];
      destruct (tx w) eqn:Htx;
      try destruct (mariadb.execute (tables w) query args);
      cbn; rewrite ?queries_app; unfold queries; cbn; rewrite ?Htx; repeat split; lia. }
  destruct (sql.QueryContext query args w) as [r w1]. cbn [snd] in Hq.
  destruct r as [[rows f]|e]; [|exact Hq].
  destruct rows, f; exact Hq.
Qed.

(** The loop: at most one statement per round, and neither the objects nor
    the transaction change, however the loop is left. *)
Lemma export_batches_frame todo :
  forall cfg seg batchNum lastHash totalRows headerWritten stream w,
  let w' := snd (exporter.export_batches todo cfg seg batchNum lastHash totalRows
                                         headerWritten stream w) in
  objects w' = objects w /\ tx w' = tx w
  /\ (queries (trace w') <= queries (trace w) + todo)%nat.
Proof.
  induction todo as [|todo IH];
    intros cfg seg batchNum lastHash totalRows headerWritten stream w.
  - cbn. repeat split. lia.
  - cbn [exporter.export_batches].
    set (cursor := if batchNum =? 0 then EmptyString else lastHash).
    assert (Hq : (if batchNum =? 0 then exporter.querySegmentInTx cfg seg "" w
                  else exporter.querySegmentInTx cfg seg lastHash w)
                 = exporter.querySegmentInTx cfg seg cursor w)
      by (unfold cursor; destruct (batchNum =? 0); reflexivity).
    rewrite Hq. clear Hq.
    pose proof (querySegmentInTx_frame cfg seg cursor w) as (Ho1 & Ht1 & Hn1).
    destruct (exporter.querySegmentInTx cfg seg cursor w) as [q w1].
    cbn [snd] in *. destruct q as [rows|e]; [|cbn; repeat split; auto; lia].
    destruct (Z.of_nat (length rows) =? 0); [cbn; repeat split; auto; lia|].
    unfold exporter.rowsToCSVBytes.
    match goal with |- context [s3.UploadPart stream ?d w1] =>
      pose proof (UploadPart_aside stream d w1) as (Ho2 & Ht2 & Hn2);
      destruct (s3.UploadPart stream d w1) as [[err stream1] w2]
    end.
    cbn [snd] in *. destruct err as [e|]; [cbn; repeat split; try congruence; lia|].
    destruct (Z.of_nat (length rows) <? config.BatchSize cfg);
      [cbn; repeat split; try congruence; lia|].
    match goal with |- context [exporter.export_batches todo ?a ?b ?c ?d ?e ?f ?g ?h] =>
      pose proof (IH a b c d e f g h) as (Ho3 & Ht3 & Hn3)
    end.
    cbn zeta in *. repeat split; try congruence. lia.
Qed.

(** Whatever happens, [ExportSegment] does not leave its transaction open:
    it ends committed when the call returns without error, and otherwise
    either was never begun, was rolled back, or was committed before
    [Complete] failed. *)
Theorem ExportSegment_closes_transaction cfg seg w :
  tx w <> TxOpen ->
  let r := exporter.ExportSegment cfg seg w in
  tx (snd r) <> TxOpen
  /\ (is_ok (fst r) = true -> tx (snd r) = TxCommitted)
  /\ (tx (snd r) = tx w \/ tx (snd r) = TxCommitted \/ tx (snd r) = TxRolledBack).
Proof.
  intros Hclosed. unfold exporter.ExportSegment.
  pose proof (NewMultipartUploadStream_aside cfg (exporter.s3Key_of cfg seg) w) as (_ & Ht1 & _).
  destruct (s3.NewMultipartUploadStream cfg (exporter.s3Key_of cfg seg) w) as [r0 w1].
  cbn [snd] in Ht1. destruct r0 as [stream|e].
  2:{ cbn. rewrite Ht1. split; [exact Hclosed|]. split; [discriminate | auto]. }
  pose proof (BeginTx_frame w1) as (_ & _ & Ht2).
  destruct (sql.BeginTx w1) as [r1 w2]. cbn [fst snd] in Ht2. destruct r1 as [[]|e].
  2:{ cbn [is_ok] in Ht2. cbn [exporter.deferred_abort].
      pose proof (Abort_aside stream w2) as (_ & Ht3 & _).
      destruct (s3.Abort stream w2) as [u w3]. cbn [fst snd] in *.
      assert (Heq : tx w3 = tx w) by congruence.
      rewrite Heq. split; [exact Hclosed|]. split; [discriminate | auto]. }
  cbn [is_ok] in Ht2. unfold exporter.export_body.
  pose proof (export_batches_frame (Z.to_nat exporter.maxBatches) cfg seg 0 "" 0 false
                                   stream w2) as (_ & Ht3 & _).
  destruct (exporter.export_batches (Z.to_nat exporter.maxBatches) cfg seg 0 "" 0 false
                                    stream w2) as [[exit_ stream2] w3].
  cbn [snd] in Ht3.
  assert (Hopen : tx w3 = TxOpen) by congruence.
  destruct exit_ as [e|batchNum totalRows].
  - pose proof (Rollback_frame w3) as (_ & _ & Ht4). rewrite Hopen in Ht4.
    destruct (sql.Rollback w3) as [u w4]. cbn [snd fst exporter.deferred_abort ret] in *.
    rewrite Ht4. split; [discriminate|]. split; [discriminate | auto].
  - pose proof (Commit_frame w3) as (_ & _ & Ht4).
    destruct (sql.Commit w3) as [cerr w4]. cbn [fst snd] in Ht4.
    destruct cerr as [e|].
    + pose proof (Rollback_frame w4) as (_ & _ & Ht5). rewrite Ht4, Hopen in Ht5.
      destruct (sql.Rollback w4) as [u w5]. cbn [snd fst exporter.deferred_abort ret] in *.
      rewrite Ht5. split; [discriminate|]. split; [discriminate | auto].
    + destruct Ht4 as [_ Ht4].
      assert (Hend : forall w5, tx w5 = TxCommitted ->
                tx (snd (sql.Rollback w5)) = TxCommitted).
      { intros w5 H5. pose proof (Rollback_frame w5) as (_ & _ & Ht6).
        cbn zeta in Ht6. now rewrite H5 in Ht6. }
      destruct (totalRows =? 0).
      * pose proof (Abort_aside stream2 w4) as (_ & Ht5 & _).
        destruct (s3.Abort stream2 w4) as [u w5]. cbn [snd] in Ht5.
        specialize (Hend w5 ltac:(congruence)).
        destruct (sql.Rollback w5) as [u' w6]. cbn [snd fst exporter.deferred_abort ret] in *.
        rewrite Hend. split; [discriminate|]. auto.
      * pose proof (Complete_tx stream2 w4) as [Ht5 _].
        destruct (s3.Complete stream2 w4) as [err w5]. cbn [snd] in Ht5.
        specialize (Hend w5 ltac:(congruence)).
        destruct err as [e|];
          destruct (sql.Rollback w5) as [u' w6];
          cbn [snd fst exporter.deferred_abort ret] in *;
          rewrite Hend; (split; [discriminate|]); auto.
Qed.

Lemma ExportSegment_closes_transaction_witness :
  tx (snd (exporter.ExportSegment fixtures.cfg_small fixtures.seg_00_40
                                  fixtures.second_query_fails)) <> TxOpen
  /\ tx (snd (exporter.ExportSegment fixtures.cfg fixtures.seg_00_40 fixtures.calm))
     = TxCommitted.
Proof.
  split.
  - apply (ExportSegment_closes_transaction fixtures.cfg_small fixtures.seg_00_40
             fixtures.second_query_fails). discriminate.
  - apply (ExportSegment_closes_transaction fixtures.cfg fixtures.seg_00_40 fixtures.calm);
      [discriminate | vm_compute; reflexivity].
Defined.

(** An export that fails, or finds no row, leaves the objects of the bucket
    as they were: an object appears only with a returned file. *)
Theorem ExportSegment_publishes_only_on_success cfg seg w :
  let r := exporter.ExportSegment cfg seg w in
  (forall f, fst r <> Ok (Some f)) -> objects (snd r) = objects w.
Proof.
  unfold exporter.ExportSegment.
  pose proof (NewMultipartUploadStream_aside cfg (exporter.s3Key_of cfg seg) w) as (Ho1 & _).
  destruct (s3.NewMultipartUploadStream cfg (exporter.s3Key_of cfg seg) w) as [r0 w1].
  cbn [snd] in Ho1. destruct r0 as [stream|e]; [|intros _; exact Ho1].
  pose proof (BeginTx_frame w1) as (Ho2 & _).
  destruct (sql.BeginTx w1) as [r1 w2]. cbn [fst snd] in Ho2. destruct r1 as [[]|e].
  2:{ cbn [exporter.deferred_abort].
      pose proof (Abort_aside stream w2) as (Ho3 & _).
      destruct (s3.Abort stream w2) as [u w3]. cbn [fst snd] in *. intros _. congruence. }
  unfold exporter.export_body.
  pose proof (export_batches_frame (Z.to_nat exporter.maxBatches) cfg seg 0 "" 0 false
                                   stream w2) as (Ho3 & _).
  destruct (exporter.export_batches (Z.to_nat exporter.maxBatches) cfg seg 0 "" 0 false
                                    stream w2) as [[exit_ stream2] w3].
  cbn [snd] in Ho3.
  assert (Hrb : forall w5, objects (snd (sql.Rollback w5)) = objects w5).
  { intros w5. apply (Rollback_frame w5). }
  destruct exit_ as [e|batchNum totalRows].
  - specialize (Hrb w3). destruct (sql.Rollback w3) as [u w4].
    cbn [snd fst exporter.deferred_abort ret] in *. intros _. congruence.
  - pose proof (Commit_frame w3) as (Ho4 & _).
    destruct (sql.Commit w3) as [cerr w4]. cbn [fst snd] in Ho4.
    destruct cerr as [e|].
    + specialize (Hrb w4). destruct (sql.Rollback w4) as [u w5].
      cbn [snd fst exporter.deferred_abort ret] in *. intros _. congruence.
    + destruct (totalRows =? 0).
      * pose proof (Abort_aside stream2 w4) as (Ho5 & _).
        destruct (s3.Abort stream2 w4) as [u w5]. cbn [snd] in Ho5.
        specialize (Hrb w5). destruct (sql.Rollback w5) as [u' w6].
        cbn [snd fst exporter.deferred_abort ret] in *. intros _. congruence.
      * pose proof (Complete_aside stream2 w4) as Ho5.
        destruct (s3.Complete stream2 w4) as [err w5]. cbn [fst snd] in Ho5.
        specialize (Hrb w5). destruct err as [e|];
          destruct (sql.Rollback w5) as [u' w6];
          cbn [snd fst exporter.deferred_abort ret] in *.
        -- intros _. destruct Ho5 as (Ho5 & _); [discriminate|]. congruence.
        -- intros Hno. exfalso. eapply Hno. reflexivity.
Qed.

Lemma ExportSegment_publishes_only_on_success_witness :
  objects (snd (exporter.ExportSegment fixtures.cfg_small fixtures.seg_00_40
                                       fixtures.second_query_fails))
  = objects fixtures.second_query_fails.
Proof.
  apply (ExportSegment_publishes_only_on_success fixtures.cfg_small fixtures.seg_00_40
           fixtures.second_query_fails).
  intros f. vm_compute. discriminate.
Defined.

(** The safety limit: whatever the table holds and whatever fails, one
    export sends at most [maxBatches] statements. *)
Theorem ExportSegment_query_limit cfg seg w :
  (Z.of_nat (queries (trace (snd (exporter.ExportSegment cfg seg w))))
   <= Z.of_nat (queries (trace w)) + exporter.maxBatches).
Proof.
  unfold exporter.ExportSegment.
  pose proof (NewMultipartUploadStream_aside cfg (exporter.s3Key_of cfg seg) w) as (_ & _ & Hn1).
  destruct (s3.NewMultipartUploadStream cfg (exporter.s3Key_of cfg seg) w) as [r0 w1].
  cbn [snd] in Hn1. unfold exporter.maxBatches.
  destruct r0 as [stream|e]; [|cbn [snd]; lia].
  pose proof (BeginTx_frame w1) as (_ & Hn2 & _).
  destruct (sql.BeginTx w1) as [r1 w2]. cbn [fst snd] in Hn2. destruct r1 as [[]|e].
  2:{ cbn [exporter.deferred_abort].
      pose proof (Abort_aside stream w2) as (_ & _ & Hn3).
      destruct (s3.Abort stream w2) as [u w3]. cbn [fst snd] in *. lia. }
  unfold exporter.export_body.
  pose proof (export_batches_frame (Z.to_nat exporter.maxBatches) cfg seg 0 "" 0 false
                                   stream w2) as (_ & _ & Hn3).
  destruct (exporter.export_batches (Z.to_nat exporter.maxBatches) cfg seg 0 "" 0 false
                                    stream w2) as [[exit_ stream2] w3].
  cbn [snd] in Hn3. unfold exporter.maxBatches in Hn3.
  assert (Hrb : forall w5, queries (trace (snd (sql.Rollback w5))) = queries (trace w5)).
  { intros w5. apply (Rollback_frame w5). }
  destruct exit_ as [e|batchNum totalRows].
  - specialize (Hrb w3). destruct (sql.Rollback w3) as [u w4].
    cbn [snd fst exporter.deferred_abort ret] in *. lia.
  - pose proof (Commit_frame w3) as (_ & Hn4 & _).
    destruct (sql.Commit w3) as [cerr w4]. cbn [fst snd] in Hn4.
    destruct cerr as [e|].
    + specialize (Hrb w4). destruct (sql.Rollback w4) as [u w5].
      cbn [snd fst exporter.deferred_abort ret] in *. lia.
    + destruct (totalRows =? 0).
      * pose proof (Abort_aside stream2 w4) as (_ & _ & Hn5).
        destruct (s3.Abort stream2 w4) as [u w5]. cbn [snd] in Hn5.
        specialize (Hrb w5). destruct (sql.Rollback w5) as [u' w6].
        cbn [snd fst exporter.deferred_abort ret] in *. lia.
      * pose proof (Complete_tx stream2 w4) as [_ Hn5].
        destruct (s3.Complete stream2 w4) as [err w5]. cbn [snd] in Hn5.
        specialize (Hrb w5). destruct err as [e|];
          destruct (sql.Rollback w5) as [u' w6];
          cbn [snd fst exporter.deferred_abort ret] in *; lia.
Qed.

End lifecycle_facts.

(** ** One call of [MultipartUploadStream.UploadPart] *)
Module part_facts.
Import world trace_facts stream_facts failure_facts.







End part_facts.

(** ** Loading the configuration *)
Module config_facts.
Import config_load gostrings.

(** *** The test helper [contains] *)

Lemma length_append (a b : string) :
  String.length (a +:+ b) = (String.length a + String.length b)%nat.
Proof.
  induction a as [|c a IH]; [reflexivity|].
  rewrite query_facts.app_String. cbn [String.length]. now rewrite IH.
Qed.

Lemma substring_whole (s t : string) : substring 0 (String.length s) (s +:+ t) = s.
Proof.
  induction s as [|c s IH]; [destruct t; reflexivity|].
  change (String c (substring 0 (String.length s) (s +:+ t)) = String c s). now rewrite IH.
Qed.

Lemma substring_skip (pre : string) : forall n s,
  substring (String.length pre) n (pre +:+ s) = substring 0 n s.
Proof.
  induction pre as [|c pre IH]; intros n s; [reflexivity|].
  rewrite query_facts.app_String. cbn [String.length substring]. apply IH.
Qed.

(** A string is its first [i] bytes, then what follows. *)
Lemma substring_split (s : string) : forall i n,
  (i + n <= String.length s)%nat ->
  exists post,
    s = substring 0 i s +:+ substring i n s +:+ post
    /\ String.length (substring 0 i s) = i /\ String.length (substring i n s) = n.
Proof.
  induction s as [|c s IH]; intros i n Hlen.
  - cbn [String.length] in Hlen. assert (i = O) by lia. assert (n = O) by lia. subst.
    exists EmptyString. auto.
  - cbn [String.length] in Hlen. destruct i as [|i].
    + destruct n as [|n].
      * exists (String c s). auto.
      * destruct (IH O n ltac:(lia)) as (post & Hs & _ & Hn).
        replace (substring 0 0 s) with EmptyString in Hs by (destruct s; reflexivity).
        rewrite query_facts.app_empty_l in Hs.
        exists post. cbn [substring]. rewrite query_facts.app_empty_l, query_facts.app_String.
        split; [now rewrite <- Hs|]. cbn [String.length]. auto.
    + destruct (IH i n ltac:(lia)) as (post & Hs & Hi & Hn).
      exists post. cbn [substring]. rewrite query_facts.app_String.
      split; [now rewrite <- Hs|]. cbn [String.length]. auto.
Qed.

Lemma slice_found (pre substr post : string) :
  slice (pre +:+ substr +:+ post) (len pre) (len pre + len substr) = substr.
Proof.
  unfold slice, len. rewrite Nat2Z.id.
  replace (Z.to_nat (Z.of_nat (String.length pre) + Z.of_nat (String.length substr)
                     - Z.of_nat (String.length pre))) with (String.length substr) by lia.
  rewrite substring_skip. apply substring_whole.
Qed.

Lemma slice_occurs (s substr : string) (i : Z) :
  0 <= i <= len s - len substr ->
  String.eqb (slice s i (i + len substr)) substr = true ->
  exists pre post, s = pre +:+ substr +:+ post.
Proof.
  unfold slice, len. intros Hi Heq. apply String.eqb_eq in Heq.
  replace (Z.to_nat (i + Z.of_nat (String.length substr) - i)) with (String.length substr)
    in Heq by lia.
  destruct (substring_split s (Z.to_nat i) (String.length substr) ltac:(lia))
    as (post & Hs & _).
  rewrite Heq in Hs. eauto.
Qed.

Lemma containsMiddle_from_sound todo : forall i s substr,
  0 <= i -> containsMiddle_from todo i s substr = true ->
  exists pre post, s = pre +:+ substr +:+ post.
Proof.
  induction todo as [|todo IH]; intros i s substr Hi H; [discriminate|].
  cbn [containsMiddle_from] in H.
  destruct (Z.leb_spec i (len s - len substr)); [|discriminate].
  destruct (String.eqb (slice s i (i + len substr)) substr) eqn:Heq.
  - eapply slice_occurs; [|exact Heq]. lia.
  - apply (IH (i + 1)); [lia | exact H].
Qed.

Lemma containsMiddle_from_complete todo : forall i s substr k,
  i <= k <= len s - len substr -> k - i < Z.of_nat todo ->
  String.eqb (slice s k (k + len substr)) substr = true ->
  containsMiddle_from todo i s substr = true.
Proof.
  induction todo as [|todo IH]; intros i s substr k Hk Hfuel Heq; [lia|].
  cbn [containsMiddle_from].
  destruct (Z.leb_spec i (len s - len substr)); [|lia].
  destruct (String.eqb (slice s i (i + len substr)) substr) eqn:Hi; [reflexivity|].
  apply (IH (i + 1) s substr k); [|lia|exact Heq].
  assert (i <> k) by (intros ->; congruence). lia.
Qed.

(** The helper of the package's tests says true exactly when the second
    string occurs in the first. *)
Theorem contains_iff_occurs (s substr : string) :
  contains s substr = true <-> exists pre post, s = pre +:+ substr +:+ post.
Proof.
  unfold contains. split.
  - intros H. apply andb_true_iff in H. destruct H as [Hle%Z.leb_le H].
    apply orb_true_iff in H. destruct H as [H|H].
    + apply orb_true_iff in H. destruct H as [H|H].
      * apply String.eqb_eq in H. subst. exists EmptyString, EmptyString.
        rewrite query_facts.app_empty_l. now rewrite key_facts.append_empty_r.
      * apply Z.eqb_eq in H. unfold len in H. destruct substr; [|cbn in H; lia].
        exists EmptyString, s. reflexivity.
    + apply andb_true_iff in H. destruct H as [Hlt%Z.ltb_lt H].
      apply orb_true_iff in H. destruct H as [H|H].
      * apply orb_true_iff in H. destruct H as [H|H].
        -- apply (slice_occurs s substr 0); [unfold len in *; lia | exact H].
        -- apply (slice_occurs s substr (len s - len substr)); [unfold len in *; lia|].
           replace (len s - len substr + len substr) with (len s) by lia. exact H.
      * unfold containsMiddle in H.
        apply (containsMiddle_from_sound _ 0 s substr) in H; [exact H | lia].
  - intros (pre & post & ->).
    assert (Hlen : len (pre +:+ substr +:+ post) = len pre + len substr + len post).
    { unfold len. rewrite !length_append. lia. }
    assert (Hmid : containsMiddle (pre +:+ substr +:+ post) substr = true).
    { unfold containsMiddle.
      apply (containsMiddle_from_complete _ 0 _ substr (len pre)).
      - unfold len in *. lia.
      - unfold len in *. rewrite !length_append. lia.
      - rewrite slice_found. apply String.eqb_refl. }
    apply andb_true_iff. split; [apply Z.leb_le; unfold len in *; lia|].
    rewrite Hmid. rewrite !orb_true_r.
    destruct (Z.ltb_spec (len substr) (len (pre +:+ substr +:+ post))) as [Hlt|Hge];
      [now rewrite orb_true_r|].
    assert (pre = EmptyString /\ post = EmptyString) as [-> ->].
    { unfold len in *. destruct pre, post; cbn [String.length] in *; auto; lia. }
    rewrite query_facts.app_empty_l, key_facts.append_empty_r, String.eqb_refl. reflexivity.
Qed.

(** The three cases of [TestConfig_GetMariaDBDSN], first expectation each. *)
Lemma contains_iff_occurs_witness :
  contains "testuser:testpass@tcp(localhost)/testdb?parseTime=true" "testpass" = true.
Proof.
  apply contains_iff_occurs.
  exists "testuser:"%string, "@tcp(localhost)/testdb?parseTime=true"%string. reflexivity.
Defined.

(** *** [LoadConfig] *)

(** The YAML values that are applied: those of a file that was asked for,
    found and parsed. *)
Definition yaml_of (fl : Flags) (yaml : YamlFile) : option YamlCfg :=
  if String.eqb (configFile fl) "" then None
  else match yaml with YamlParsed y => Some y | _ => None end.

Definition after_yaml (fl : Flags) (yaml : YamlFile) : Config :=
  match yaml_of fl yaml with
  | Some y => fst (loadFromYAML zero (YamlParsed y))
  | None => zero
  end.

Definition after_auth (fl : Flags) (auth : AuthFile) (cfg : Config) : Config :=
  if String.eqb (mariadbAuth fl) "" then cfg
  else fst (ReadMariaDBAuth cfg (mariadbAuth fl) auth).

(** A call that succeeds, phase by phase. *)
Lemma LoadConfig_Ok fl p yaml auth cfg :
  LoadConfig fl p yaml auth = Ok cfg ->
  cfg = set_defaults
          (flags_after_auth fl
             (after_auth fl auth (flags_before_auth fl (loadFromEnv p (after_yaml fl yaml)))))
  /\ validate cfg = None
  /\ (mariadbAuth fl <> EmptyString -> exists user password, auth = AuthParsed user password).
Proof.
  unfold LoadConfig, after_yaml, yaml_of, after_auth. intros H.
  destruct (String.eqb (configFile fl) "") eqn:Hcf; cbn [negb] in H.
  - destruct (String.eqb_spec (mariadbAuth fl) "") as [Hma|Hma]; cbn [negb] in H.
    + destruct (validate _) eqn:Hv in H; [discriminate|]. inversion H; subst.
      split; [reflexivity|]. split; [exact Hv|]. intros; contradiction.
    + unfold ReadMariaDBAuth in *. destruct (String.eqb_spec (mariadbAuth fl) ""); [contradiction|].
      destruct auth as [e|e|user password]; try discriminate H.
      cbn [fst] in *. destruct (validate _) eqn:Hv in H; [discriminate|]. inversion H; subst.
      split; [reflexivity|]. split; [exact Hv|]. eauto.
  - destruct yaml as [e|e|e|y]; cbn [loadFromYAML negb fst] in H |- *; try discriminate H.
    all: destruct (String.eqb_spec (mariadbAuth fl) "") as [Hma|Hma]; cbn [negb] in H.
    all: try (destruct (validate _) eqn:Hv in H; [discriminate|]; inversion H; subst;
              split; [reflexivity|]; split; [exact Hv|]; intros; contradiction).
    all: unfold ReadMariaDBAuth in *; destruct (String.eqb_spec (mariadbAuth fl) "");
      [contradiction|];
      destruct auth as [e'|e'|user password]; try discriminate H;
      cbn [fst] in *; destruct (validate _) eqn:Hv in H; [discriminate|]; inversion H; subst;
      (split; [reflexivity|]); (split; [exact Hv|]); eauto.
Qed.

Lemma after_auth_fields fl auth cfg :
  TableName (after_auth fl auth cfg) = TableName cfg
  /\ MariaDBPort (after_auth fl auth cfg) = MariaDBPort cfg
  /\ MariaDBHost (after_auth fl auth cfg) = MariaDBHost cfg
  /\ TenantID (after_auth fl auth cfg) = TenantID cfg
  /\ S3Bucket (after_auth fl auth cfg) = S3Bucket cfg
  /\ AWSRegion (after_auth fl auth cfg) = AWSRegion cfg
  /\ AuroraHost (after_auth fl auth cfg) = AuroraHost cfg
  /\ AuroraUser (after_auth fl auth cfg) = AuroraUser cfg
  /\ AuroraSecretsManagerSecret (after_auth fl auth cfg) = AuroraSecretsManagerSecret cfg
  /\ AuroraRegion (after_auth fl auth cfg) = AuroraRegion cfg
  /\ ExecuteSQL (after_auth fl auth cfg) = ExecuteSQL cfg
  /\ CSVDelimiter (after_auth fl auth cfg) = CSVDelimiter cfg
  /\ CSVQuote (after_auth fl auth cfg) = CSVQuote cfg.
Proof.
  unfold after_auth, ReadMariaDBAuth.
  destruct (String.eqb (mariadbAuth fl) ""); [repeat split|].
  destruct auth; cbn; repeat split.
Qed.

(** The value of a flag, its declared default included, overrides the
    environment and the YAML file whenever it is not empty (a string) or
    positive (a number).  For the ten flags declared with such a default, a
    command line that does not name the flag therefore fixes the field to the
    flag's default, whatever the environment and the file say. *)
Theorem LoadConfig_flag_value_wins fl p yaml auth cfg :
  LoadConfig fl p yaml auth = Ok cfg ->
  (tableName fl <> EmptyString -> TableName cfg = tableName fl)
  /\ (0 < mariadbPort fl -> MariaDBPort cfg = mariadbPort fl)
  /\ (mariadbDatabase fl <> EmptyString -> MariaDBDatabase cfg = mariadbDatabase fl)
  /\ (s3Prefix fl <> EmptyString -> S3Prefix cfg = s3Prefix fl)
  /\ (0 < segments fl -> Segments cfg = segments fl)
  /\ (0 < maxParallelSegs fl -> MaxParallelSegs cfg = maxParallelSegs fl)
  /\ (0 < batchSize fl -> BatchSize cfg = batchSize fl)
  /\ (0 < auroraPort fl -> AuroraPort cfg = auroraPort fl)
  /\ (auroraDatabase fl <> EmptyString -> AuroraDatabase cfg = auroraDatabase fl)
  /\ (0 < sqlExecTimeout fl -> SQLExecTimeout cfg = sqlExecTimeout fl).
Proof.
  intros H. apply LoadConfig_Ok in H. destruct H as (-> & _ & _).
  set (c1 := flags_before_auth fl (loadFromEnv p (after_yaml fl yaml))).
  destruct (after_auth_fields fl auth c1) as (Htn & Hmp & _).
  repeat split; intros Hf; cbn [set_defaults flags_after_auth
    TableName MariaDBPort MariaDBDatabase S3Prefix Segments MaxParallelSegs BatchSize
    AuroraPort AuroraDatabase SQLExecTimeout].
  - rewrite Htn. unfold c1. cbn [flags_before_auth TableName].
    destruct (String.eqb_spec (tableName fl) ""); [contradiction | reflexivity].
  - rewrite Hmp. unfold c1. cbn [flags_before_auth MariaDBPort].
    destruct (Z.ltb_spec 0 (mariadbPort fl)); [|lia].
    destruct (Z.eqb_spec (mariadbPort fl) 0); [lia | reflexivity].
  - destruct (String.eqb_spec (mariadbDatabase fl) ""); [contradiction|]. cbn [negb].
    destruct (String.eqb_spec (mariadbDatabase fl) ""); [contradiction | reflexivity].
  - destruct (String.eqb_spec (s3Prefix fl) ""); [contradiction | reflexivity].
  - destruct (Z.ltb_spec 0 (segments fl)); [|lia].
    destruct (Z.eqb_spec (segments fl) 0); [lia | reflexivity].
  - destruct (Z.ltb_spec 0 (maxParallelSegs fl)); [|lia].
    destruct (Z.eqb_spec (maxParallelSegs fl) 0); [lia | reflexivity].
  - destruct (Z.ltb_spec 0 (batchSize fl)); [|lia].
    destruct (Z.eqb_spec (batchSize fl) 0); [lia | reflexivity].
  - destruct (Z.ltb_spec 0 (auroraPort fl)); [|lia].
    destruct (Z.eqb_spec (auroraPort fl) 0); [lia | reflexivity].
  - destruct (String.eqb_spec (auroraDatabase fl) ""); [contradiction|]. cbn [negb].
    destruct (String.eqb_spec (auroraDatabase fl) ""); [contradiction | reflexivity].
  - destruct (Z.ltb_spec 0 (sqlExecTimeout fl)); [|lia].
    destruct (Z.eqb_spec (sqlExecTimeout fl) 0); [lia | reflexivity].
Qed.

(** The environment of [TestLoadConfig_EnvironmentVariables], with a segment
    count and a batch size added, and a YAML file that asks for 32 segments. *)
Definition sample_proc : util.Proc :=
  util.mkProc
    (list_to_map [("FIS_MIGRATION_TENANT_ID", "1234"); ("FIS_MIGRATION_TABLE_NAME", "test_table");
                  ("FIS_MIGRATION_MARIADB_HOST", "localhost:3306");
                  ("FIS_MIGRATION_S3_BUCKET", "test-bucket");
                  ("FIS_MIGRATION_AWS_REGION", "us-east-1");
                  ("FIS_MIGRATION_SEGMENTS", "4"); ("FIS_MIGRATION_BATCH_SIZE", "500")]%string)
    ∅.

Definition sample_yaml : YamlFile :=
  YamlParsed (mkYamlCfg 0 "yaml_table" "" 0 "" "" "" "yaml-bucket" "" "eu-west-1"
                        "" 0 "" "" "" "" false 32 0 0 0).

(** With no flag on the command line the table name is the flag's default,
    not the environment's "test_table", and the segment count is 16, neither
    the environment's 4 nor the file's 32. *)
Lemma LoadConfig_flag_value_wins_witness :
  exists cfg,
    LoadConfig default_flags sample_proc sample_yaml (AuthParsed "" "") = Ok cfg
    /\ TableName cfg = "fis_aggr"%string /\ Segments cfg = 16 /\ BatchSize cfg = 100000.
Proof.
  destruct (LoadConfig default_flags sample_proc sample_yaml (AuthParsed "" "")) as [cfg|e] eqn:E;
    [|exfalso; vm_compute in E; discriminate E].
  exists cfg. split; [reflexivity|].
  destruct (LoadConfig_flag_value_wins _ _ _ _ _ E) as (H1 & _ & _ & _ & H5 & _ & H7 & _).
  split; [apply H1; discriminate|]. split; [apply H5 | apply H7]; reflexivity.
Defined.

(** What the YAML file gives for a field when no later source overrides it. *)
Definition yaml_string (fl : Flags) (yaml : YamlFile) (field : YamlCfg -> string) : string :=
  match yaml_of fl yaml with Some y => field y | None => EmptyString end.

Definition first_string (flag env yaml : string) : string :=
  if negb (String.eqb flag "") then flag
  else if negb (String.eqb env "") then env
  else yaml.

(** For the fields whose flag has an empty default, the order is the
    documented one: the flag, then the environment, then the file.  The
    tenant id takes the flag when positive, else the environment variable
    when it parses as a number (whatever its sign), else the file's value when
    positive.  [ExecuteSQL] can be switched on by the flag but not off.  An
    auth file, when named, sets the user and the password and overrides the
    flags that set them. *)
Theorem LoadConfig_precedence fl p yaml auth cfg :
  LoadConfig fl p yaml auth = Ok cfg ->
  MariaDBHost cfg = first_string (mariadbHost fl) (util.Getenv "FIS_MIGRATION_MARIADB_HOST" p)
                                 (yaml_string fl yaml y_MariaDBHost)
  /\ S3Bucket cfg = first_string (s3Bucket fl) (util.Getenv "FIS_MIGRATION_S3_BUCKET" p)
                                 (yaml_string fl yaml y_S3Bucket)
  /\ AWSRegion cfg = first_string (awsRegion fl) (util.Getenv "FIS_MIGRATION_AWS_REGION" p)
                                  (yaml_string fl yaml y_AWSRegion)
  /\ AuroraHost cfg = first_string (auroraHost fl) (util.Getenv "FIS_MIGRATION_AURORA_HOST" p)
                                   (yaml_string fl yaml y_AuroraHost)
  /\ AuroraUser cfg = first_string (auroraUser fl) (util.Getenv "FIS_MIGRATION_AURORA_USER" p)
                                   (yaml_string fl yaml y_AuroraUser)
  /\ AuroraSecretsManagerSecret cfg
     = first_string (auroraSecret fl) (util.Getenv "FIS_MIGRATION_AURORA_SECRET" p)
                    (yaml_string fl yaml y_AuroraSecretsManagerSecret)
  /\ AuroraRegion cfg = first_string (auroraRegion fl)
                                     (util.Getenv "FIS_MIGRATION_AURORA_REGION" p)
                                     (yaml_string fl yaml y_AuroraRegion)
  /\ TenantID cfg
     = (if 0 <? tenantID fl then tenantID fl
        else
          let fromFile := match yaml_of fl yaml with
                          | Some y => if 0 <? y_TenantID y then y_TenantID y else 0
                          | None => 0
                          end in
          let val := util.Getenv "FIS_MIGRATION_TENANT_ID" p in
          if String.eqb val "" then fromFile
          else match Atoi val with Some n => n | None => fromFile end)
  /\ ExecuteSQL cfg
     = (executeSQL fl
        || let val := util.Getenv "FIS_MIGRATION_EXECUTE_SQL" p in
           if String.eqb val "" then
             match yaml_of fl yaml with Some y => y_ExecuteSQL y | None => false end
           else String.eqb val "true" || String.eqb val "1")
  /\ (forall user password,
        mariadbAuth fl <> EmptyString -> auth = AuthParsed user password ->
        MariaDBUser cfg = user /\ MariaDBPassword cfg = password).
Proof.
  intros H. apply LoadConfig_Ok in H. destruct H as (-> & _ & _).
  set (c0 := after_yaml fl yaml).
  set (c1 := flags_before_auth fl (loadFromEnv p c0)).
  destruct (after_auth_fields fl auth c1)
    as (_ & _ & Hh & Hti & Hb & Hr & Hah & Hau & Has & Har & Hex & _).
  assert (Hy : forall (f : Config -> string) (g : YamlCfg -> string),
            f zero = EmptyString ->
            (forall y, f (fst (loadFromYAML zero (YamlParsed y)))
                       = if negb (String.eqb (g y) "") then g y else f zero) ->
            f c0 = yaml_string fl yaml g).
  { intros f g Hz Hl. unfold c0, after_yaml, yaml_string.
    destruct (yaml_of fl yaml) as [y|]; [|exact Hz]. rewrite Hl, Hz.
    destruct (String.eqb_spec (g y) "") as [->|]; reflexivity. }
  assert (Hpick : forall flag key old,
            (if negb (String.eqb flag "") then flag else env_string p key old)
            = first_string flag (util.Getenv key p) old).
  { intros. unfold first_string, env_string. reflexivity. }
  repeat split.
  - cbn [set_defaults flags_after_auth MariaDBHost]. rewrite Hh. unfold c1.
    cbn [flags_before_auth loadFromEnv MariaDBHost]. rewrite Hpick. f_equal.
    apply (Hy MariaDBHost y_MariaDBHost); reflexivity.
  - cbn [set_defaults flags_after_auth S3Bucket]. rewrite Hb. unfold c1.
    cbn [flags_before_auth loadFromEnv S3Bucket]. rewrite Hpick. f_equal.
    apply (Hy S3Bucket y_S3Bucket); reflexivity.
  - cbn [set_defaults flags_after_auth AWSRegion]. rewrite Hr. unfold c1.
    cbn [flags_before_auth loadFromEnv AWSRegion]. rewrite Hpick. f_equal.
    apply (Hy AWSRegion y_AWSRegion); reflexivity.
  - cbn [set_defaults flags_after_auth AuroraHost]. rewrite Hah. unfold c1.
    cbn [flags_before_auth loadFromEnv AuroraHost]. rewrite Hpick. f_equal.
    apply (Hy AuroraHost y_AuroraHost); reflexivity.
  - cbn [set_defaults flags_after_auth AuroraUser]. rewrite Hau. unfold c1.
    cbn [flags_before_auth loadFromEnv AuroraUser]. rewrite Hpick. f_equal.
    apply (Hy AuroraUser y_AuroraUser); reflexivity.
  - cbn [set_defaults flags_after_auth AuroraSecretsManagerSecret]. rewrite Has. unfold c1.
    cbn [flags_before_auth loadFromEnv AuroraSecretsManagerSecret]. rewrite Hpick. f_equal.
    apply (Hy AuroraSecretsManagerSecret y_AuroraSecretsManagerSecret); reflexivity.
  - cbn [set_defaults flags_after_auth AuroraRegion]. rewrite Har. unfold c1.
    cbn [flags_before_auth loadFromEnv AuroraRegion]. rewrite Hpick. f_equal.
    apply (Hy AuroraRegion y_AuroraRegion); reflexivity.
  - cbn [set_defaults flags_after_auth TenantID]. rewrite Hti. unfold c1.
    cbn [flags_before_auth loadFromEnv TenantID].
    destruct (0 <? tenantID fl); [reflexivity|].
    unfold env_int. cbn zeta.
    assert (Hc0 : TenantID c0 = match yaml_of fl yaml with
                                | Some y => if 0 <? y_TenantID y then y_TenantID y else 0
                                | None => 0
                                end).
    { unfold c0, after_yaml. destruct (yaml_of fl yaml); reflexivity. }
    rewrite Hc0. destruct (String.eqb (util.Getenv "FIS_MIGRATION_TENANT_ID" p) ""); reflexivity.
  - cbn [set_defaults flags_after_auth ExecuteSQL]. rewrite Hex. unfold c1.
    cbn [flags_before_auth loadFromEnv ExecuteSQL].
    destruct (executeSQL fl); [reflexivity|]. cbn [orb].
    unfold env_bool. cbn zeta.
    assert (Hc0 : ExecuteSQL c0 = match yaml_of fl yaml with
                                  | Some y => y_ExecuteSQL y
                                  | None => false
                                  end).
    { unfold c0, after_yaml. destruct (yaml_of fl yaml); reflexivity. }
    rewrite Hc0. destruct (String.eqb (util.Getenv "FIS_MIGRATION_EXECUTE_SQL" p) ""); reflexivity.
  - subst auth. cbn [set_defaults flags_after_auth MariaDBUser]. unfold after_auth, ReadMariaDBAuth.
    destruct (String.eqb_spec (mariadbAuth fl) ""); [contradiction | reflexivity].
  - subst auth. cbn [set_defaults flags_after_auth MariaDBPassword].
    unfold after_auth, ReadMariaDBAuth.
    destruct (String.eqb_spec (mariadbAuth fl) ""); [contradiction | reflexivity].
Qed.

(** The bucket comes from the environment, over the file's "yaml-bucket";
    the region too; the tenant id is the environment's 1234. *)
Lemma LoadConfig_precedence_witness :
  exists cfg,
    LoadConfig default_flags sample_proc sample_yaml (AuthParsed "" "") = Ok cfg
    /\ S3Bucket cfg = "test-bucket"%string /\ AWSRegion cfg = "us-east-1"%string
    /\ TenantID cfg = 1234.
Proof.
  destruct (LoadConfig default_flags sample_proc sample_yaml (AuthParsed "" "")) as [cfg|e] eqn:E;
    [|exfalso; vm_compute in E; discriminate E].
  exists cfg. split; [reflexivity|].
  destruct (LoadConfig_precedence _ _ _ _ _ E) as (_ & H2 & H3 & _ & _ & _ & _ & H8 & _).
  rewrite H2, H3, H8. repeat split; vm_compute; reflexivity.
Defined.

(** What a configuration that was loaded satisfies.  The required fields
    are present; no numeric field with a default is zero (but it may be
    negative, when the environment says so and the flag is not positive); the
    CSV delimiter and quote are always the comma and the double quote, which
    no source can change; and the Aurora fields are present when the SQL is
    to be executed. *)
Theorem LoadConfig_validated fl p yaml auth cfg :
  LoadConfig fl p yaml auth = Ok cfg ->
  0 < TenantID cfg /\ TableName cfg <> EmptyString /\ MariaDBHost cfg <> EmptyString
  /\ S3Bucket cfg <> EmptyString /\ AWSRegion cfg <> EmptyString
  /\ Segments cfg <> 0 /\ MaxParallelSegs cfg <> 0 /\ BatchSize cfg <> 0
  /\ MariaDBPort cfg <> 0 /\ AuroraPort cfg <> 0 /\ SQLExecTimeout cfg <> 0
  /\ MariaDBDatabase cfg <> EmptyString /\ AuroraDatabase cfg <> EmptyString
  /\ CSVDelimiter cfg = ","%string /\ CSVQuote cfg = String exporter.dquote EmptyString
  /\ (ExecuteSQL cfg = true ->
      AuroraHost cfg <> EmptyString /\ AuroraUser cfg <> EmptyString
      /\ AuroraSecretsManagerSecret cfg <> EmptyString /\ AuroraRegion cfg <> EmptyString).
Proof.
  intros H. apply LoadConfig_Ok in H. destruct H as (Hcfg & Hv & _).
  assert (Hreq : 0 < TenantID cfg /\ TableName cfg <> EmptyString
                 /\ MariaDBHost cfg <> EmptyString
                 /\ S3Bucket cfg <> EmptyString /\ AWSRegion cfg <> EmptyString
                 /\ (ExecuteSQL cfg = true ->
                     AuroraHost cfg <> EmptyString /\ AuroraUser cfg <> EmptyString
                     /\ AuroraSecretsManagerSecret cfg <> EmptyString
                     /\ AuroraRegion cfg <> EmptyString)).
  { unfold validate in Hv.
    destruct (Z.leb_spec (TenantID cfg) 0); [discriminate|].
    destruct (String.eqb_spec (TableName cfg) ""); [discriminate|].
    destruct (String.eqb_spec (MariaDBHost cfg) ""); [discriminate|].
    destruct (String.eqb_spec (S3Bucket cfg) ""); [discriminate|].
    destruct (String.eqb_spec (AWSRegion cfg) ""); [discriminate|].
    do 5 (split; [assumption|]).
    intros Hex. rewrite Hex in Hv.
    destruct (String.eqb_spec (AuroraHost cfg) ""); [discriminate|].
    destruct (String.eqb_spec (AuroraUser cfg) ""); [discriminate|].
    destruct (String.eqb_spec (AuroraSecretsManagerSecret cfg) ""); [discriminate|].
    destruct (String.eqb_spec (AuroraRegion cfg) ""); [discriminate|].
    repeat split; assumption. }
  destruct Hreq as (H1 & H2 & H3 & H4 & H5 & H6).
  set (c3 := flags_after_auth fl
               (after_auth fl auth (flags_before_auth fl (loadFromEnv p (after_yaml fl yaml)))))
    in Hcfg.
  assert (Hcsv : CSVDelimiter c3 = EmptyString /\ CSVQuote c3 = EmptyString).
  { unfold c3. cbn [flags_after_auth CSVDelimiter CSVQuote].
    destruct (after_auth_fields fl auth
                (flags_before_auth fl (loadFromEnv p (after_yaml fl yaml))))
      as (_ & _ & _ & _ & _ & _ & _ & _ & _ & _ & _ & Hd & Hq).
    rewrite Hd, Hq. cbn [flags_before_auth loadFromEnv CSVDelimiter CSVQuote].
    unfold after_yaml. destruct (yaml_of fl yaml); split; reflexivity. }
  destruct Hcsv as [Hd Hq].
  do 5 (split; [assumption|]).
  assert (Hz : forall v d : Z, d <> 0 -> (if v =? 0 then d else v) <> 0).
  { intros v d Hd0. destruct (Z.eqb_spec v 0); assumption. }
  assert (Hs : forall v d : string, d <> EmptyString ->
                 (if String.eqb v "" then d else v) <> EmptyString).
  { intros v d Hd0. destruct (String.eqb_spec v ""); assumption. }
  rewrite Hcfg at 1 2 3 4 5 6 7 8 9 10.
  cbn [set_defaults Segments MaxParallelSegs BatchSize MariaDBPort AuroraPort SQLExecTimeout
       MariaDBDatabase AuroraDatabase CSVDelimiter CSVQuote].
  rewrite Hd, Hq. cbn [String.eqb].
  do 6 (split; [apply Hz; discriminate|]).
  do 2 (split; [apply Hs; discriminate|]).
  split; [reflexivity|]. split; [reflexivity|]. exact H6.
Qed.

Lemma LoadConfig_validated_witness :
  exists cfg,
    LoadConfig default_flags sample_proc sample_yaml (AuthParsed "" "") = Ok cfg
    /\ 0 < TenantID cfg /\ Segments cfg <> 0 /\ CSVDelimiter cfg = ","%string.
Proof.
  destruct (LoadConfig default_flags sample_proc sample_yaml (AuthParsed "" "")) as [cfg|e] eqn:E;
    [|exfalso; vm_compute in E; discriminate E].
  exists cfg. split; [reflexivity|].
  destruct (LoadConfig_validated _ _ _ _ _ E)
    as (H1 & _ & _ & _ & _ & H6 & _ & _ & _ & _ & _ & _ & _ & H14 & _).
  auto.
Defined.

End config_facts.
(** ** Uploading a whole file, and the SQL file *)
Module file_facts.
Import world trace_facts.

(** The waits of [UploadFileWithRetry] after [n] failed attempts, as the loop
    makes them. *)
Fixpoint retry_delays (n : nat) (attempt delay : Z) : list Z :=
  match n with
  | O => []
  | S n' =>
      if attempt <? s3.maxS3Retries then delay :: retry_delays n' (attempt + 1) (delay * 2)
      else retry_delays n' (attempt + 1) delay
  end.

(** What one call of [UploadFile] can change: the object under the key, and
    one entry of the store's fault script when the file could be read. *)
Lemma UploadFile_cases file s3Key w :
  let r := s3_files.UploadFile file s3Key w in
  trace (snd r) = trace w /\ tx (snd r) = tx w /\ uploads (snd r) = uploads w
  /\ tables (snd r) = tables w
  /\ (s3_files.os_Open file <> None \/ s3_files.file_Stat file <> None ->
      fst r <> None /\ snd r = w)
  /\ match fst r with
     | None => objects (snd r) = <[s3Key := s3_files.contents file]> (objects w)
     | Some _ => objects (snd r) = objects w
     end.
Proof.
  unfold s3_files.UploadFile, s3_files.manager_Upload, s3_fault, ret.
  destruct (s3_files.os_Open file) as [e|]; cbn.
  { repeat split; auto; discriminate. }
  destruct (s3_files.file_Stat file) as [e|]; cbn.
  { repeat split; auto; discriminate. }
  destruct (s3_script w) as [|[e|] rest]; cbn; repeat split; auto;
    match goal with H : _ \/ _ |- _ => destruct H; congruence end.
Qed.

Lemma upload_file_attempts_outcome file s3Key todo :
  forall attempt delay lastErr w,
    let r := s3.upload_file_attempts todo attempt delay (s3_files.UploadFile file s3Key)
                                     lastErr w in
    exists failed : nat,
      (failed <= todo)%nat
      /\ trace (snd r) = trace w ++ map EvSleep (retry_delays failed attempt delay)
      /\ tx (snd r) = tx w /\ uploads (snd r) = uploads w /\ tables (snd r) = tables w
      /\ (s3_files.os_Open file <> None \/ s3_files.file_Stat file <> None ->
          failed = todo /\ s3_script (snd r) = s3_script w)
      /\ match fst r with
         | None => (failed < todo)%nat
                   /\ objects (snd r) = <[s3Key := s3_files.contents file]> (objects w)
         | Some _ => failed = todo /\ objects (snd r) = objects w
         end.
Proof.
  induction todo as [|todo IH]; intros attempt delay lastErr w r.
  - exists 0%nat. subst r. cbn. rewrite app_nil_r. repeat split; auto.
  - subst r. cbn [s3.upload_file_attempts].
    pose proof (UploadFile_cases file s3Key w) as Hc. cbn zeta in Hc.
    destruct (s3_files.UploadFile file s3Key w) as [err w1]. cbn [fst snd] in Hc.
    destruct Hc as (Htr & Htx & Hup & Htb & Hlocal & Hobj).
    destruct err as [e|].
    + cbn [fst snd] in Hobj.
      destruct (attempt <? s3.maxS3Retries) eqn:Hlt.
      * unfold Sleep. cbv beta iota.
        pose proof (IH (attempt + 1) (delay * 2) (Some e) (log (EvSleep delay) w1)) as IH'.
        cbv zeta in IH'.
        destruct (s3.upload_file_attempts todo (attempt + 1) (delay * 2) _ (Some e)
                    (log (EvSleep delay) w1)) as [err' w3].
        cbn [fst snd log trace tx uploads tables objects s3_script] in IH' |- *.
        destruct IH' as (failed' & Hle' & Ht' & Hx' & Hu' & Hb' & Hl' & Ho').
        exists (S failed'). cbn [retry_delays]. rewrite Hlt. cbn [map].
        rewrite Ht', Hx', Hu', Hb', Htr, Htx, Hup, Htb, <- app_assoc. cbn [app].
        split; [lia|]. do 4 (split; [reflexivity|]).
        split.
        { intros H. destruct (Hl' H) as [-> Hs]. split; [reflexivity|].
          rewrite Hs. destruct (Hlocal H) as [_ ->]. reflexivity. }
        destruct err'.
        { destruct Ho' as [-> Ho']. split; [reflexivity|]. rewrite Ho'. exact Hobj. }
        destruct Ho' as [Hlt' Ho']. split; [lia|]. rewrite Ho', Hobj. reflexivity.
      * pose proof (IH (attempt + 1) delay (Some e) w1) as IH'.
        cbv zeta in IH'.
        destruct (s3.upload_file_attempts todo (attempt + 1) delay _ (Some e) w1)
          as [err' w3].
        cbn [fst snd] in IH' |- *.
        destruct IH' as (failed' & Hle' & Ht' & Hx' & Hu' & Hb' & Hl' & Ho').
        exists (S failed'). cbn [retry_delays]. rewrite Hlt.
        rewrite Ht', Hx', Hu', Hb', Htr, Htx, Hup, Htb.
        split; [lia|]. do 4 (split; [reflexivity|]).
        split.
        { intros H. destruct (Hl' H) as [-> Hs]. split; [reflexivity|].
          rewrite Hs. destruct (Hlocal H) as [_ ->]. reflexivity. }
        destruct err'.
        { destruct Ho' as [-> Ho']. split; [reflexivity|]. rewrite Ho'. exact Hobj. }
        destruct Ho' as [Hlt' Ho']. split; [lia|]. rewrite Ho', Hobj. reflexivity.
    + exists 0%nat. cbn [fst snd retry_delays map]. rewrite app_nil_r.
      split; [lia|]. do 4 (split; [assumption|]).
      split.
      { intros H. destruct (Hlocal H) as [Hne _]. congruence. }
      split; [lia | exact Hobj].
Qed.

Lemma retry_delays_top failed :
  (failed <= 5)%nat ->
  retry_delays failed 1 s3.initialRetryDelay
  = take failed [1000000000; 2000000000; 4000000000; 8000000000].
Proof.
  intros H. do 6 (destruct failed as [|failed]; [reflexivity|]). lia.
Qed.

(** [UploadFileWithRetry] on a local file.  The object appears under the
    key, with the file's bytes, exactly when the call returns nil; a call that
    fails leaves the bucket as it was.  Between attempts the process sleeps 1,
    2, 4 and 8 seconds, so a failing call has slept 15 seconds.  That also
    holds for a file that cannot be opened or inspected, where no attempt
    reaches the store.  Sessions, the transaction and the tables are never
    touched. *)
Theorem UploadFileWithRetry_outcome file s3Key w :
  let r := s3_files.UploadFileWithRetry file s3Key w in
  exists failed : nat,
    (failed <= 5)%nat
    /\ trace (snd r)
       = trace w ++ map EvSleep (take failed [1000000000; 2000000000; 4000000000; 8000000000])
    /\ tx (snd r) = tx w /\ uploads (snd r) = uploads w /\ tables (snd r) = tables w
    /\ (s3_files.os_Open file <> None \/ s3_files.file_Stat file <> None ->
        failed = 5%nat /\ s3_script (snd r) = s3_script w)
    /\ match fst r with
       | None => (failed < 5)%nat
                 /\ objects (snd r) = <[s3Key := s3_files.contents file]> (objects w)
       | Some _ => failed = 5%nat /\ objects (snd r) = objects w
       end.
Proof.
  intros r. subst r. unfold s3_files.UploadFileWithRetry, s3.UploadFileWithRetry.
  destruct (upload_file_attempts_outcome file s3Key (Z.to_nat s3.maxS3Retries) 1
              s3.initialRetryDelay None w) as (failed & Hle & Ht & Hrest).
  change (Z.to_nat s3.maxS3Retries) with 5%nat in *.
  exists failed. rewrite <- (retry_delays_top failed Hle). auto.
Qed.

(** A file that cannot be opened: five attempts, fifteen seconds of sleep,
    and the store never called. *)
Lemma UploadFileWithRetry_outcome_witness :
  trace (snd (s3_files.UploadFileWithRetry
                (s3_files.mkLocalFile (Some (errorString "no such file")) None "x")
                "k" fixtures.calm))
  = trace fixtures.calm
    ++ map EvSleep [1000000000; 2000000000; 4000000000; 8000000000].
Proof.
  destruct (UploadFileWithRetry_outcome
              (s3_files.mkLocalFile (Some (errorString "no such file")) None "x")
              "k" fixtures.calm) as (failed & _ & Ht & _ & _ & _ & Hl & _).
  destruct Hl as [Hf _]; [left; discriminate|].
  rewrite Hf in Ht. exact Ht.
Defined.

End file_facts.
(** ** The LOAD DATA statements: generating, storing and running them *)
Module sqlgen_facts.
Import world sqlgen.

Lemma fold_append {A B} (f : A -> B) (l : list A) : forall acc,
  fold_left (fun acc x => acc ++ [f x]) l acc = acc ++ map f l.
Proof.
  induction l as [|x l IH]; intros acc; cbn [fold_left map].
  - now rewrite app_nil_r.
  - rewrite IH, <- app_assoc. reflexivity.
Qed.

Lemma GenerateLoadDataSQL_map csvFiles cfg :
  GenerateLoadDataSQL csvFiles cfg = Ok (map (load_statement cfg) csvFiles).
Proof. unfold GenerateLoadDataSQL. now rewrite fold_append. Qed.

(** The statement for one object, written out. *)
Definition statement_text (bucket key table : string) : string :=
  "LOAD DATA FROM S3 's3://" +:+ bucket +:+ "/" +:+ key +:+ "'" +:+ nl
  +:+ "IGNORE" +:+ nl
  +:+ "INTO TABLE " +:+ table +:+ nl
  +:+ "FIELDS TERMINATED BY ','" +:+ nl
  +:+ "OPTIONALLY ENCLOSED BY '" +:+ String exporter.dquote "'" +:+ nl
  +:+ "LINES TERMINATED BY '\n'" +:+ nl
  +:+ "(tenantid, hash, aggr, last_modified, version);".

Lemma load_statement_text cfg csvFile :
  load_statement cfg csvFile
  = statement_text (config_load.S3Bucket cfg) (exporter.S3Key csvFile)
                   (config_load.TableName cfg).
Proof.
  unfold load_statement, statement_text.
  let f := eval vm_compute in load_data_format in change load_data_format with f.
  let f := eval vm_compute in nl in change nl with f.
  unfold Sprintf. cbv [run fst snd head tail verb_s].
  repeat (rewrite query_facts.app_String || rewrite query_facts.app_empty_l
          || rewrite query_facts.app_assoc_string || rewrite key_facts.append_empty_r).
  reflexivity.
Qed.

(** The key of the SQL file. *)
Definition sql_key (cfg : config_load.Config) : string :=
  config_load.S3Prefix cfg +:+ "/sql/load-data-tenant-"
  +:+ itoa (config_load.TenantID cfg) +:+ ".sql".

Lemma sql_key_format cfg :
  Sprintf "%s/sql/%s"
          [AStr (config_load.S3Prefix cfg);
           AStr (Sprintf "load-data-tenant-%d.sql" [AInt (config_load.TenantID cfg)])]
  = sql_key cfg.
Proof.
  unfold sql_key, Sprintf. cbv [run fst snd head tail verb_s verb_d].
  rewrite key_facts.append_empty_r. reflexivity.
Qed.

(** The bytes of the SQL file for a list of exported objects. *)
Definition sql_file (cfg : config_load.Config) (csvFiles : list exporter.CSVFile) : string :=
  sql_content (map (fun f => statement_text (config_load.S3Bucket cfg) (exporter.S3Key f)
                                            (config_load.TableName cfg)) csvFiles).

Lemma sql_content_statements cfg csvFiles :
  sql_content (map (load_statement cfg) csvFiles) = sql_file cfg csvFiles.
Proof.
  unfold sql_file. f_equal. apply map_ext. intros f. apply load_statement_text.
Qed.

(** [GenerateAndUploadSQL]: a call that returns a key returns
    [{prefix}/sql/load-data-tenant-{id}.sql] and has put under it one
    statement per exported object, in the order given, each followed by an
    empty line (for no object at all: an empty file).  A call that fails
    leaves the bucket as it was.  The CSV objects are never touched unless one
    of them has that very key. *)
Theorem GenerateAndUploadSQL_outcome tmp csvFiles cfg w :
  let r := GenerateAndUploadSQL tmp csvFiles cfg w in
  tx (snd r) = tx w /\ uploads (snd r) = uploads w /\ tables (snd r) = tables w
  /\ match fst r with
     | Ok s3Key =>
         s3Key = sql_key cfg
         /\ objects (snd r) = <[sql_key cfg := sql_file cfg csvFiles]> (objects w)
     | Err _ => objects (snd r) = objects w
     end.
Proof.
  intros r. subst r. unfold GenerateAndUploadSQL.
  rewrite GenerateLoadDataSQL_map, sql_key_format, sql_content_statements.
  destruct (os_CreateTemp tmp); [cbn; auto|].
  destruct (tmp_Write tmp); [cbn; auto|].
  destruct (tmp_Close tmp); [cbn; auto|].
  unfold s3_files.UploadFileWithRetry, s3.UploadFileWithRetry.
  pose proof (file_facts.upload_file_attempts_outcome
                (s3_files.mkLocalFile (tmp_Open tmp) (tmp_Stat tmp) (sql_file cfg csvFiles))
                (sql_key cfg) (Z.to_nat s3.maxS3Retries) 1 s3.initialRetryDelay None w) as H.
  cbv zeta in H.
  destruct (s3.upload_file_attempts _ _ _ _ _ w) as [err w'].
  cbn [fst snd s3_files.contents] in H |- *.
  destruct H as (failed & _ & _ & Htx & Hup & Htb & _ & Hobj).
  do 3 (split; [destruct err; assumption|]).
  destruct err; cbn [fst snd]; [apply Hobj|]. split; [reflexivity | apply Hobj].
Qed.

(** Where [GenerateSQLFile] writes. *)
Definition sql_path (cfg : config_load.Config) : string :=
  "/tmp/load-data-tenant-" +:+ itoa (config_load.TenantID cfg) +:+ ".sql".

Lemma sql_path_format cfg :
  "/tmp/" +:+ Sprintf "load-data-tenant-%d.sql" [AInt (config_load.TenantID cfg)] = sql_path cfg.
Proof. reflexivity. Qed.

Lemma sql_content_app a b : sql_content (a ++ b) = sql_content a +:+ sql_content b.
Proof.
  induction a as [|x a IH]; cbn [app sql_content]; [reflexivity|].
  rewrite IH, !query_facts.app_assoc_string. reflexivity.
Qed.

(** The statements written before the failing write, if any. *)
Definition written_count (wr : Writing) (n : nat) : nat :=
  match write_fault wr with
  | Some (k, _) => Nat.min k n
  | None => n
  end.

Lemma write_statements_content wr : forall sqlStatements i written,
  let r := write_statements wr i sqlStatements written in
  let k := match write_fault wr with
           | Some (k, _) => if (k <? i)%nat then length sqlStatements
                            else Nat.min (k - i) (length sqlStatements)
           | None => length sqlStatements
           end in
  fst r = written +:+ sql_content (take k sqlStatements)
  /\ (snd r = None <-> k = length sqlStatements).
Proof.
  induction sqlStatements as [|sql rest IH]; intros i written r k; subst r k.
  - cbn [write_statements fst snd length]. rewrite take_nil. cbn [sql_content].
    rewrite key_facts.append_empty_r. split; [reflexivity|].
    destruct (write_fault wr) as [[k e]|]; [|tauto].
    destruct (k <? i)%nat; [tauto|]. rewrite Nat.min_0_r. tauto.
  - cbn [write_statements length].
    destruct (write_fault wr) as [[k e]|] eqn:Hf.
    + destruct (Nat.eqb_spec k i) as [->|Hne].
      * rewrite Nat.ltb_irrefl, Nat.sub_diag. cbn [Nat.min take sql_content fst snd].
        rewrite key_facts.append_empty_r. split; [reflexivity|]. split; discriminate.
      * specialize (IH (S i) (written +:+ sql +:+ nl +:+ nl)). cbv zeta in IH.
        destruct IH as [IH1 IH2]. rewrite IH1.
        destruct (Nat.ltb_spec k i) as [Hlt|Hge].
        { destruct (Nat.ltb_spec k (S i)); [|lia].
          cbn [take sql_content]. rewrite !query_facts.app_assoc_string.
          split; [reflexivity|]. rewrite IH2. tauto. }
        destruct (Nat.ltb_spec k (S i)); [lia|].
        replace (k - i)%nat with (S (k - S i)) by lia.
        cbn [Nat.min take sql_content]. rewrite !query_facts.app_assoc_string.
        split; [reflexivity|]. rewrite IH2. lia.
    + specialize (IH (S i) (written +:+ sql +:+ nl +:+ nl)). cbv zeta in IH.
      destruct IH as [IH1 IH2]. rewrite IH1.
      cbn [take sql_content]. rewrite !query_facts.app_assoc_string.
      split; [reflexivity|]. tauto.
Qed.

(** [GenerateSQLFile], the local variant.  On success the file
    [/tmp/load-data-tenant-{id}.sql] holds the very bytes
    [GenerateAndUploadSQL] uploads.  When a write fails the file is left
    behind with the statements written before it; when the file cannot be
    created nothing changes.  No other file is touched. *)
Theorem GenerateSQLFile_content wr csvFiles cfg disk :
  let r := GenerateSQLFile wr csvFiles cfg disk in
  (forall path, path <> sql_path cfg -> snd r !! path = disk !! path)
  /\ match fst r with
     | Ok filepath =>
         filepath = sql_path cfg /\ snd r !! sql_path cfg = Some (sql_file cfg csvFiles)
     | Err _ =>
         (os_Create wr <> None /\ snd r = disk)
         \/ (exists k e, write_fault wr = Some (k, e) /\ (k < length csvFiles)%nat
                         /\ snd r !! sql_path cfg = Some (sql_file cfg (take k csvFiles)))
     end.
Proof.
  intros r. subst r. unfold GenerateSQLFile, WriteSQLFile.
  rewrite GenerateLoadDataSQL_map, sql_path_format.
  destruct (os_Create wr) as [e|] eqn:Hc.
  { cbn [fst snd]. split; [reflexivity|]. left. split; [discriminate | reflexivity]. }
  pose proof (write_statements_content wr (map (load_statement cfg) csvFiles) 0 EmptyString)
    as H. cbv zeta in H.
  destruct (write_statements wr 0 (map (load_statement cfg) csvFiles) EmptyString)
    as [written err].
  cbn [fst snd] in H. destruct H as [Hw Herr].
  rewrite query_facts.app_empty_l, length_map in Hw. rewrite length_map in Herr.
  assert (Hframe : forall path, path <> sql_path cfg ->
            (<[sql_path cfg := written]> disk : gmap string string) !! path = disk !! path).
  { intros path Hne. apply lookup_insert_ne. congruence. }
  destruct err as [e|]; cbn [fst snd]; (split; [exact Hframe|]).
  - right. destruct (write_fault wr) as [[k e']|]; [|exfalso; apply proj2 in Herr;
      specialize (Herr eq_refl); discriminate].
    cbn [Nat.ltb Nat.leb] in Hw, Herr. rewrite Nat.sub_0_r in Hw, Herr.
    exists k, e'. split; [reflexivity|].
    assert (Hk : (k < length csvFiles)%nat).
    { destruct (Nat.lt_ge_cases k (length csvFiles)) as [|Hge]; [assumption|].
      exfalso. apply proj2 in Herr. rewrite Nat.min_r in Herr by assumption.
      specialize (Herr eq_refl). discriminate. }
    split; [exact Hk|]. rewrite lookup_insert_eq.
    rewrite Hw, Nat.min_l by lia. rewrite List.firstn_map, sql_content_statements. reflexivity.
  - split; [reflexivity|]. rewrite lookup_insert_eq, Hw.
    apply proj1 in Herr. specialize (Herr eq_refl). rewrite Herr.
    rewrite <- (length_map (load_statement cfg)), firstn_all, sql_content_statements.
    reflexivity.
Qed.

(** *** [ExecuteLoadDataSQL] *)

(** A reply that counts as a failure: an error that mentions neither a
    duplicate entry nor error 1062. *)
Definition is_failure (r : option error) : bool :=
  match r with
  | Some err =>
      negb (gostrings.Contains (Error err) "Duplicate entry"
            || gostrings.Contains (Error err) "Error 1062")
  | None => false
  end.

(** The failures among the replies to the first [n] statements. *)
Definition failures (n : nat) (replies : list (option error)) : nat :=
  length (List.filter is_failure (take n replies)).

(** The pings that fail in a row, from the first. *)
Fixpoint failing (l : list (option error)) : nat :=
  match l with
  | Some _ :: rest => S (failing rest)
  | _ => O
  end.

Lemma failures_le n replies : (failures n replies <= n)%nat.
Proof.
  unfold failures.
  etransitivity; [apply List.filter_length_le|]. rewrite length_take. lia.
Qed.

Lemma failures_nil n : failures n [] = 0%nat.
Proof. unfold failures. now rewrite take_nil. Qed.

Lemma failures_cons n r replies :
  failures (S n) (r :: replies)
  = ((if is_failure r then 1 else 0) + failures n replies)%nat.
Proof. unfold failures. cbn [take List.filter]. destruct (is_failure r); reflexivity. Qed.

Lemma exec_statements_counts : forall sqlStatements successCount failureCount a,
  let n := length sqlStatements in
  let k := failures n (execs a) in
  exec_statements sqlStatements successCount failureCount a
  = (successCount + Z.of_nat (n - k), failureCount + Z.of_nat k,
     mkAurora (pings a) (drop n (execs a)) (sent a ++ sqlStatements) (slept a) (closed a)).
Proof.
  assert (Htriple : forall (x x' y y' : Z) (z z' : Aurora),
            x = x' -> y = y' -> z = z' -> (x, y, z) = (x', y', z')).
  { intros; subst; reflexivity. }
  induction sqlStatements as [|sql rest IH]; intros s f a n k; subst n k.
  - cbn [exec_statements length drop]. unfold failures. cbn [take List.filter length].
    rewrite app_nil_r, !Z.add_0_r. destruct a; reflexivity.
  - cbn [exec_statements length]. unfold ExecContext.
    pose proof (failures_le (length rest)) as Hle.
    destruct (execs a) as [|r replies] eqn:Hex.
    + rewrite IH. cbn [pings execs sent slept closed].
      rewrite !failures_nil, <- app_assoc, !drop_nil. cbn [app].
      apply Htriple; [lia | lia | reflexivity].
    + specialize (Hle replies).
      rewrite failures_cons.
      destruct r as [err|]; cbn [is_failure].
      * destruct (gostrings.Contains (Error err) "Duplicate entry"
                  || gostrings.Contains (Error err) "Error 1062"); cbn [negb];
          rewrite IH; cbn [pings execs sent slept closed drop];
          rewrite <- app_assoc; cbn [app]; (apply Htriple; [lia | lia | reflexivity]).
      * rewrite IH. cbn [pings execs sent slept closed drop].
        rewrite <- app_assoc. cbn [app]. apply Htriple; [lia | lia | reflexivity].
Qed.

(** The retry loop around [Ping]: its result is always nil. *)
Lemma ping_attempts_loop a :
  exists a1,
    ping_attempts 3 1 (1 * 1000000000) None None a = (None, a1)
    /\ execs a1 = execs a /\ sent a1 = sent a /\ closed a1 = closed a
    /\ slept a1 = slept a ++ take (failing (take 3 (pings a))) [1000000000; 2000000000].
Proof.
  destruct a as [ps ex se sl cl].
  destruct ps as [|[e1|] [|[e2|] [|[e3|] ps]]];
    cbn; eexists; (split; [reflexivity|]); cbn; rewrite <- ?app_assoc, ?app_nil_r; auto.
Qed.

Section Execute.

Variable TrimSpace : string -> string.
Variable sm : util.SecretsManager.
Variable sql_Open : string -> option error.

Lemma length_zero {A} (l : list A) : (Z.of_nat (length l) =? 0) = true -> l = [].
Proof. destruct l; [reflexivity|]. cbn [length]. intros H. apply Z.eqb_eq in H. lia. Qed.

Lemma length_nonzero {A} (l : list A) : l <> [] -> (Z.of_nat (length l) =? 0) = false.
Proof.
  intros H. destruct l; [contradiction|]. cbn [length]. apply Z.eqb_neq. lia.
Qed.

(** The client is created when the host is named, the pool opens and the
    first ping is answered. *)
Lemma NewSQLClient_aurora hostname user pwd timeout dbName a :
  hostname <> EmptyString ->
  (forall dsn, sql_Open dsn = None) ->
  match pings a with Some _ :: _ => False | _ => True end ->
  exists sc,
    store.NewSQLClient sql_Open Ping Close hostname user pwd timeout "aws-aurora" dbName a
    = (Ok sc,
       mkAurora (tail (pings a)) (execs a) (sent a) (slept a) (closed a)).
Proof.
  intros Hh Hopen Hping. unfold store.NewSQLClient.
  destruct (String.eqb_spec hostname ""); [contradiction|].
  cbn [String.eqb Ascii.eqb Bool.eqb andb].
  assert (HP : Ping a = (None, mkAurora (tail (pings a)) (execs a) (sent a) (slept a) (closed a))).
  { unfold Ping. destruct a as [ps ex se sl cl]. cbn [pings execs sent slept closed] in *.
    destruct ps as [|[e|] ps]; [reflexivity | contradiction | reflexivity]. }
  destruct (negb (String.eqb pwd "")); rewrite Hopen, HP; eexists; reflexivity.
Qed.

(** What every failure of [store.NewSQLClient] leaves of the server: what
    was sent and slept is as before, and the state is either untouched or a
    closed pool. *)
Lemma NewSQLClient_frame hostname user pwd timeout dbType dbName a r a' :
  store.NewSQLClient sql_Open Ping Close hostname user pwd timeout dbType dbName a = (r, a') ->
  sent a' = sent a /\ slept a' = slept a /\ execs a' = execs a
  /\ match r with
     | Ok _ => closed a' = closed a
     | Err _ => a' = a \/ closed a' = true
     end.
Proof.
  unfold store.NewSQLClient. intros H.
  destruct (String.eqb hostname ""); [inversion H; subst; auto|].
  match type of H with
  | context [match ?d with Ok _ => _ | Err _ => _ end] => destruct d as [dsn|err]
  end; [|inversion H; subst; auto].
  destruct (sql_Open dsn); [inversion H; subst; auto|].
  unfold Ping in H. destruct a as [ps ex se sl cl]. cbn [pings execs sent slept closed] in *.
  destruct ps as [|[e|] ps]; inversion H; subst; cbn; auto.
Qed.

(** Statements are sent all or none.  Either the call fails before the
    first statement and the server has received nothing, or every statement
    was sent once, in the order given, whatever the replies.  In either case
    the server state is untouched or the pool was closed. *)
Theorem ExecuteLoadDataSQL_all_or_nothing sqlStatements cfg p a :
  let r := ExecuteLoadDataSQL TrimSpace sm sql_Open sqlStatements cfg p a in
  ((fst (fst r) <> None /\ sent (snd r) = sent a)
   \/ (sqlStatements <> [] /\ sent (snd r) = sent a ++ sqlStatements))
  /\ (snd r = a \/ closed (snd r) = true).
Proof.
  intros r. subst r. unfold ExecuteLoadDataSQL.
  destruct (Z.of_nat (length sqlStatements) =? 0) eqn:Hlen.
  { cbn [fst snd]. split; [left; split; [discriminate | reflexivity] | left; reflexivity]. }
  assert (Hne : sqlStatements <> []).
  { intros ->. cbn in Hlen. discriminate. }
  destruct (util.ResolveAWSDBPassword _ _ _ _) as [awsPwd|err].
  2:{ cbn [fst snd]. split; [left; split; [discriminate | reflexivity] | left; reflexivity]. }
  match goal with
  | |- context [store.NewSQLClient ?o ?pg ?cl ?h ?u ?pw ?t ?ty ?db ?s] =>
      destruct (store.NewSQLClient o pg cl h u pw t ty db s) as [res a0] eqn:Hnew
  end.
  apply NewSQLClient_frame in Hnew. destruct Hnew as (Hs & Hsl & Hex & Hcl).
  destruct res as [auroraClient|err].
  2:{ cbn [fst snd]. split; [left; split; [discriminate | exact Hs] | exact Hcl]. }
  destruct (ping_attempts_loop a0) as (a1 & Hloop & Hex1 & Hs1 & Hcl1 & Hsl1).
  rewrite Hloop.
  rewrite exec_statements_counts. cbv zeta.
  destruct (0 <? _); cbn [fst snd Close sent closed].
  all: split; [right; split; [exact Hne | now rewrite Hs1, Hs] | right; reflexivity].
Qed.

(** Once the client exists, failing pings do not stop the call.  The loop
    that pings up to three times sleeps one second after a first failure and
    two after a second, and then the statements are sent even when all three
    pings failed: the error kept for the report is the function's own [err],
    which is nil there.  The result is nil exactly when no reply was a failure
    other than a duplicate entry; otherwise the message gives the number of
    statements that succeeded and the total. *)
Theorem ExecuteLoadDataSQL_after_connect sqlStatements cfg p a awsPwd :
  sqlStatements <> [] ->
  util.ResolveAWSDBPassword sm (config_load.AuroraSecretsManagerSecret cfg)
    (config_load.AuroraRegion cfg) (util.LoadAWSCredentialsFromVault TrimSpace p) = Ok awsPwd ->
  config_load.AuroraHost cfg <> EmptyString ->
  (forall dsn, sql_Open dsn = None) ->
  match pings a with Some _ :: _ => False | _ => True end ->
  let r := ExecuteLoadDataSQL TrimSpace sm sql_Open sqlStatements cfg p a in
  let n := length sqlStatements in
  let k := failures n (execs a) in
  sent (snd r) = sent a ++ sqlStatements
  /\ slept (snd r)
     = slept a ++ take (failing (take 3 (tail (pings a)))) [1000000000; 2000000000]
  /\ closed (snd r) = true
  /\ (fst (fst r) = None <-> k = 0%nat)
  /\ (forall err, fst (fst r) = Some err ->
        Error err = "some SQL statements failed: " +:+ itoa (Z.of_nat (n - k)) +:+ "/"
                    +:+ itoa (Z.of_nat n) +:+ " succeeded").
Proof.
  intros Hne Hpwd Hhost Hopen Hping r n k. subst r n k. unfold ExecuteLoadDataSQL.
  rewrite (length_nonzero _ Hne), Hpwd.
  match goal with
  | |- context [store.NewSQLClient ?o ?pg ?cl ?h ?u ?pw ?t ?ty ?db ?s] =>
      destruct (NewSQLClient_aurora h u pw t db s) as (sc & Hnew)
  end; [|exact Hopen|exact Hping|].
  { destruct (_ && _); [|exact Hhost].
    unfold Sprintf. cbv [run fst snd head tail verb_s verb_d].
    destruct (config_load.AuroraHost cfg); [contradiction | discriminate]. }
  rewrite Hnew.
  match goal with
  | |- context [ping_attempts 3 1 _ None None ?s] =>
      destruct (ping_attempts_loop s) as (a1 & Hloop & Hex1 & Hs1 & Hcl1 & Hsl1)
  end.
  cbn [pings execs sent slept closed] in *.
  rewrite Hloop, exec_statements_counts. cbv zeta. rewrite Hex1, Hs1, Hsl1.
  set (n := length sqlStatements). set (k := failures n (execs a)).
  pose proof (failures_le n (execs a)) as Hk. fold k in Hk.
  rewrite !Z.add_0_l.
  destruct (Z.ltb_spec 0 (Z.of_nat k)) as [Hpos|Hzero]; cbn [fst snd Close sent slept closed].
  - do 3 (split; [reflexivity|]). split.
    + split; [discriminate | lia].
    + intros err Herr. inversion Herr; subst err.
      unfold Errorf. cbv [run fst snd head tail verb_s verb_d wrapped Error].
      reflexivity.
  - do 3 (split; [reflexivity|]). split.
    + split; [lia | reflexivity].
    + intros err Herr. discriminate Herr.
Qed.

End Execute.

(** A server that answers the connecting ping and fails the three of the
    retry loop, then accepts one statement, rejects one for a duplicate
    entry and one for a missing role. *)
Definition flaky_aurora : Aurora :=
  mkAurora [None; Some (errorString "bad connection"); Some (errorString "bad connection");
            Some (errorString "bad connection")]
           [None; Some (errorString "Error 1062: Duplicate entry 'x' for key 'k'");
            Some (errorString "Error 63985: aurora_load_from_s3_role is not set")]
           [] [] false.

Definition aurora_cfg : config_load.Config :=
  config_load.mkConfig 1234 "fis_aggr" "localhost:3306" 3306 "" "" "fis" "test-bucket"
    "fis-migration" "us-east-1" "aurora.example" 3306 "admin" "rds!cluster" "us-east-1" "fis"
    true 16 8 100000 "," (String exporter.dquote EmptyString) 300 false.

Definition password_in_env : util.Proc :=
  util.mkProc (list_to_map [("FIS_AWS_SQL_PASSWORD", "secret")]%string) ∅.

Definition no_secrets : util.SecretsManager :=
  util.mkSecretsManager (Some (errorString "no session"))
                        (fun _ _ => Err (errorString "unreachable"))
                        (fun _ => Err (errorString "unreachable")).

Lemma ExecuteLoadDataSQL_after_connect_witness :
  let r := ExecuteLoadDataSQL (fun s => s) no_secrets (fun _ => None)
             ["a"; "b"; "c"]%string aurora_cfg password_in_env flaky_aurora in
  sent (snd r) = ["a"; "b"; "c"]%string
  /\ slept (snd r) = [1000000000; 2000000000]
  /\ exists err, fst (fst r) = Some err
                 /\ Error err = "some SQL statements failed: 2/3 succeeded"%string.
Proof.
  pose proof (ExecuteLoadDataSQL_after_connect (fun s => s) no_secrets (fun _ => None)
                ["a"; "b"; "c"]%string aurora_cfg password_in_env flaky_aurora "secret"
                ltac:(discriminate) eq_refl ltac:(discriminate) (fun _ => eq_refl) I)
    as (Hs & Hsl & _ & _ & Hmsg).
  cbv zeta. split; [exact Hs|]. split; [exact Hsl|].
  eexists. split; [reflexivity|]. vm_compute. reflexivity.
Defined.

End sqlgen_facts.
(** ** AWS credentials and the database password *)
Module util_facts.
Import util.

Lemma Getenv_Setenv_other key key' value p :
  key' <> key -> environ (Setenv key value p) !! key' = environ p !! key'.
Proof.
  intros Hne. unfold Setenv. destruct (has_nul value); [reflexivity|].
  cbn [environ]. apply lookup_insert_ne. congruence.
Qed.

Lemma files_Setenv key value p : files (Setenv key value p) = files p.
Proof. unfold Setenv. destruct (has_nul value); reflexivity. Qed.

Lemma Getenv_Setenv key value p :
  has_nul value = false -> Getenv key (Setenv key value p) = value.
Proof.
  intros H. unfold Setenv, Getenv. rewrite H. cbn [environ].
  now rewrite lookup_insert_eq.
Qed.

Section Credentials.

Variable TrimSpace : string -> string.

(** [LoadAWSCredentialsFromVault] fills gaps only.  A variable that holds a
    value keeps it, no variable other than the two keys is written, and no
    file changes.  A key that is empty while its vault file can be read gets
    the trimmed content of the file, also when the other key was set by
    hand: the pair may then come from two sources. *)
Theorem LoadAWSCredentialsFromVault_fills_gaps p :
  let p' := LoadAWSCredentialsFromVault TrimSpace p in
  files p' = files p
  /\ (forall key, key <> "AWS_ACCESS_KEY_ID"%string -> key <> "AWS_SECRET_ACCESS_KEY"%string ->
                  environ p' !! key = environ p !! key)
  /\ (forall key, Getenv key p <> EmptyString -> Getenv key p' = Getenv key p)
  /\ (forall content,
        Getenv "AWS_ACCESS_KEY_ID" p = EmptyString ->
        ReadFile DefaultAWSAuroraKeyFile p = Some content ->
        has_nul (TrimSpace content) = false ->
        Getenv "AWS_ACCESS_KEY_ID" p' = TrimSpace content)
  /\ (forall content,
        Getenv "AWS_SECRET_ACCESS_KEY" p = EmptyString ->
        ReadFile DefaultAWSAuroraPassFile p = Some content ->
        has_nul (TrimSpace content) = false ->
        Getenv "AWS_SECRET_ACCESS_KEY" p' = TrimSpace content).
Proof.
  intros p'. subst p'. unfold LoadAWSCredentialsFromVault.
  destruct (String.eqb_spec (Getenv "AWS_ACCESS_KEY_ID" p) "") as [Hak|Hak]; cbn [negb andb].
  - (* the access key is empty *)
    set (p1 := match ReadFile DefaultAWSAuroraKeyFile p with
               | Some content => Setenv "AWS_ACCESS_KEY_ID" (TrimSpace content) p
               | None => p
               end).
    assert (Hf1 : files p1 = files p).
    { unfold p1. destruct (ReadFile _ p); [apply files_Setenv | reflexivity]. }
    assert (Ho1 : forall key, key <> "AWS_ACCESS_KEY_ID"%string ->
                              environ p1 !! key = environ p !! key).
    { intros key Hne. unfold p1. destruct (ReadFile _ p); [|reflexivity].
      now apply Getenv_Setenv_other. }
    assert (Hsk1 : Getenv "AWS_SECRET_ACCESS_KEY" p1 = Getenv "AWS_SECRET_ACCESS_KEY" p).
    { unfold Getenv. rewrite Ho1 by discriminate. reflexivity. }
    rewrite Hsk1.
    destruct (String.eqb_spec (Getenv "AWS_SECRET_ACCESS_KEY" p) "") as [Hsk|Hsk].
    + set (p2 := match ReadFile DefaultAWSAuroraPassFile p1 with
                 | Some content => Setenv "AWS_SECRET_ACCESS_KEY" (TrimSpace content) p1
                 | None => p1
                 end).
      assert (Hf2 : files p2 = files p1).
      { unfold p2. destruct (ReadFile _ p1); [apply files_Setenv | reflexivity]. }
      assert (Ho2 : forall key, key <> "AWS_SECRET_ACCESS_KEY"%string ->
                                environ p2 !! key = environ p1 !! key).
      { intros key Hne. unfold p2. destruct (ReadFile _ p1); [|reflexivity].
        now apply Getenv_Setenv_other. }
      split; [congruence|]. split.
      { intros key H1 H2. rewrite Ho2, Ho1 by assumption. reflexivity. }
      split.
      { intros key Hset.
        assert (key <> "AWS_ACCESS_KEY_ID"%string) by congruence.
        assert (key <> "AWS_SECRET_ACCESS_KEY"%string) by congruence.
        unfold Getenv. rewrite Ho2, Ho1 by assumption. reflexivity. }
      split.
      { intros content _ Hread Hnul.
        unfold Getenv at 1. rewrite Ho2 by discriminate.
        unfold p1. rewrite Hread. apply (Getenv_Setenv _ _ _ Hnul). }
      intros content _ Hread Hnul. unfold p2.
      unfold ReadFile in *. rewrite Hf1, Hread. apply (Getenv_Setenv _ _ _ Hnul).
    + split; [exact Hf1|]. split.
      { intros key H1 _. apply Ho1, H1. }
      split.
      { intros key Hset.
        assert (key <> "AWS_ACCESS_KEY_ID"%string) by congruence.
        unfold Getenv. rewrite Ho1 by assumption. reflexivity. }
      split.
      { intros content _ Hread Hnul. unfold p1. rewrite Hread.
        apply (Getenv_Setenv _ _ _ Hnul). }
      intros content Hempty. contradiction.
  - (* the access key is set *)
    destruct (String.eqb_spec (Getenv "AWS_SECRET_ACCESS_KEY" p) "") as [Hsk|Hsk].
    + cbn [negb]. rewrite Hsk. cbn [String.eqb].
      set (p2 := match ReadFile DefaultAWSAuroraPassFile p with
                 | Some content => Setenv "AWS_SECRET_ACCESS_KEY" (TrimSpace content) p
                 | None => p
                 end).
      assert (Hf2 : files p2 = files p).
      { unfold p2. destruct (ReadFile _ p); [apply files_Setenv | reflexivity]. }
      assert (Ho2 : forall key, key <> "AWS_SECRET_ACCESS_KEY"%string ->
                                environ p2 !! key = environ p !! key).
      { intros key Hne. unfold p2. destruct (ReadFile _ p); [|reflexivity].
        now apply Getenv_Setenv_other. }
      split; [exact Hf2|]. split.
      { intros key _ H2. apply Ho2, H2. }
      split.
      { intros key Hset.
        assert (key <> "AWS_SECRET_ACCESS_KEY"%string) by congruence.
        unfold Getenv. rewrite Ho2 by assumption. reflexivity. }
      split.
      { intros content Hempty. contradiction. }
      intros content _ Hread Hnul. unfold p2. rewrite Hread.
      apply (Getenv_Setenv _ _ _ Hnul).
    + cbn [negb]. repeat split; auto; intros; contradiction.
Qed.

(** [LoadAWSCredentials], the variant that takes the command line's
    credentials.  When both keys are given they are exported; the session
    token is exported only when given, so a token already in the environment
    stays there beside the new keys.  When either key is missing, whatever
    was given is dropped and the call is [LoadAWSCredentialsFromVault]. *)
Theorem LoadAWSCredentials_flags accessKeyID secretAccessKey sessionToken p :
  let p' := LoadAWSCredentials TrimSpace accessKeyID secretAccessKey sessionToken p in
  (accessKeyID <> EmptyString -> secretAccessKey <> EmptyString ->
   has_nul accessKeyID = false -> has_nul secretAccessKey = false ->
   has_nul sessionToken = false ->
   Getenv "AWS_ACCESS_KEY_ID" p' = accessKeyID
   /\ Getenv "AWS_SECRET_ACCESS_KEY" p' = secretAccessKey
   /\ Getenv "AWS_SESSION_TOKEN" p'
      = (if String.eqb sessionToken "" then Getenv "AWS_SESSION_TOKEN" p else sessionToken))
  /\ (accessKeyID = EmptyString \/ secretAccessKey = EmptyString ->
      p' = LoadAWSCredentialsFromVault TrimSpace p).
Proof.
  intros p'. subst p'. unfold LoadAWSCredentials. split.
  - intros Hak Hsk Hn1 Hn2 Hn3.
    destruct (String.eqb_spec accessKeyID ""); [contradiction|].
    destruct (String.eqb_spec secretAccessKey ""); [contradiction|].
    cbn [negb andb].
    destruct (String.eqb_spec sessionToken "") as [->|Htok]; cbn [negb].
    + unfold Setenv, Getenv. rewrite Hn1, Hn2. cbn [environ].
      rewrite lookup_insert_eq.
      rewrite (lookup_insert_ne _ "AWS_SECRET_ACCESS_KEY"%string "AWS_ACCESS_KEY_ID"%string)
        by discriminate.
      rewrite lookup_insert_eq.
      rewrite !(lookup_insert_ne _ _ "AWS_SESSION_TOKEN"%string) by discriminate.
      auto.
    + unfold Setenv, Getenv. rewrite Hn1, Hn2, Hn3. cbn [environ].
      rewrite lookup_insert_eq.
      rewrite (lookup_insert_ne _ "AWS_SESSION_TOKEN"%string "AWS_SECRET_ACCESS_KEY"%string)
        by discriminate.
      rewrite lookup_insert_eq.
      rewrite (lookup_insert_ne _ "AWS_SESSION_TOKEN"%string "AWS_ACCESS_KEY_ID"%string)
        by discriminate.
      rewrite (lookup_insert_ne _ "AWS_SECRET_ACCESS_KEY"%string "AWS_ACCESS_KEY_ID"%string)
        by discriminate.
      rewrite lookup_insert_eq. auto.
  - intros [-> | ->]; cbn [String.eqb negb andb]; rewrite ?andb_false_r; reflexivity.
Qed.

End Credentials.

(** [ResolveAWSDBPassword]: the environment variable, when set, is the
    answer and Secrets Manager is not asked; a password from Secrets Manager
    is never empty.  So the call returns an empty password exactly when the
    variable is set and empty. *)
Theorem ResolveAWSDBPassword_sources sm secretName region p :
  (forall pwd, LookupEnv AWSSQLPasswordEnv p = Some pwd ->
               ResolveAWSDBPassword sm secretName region p = Ok pwd)
  /\ (forall pwd, LookupEnv AWSSQLPasswordEnv p = None ->
                  ResolveAWSDBPassword sm secretName region p = Ok pwd ->
                  pwd <> EmptyString /\ secretName <> EmptyString /\ region <> EmptyString
                  /\ NewSession sm = None
                  /\ exists secretString,
                       GetSecretValue sm region secretName = Ok (Some secretString)
                       /\ Unmarshal_password sm secretString = Ok pwd)
  /\ (ResolveAWSDBPassword sm secretName region p = Ok EmptyString
      <-> LookupEnv AWSSQLPasswordEnv p = Some EmptyString).
Proof.
  assert (Hsm : forall pwd, GetPasswordFromSecretsManager sm secretName region = Ok pwd ->
                  pwd <> EmptyString /\ secretName <> EmptyString /\ region <> EmptyString
                  /\ NewSession sm = None
                  /\ exists secretString,
                       GetSecretValue sm region secretName = Ok (Some secretString)
                       /\ Unmarshal_password sm secretString = Ok pwd).
  { intros pwd. unfold GetPasswordFromSecretsManager.
    destruct (String.eqb_spec secretName ""); [discriminate|].
    destruct (String.eqb_spec region ""); [discriminate|].
    destruct (NewSession sm); [discriminate|].
    destruct (GetSecretValue sm region secretName) as [[s|]|] eqn:Hget; try discriminate.
    destruct (Unmarshal_password sm s) as [password|] eqn:Hun; [|discriminate].
    destruct (String.eqb_spec password ""); [discriminate|].
    intros H. inversion H; subst. repeat split; auto. exists s. auto. }
  unfold ResolveAWSDBPassword. split; [|split].
  - intros pwd ->. reflexivity.
  - intros pwd ->. apply Hsm.
  - destruct (LookupEnv AWSSQLPasswordEnv p) as [v|].
    + split; intros H; inversion H; reflexivity.
    + split; [|discriminate]. intros H. apply Hsm in H. destruct H as [H _]. contradiction.
Qed.

(** The vault holds both keys, the environment only the access key; the
    secret key is read from its file and the access key is left alone. *)
Definition half_set : Proc :=
  mkProc (list_to_map [("AWS_ACCESS_KEY_ID", "AKIAFROMENV")]%string)
         (list_to_map [(DefaultAWSAuroraKeyFile, "AKIAFROMVAULT");
                       (DefaultAWSAuroraPassFile, "secretfromvault")]%string).

Lemma LoadAWSCredentialsFromVault_fills_gaps_witness :
  Getenv "AWS_ACCESS_KEY_ID" (LoadAWSCredentialsFromVault (fun s => s) half_set)
  = "AKIAFROMENV"%string
  /\ Getenv "AWS_SECRET_ACCESS_KEY" (LoadAWSCredentialsFromVault (fun s => s) half_set)
     = "secretfromvault"%string.
Proof.
  destruct (LoadAWSCredentialsFromVault_fills_gaps (fun s => s) half_set)
    as (_ & _ & Hkeep & _ & Hsk).
  split.
  - apply (Hkeep "AWS_ACCESS_KEY_ID"%string). discriminate.
  - apply (Hsk "secretfromvault"%string); reflexivity.
Defined.

(** New keys from the command line beside a session token that was in the
    environment before. *)
Definition stale_token : Proc :=
  mkProc (list_to_map [("AWS_SESSION_TOKEN", "oldtoken")]%string) ∅.

Lemma LoadAWSCredentials_flags_witness :
  Getenv "AWS_ACCESS_KEY_ID" (LoadAWSCredentials (fun s => s) "AKIANEW" "newsecret" "" stale_token)
  = "AKIANEW"%string
  /\ Getenv "AWS_SECRET_ACCESS_KEY"
            (LoadAWSCredentials (fun s => s) "AKIANEW" "newsecret" "" stale_token)
     = "newsecret"%string
  /\ Getenv "AWS_SESSION_TOKEN"
            (LoadAWSCredentials (fun s => s) "AKIANEW" "newsecret" "" stale_token)
     = "oldtoken"%string.
Proof.
  destruct (LoadAWSCredentials_flags (fun s => s) "AKIANEW" "newsecret" "" stale_token)
    as [H _].
  apply H; (discriminate || reflexivity).
Defined.

(** The variable set to the empty string: the password is empty. *)
Lemma ResolveAWSDBPassword_sources_witness :
  ResolveAWSDBPassword sqlgen_facts.no_secrets "rds!cluster" "us-east-1"
    (mkProc (list_to_map [(AWSSQLPasswordEnv, EmptyString)]) ∅) = Ok EmptyString.
Proof.
  apply (ResolveAWSDBPassword_sources sqlgen_facts.no_secrets "rds!cluster" "us-east-1"
           (mkProc (list_to_map [(AWSSQLPasswordEnv, EmptyString)]) ∅)).
  reflexivity.
Defined.

End util_facts.
(** ** The order of the files [ProcessSegments] returns *)
Module wave_facts.
Import migration scheduler_facts.

Lemma waves_run_orders outcome batches acc acc' :
  waves_run outcome batches acc acc' ->
  exists orders,
    Forall2 (fun order batch => Permutation order batch) orders batches
    /\ acc' = acc ++ flat_map (contribution outcome) (concat orders).
Proof.
  induction 1 as [acc|batch rest acc acc1 acc2 Hwave Hrest IH].
  - exists []. split; [constructor | now rewrite app_nil_r].
  - destruct Hwave as [order acc0 Hperm]. destruct IH as (orders & Hall & ->).
    exists (order :: orders). split; [constructor; assumption|].
    rewrite fold_finish. cbn [concat]. rewrite flat_map_app, app_assoc. reflexivity.
Qed.

Lemma singleton_orders (orders batches : list (list segment.Segment)) :
  Forall2 (fun order batch => Permutation order batch) orders batches ->
  Forall (fun batch => (1 <= length batch <= 1)%nat) batches ->
  orders = batches.
Proof.
  induction 1 as [|order batch orders batches Hperm Hall IH]; intros Hone; [reflexivity|].
  inversion Hone as [|? ? Hb Hrest]; subst. f_equal; [|apply IH, Hrest].
  destruct batch as [|s [|s' batch]]; cbn [length] in Hb; try lia.
  symmetry in Hperm. apply Permutation_length_1_inv in Hperm. exact Hperm.
Qed.

(** The files come wave by wave: those of the first [maxParallel]
    segments before those of the next, and within a wave in the order the
    goroutines finished, which the code does not fix.  With one segment at a
    time the result is in segment order. *)
Theorem ProcessSegments_wave_order outcome env segments cfg files :
  ProcessSegments outcome env segments cfg (files, None) ->
  let n := Z.to_nat (effective_maxParallel cfg) in
  (exists orders,
     Forall2 (fun order batch => Permutation order batch)
             orders (waves (length segments) n segments)
     /\ files = flat_map (contribution outcome) (concat orders))
  /\ (n = 1%nat -> files = flat_map (contribution outcome) segments).
Proof.
  intros H n. inversion H as [| |fs He Hu Hrun]; subst.
  apply waves_run_orders in Hrun. destruct Hrun as (orders & Hall & Hfiles).
  cbn [app] in Hfiles. fold n in Hall. split; [exists orders; auto|].
  intros Hn. rewrite Hfiles. f_equal.
  rewrite (singleton_orders _ _ Hall).
  - apply waves_concat; lia.
  - rewrite Hn. apply waves_sizes. lia.
Qed.

(** One segment at a time over the four segments of the test table, the
    second of which fails. *)
Definition one_at_a_time : config.Config :=
  config.mkConfig (config.TenantID fixtures.cfg) (config.TableName fixtures.cfg)
                  (config.MariaDBDatabase fixtures.cfg) (config.BatchSize fixtures.cfg)
                  (config.S3Bucket fixtures.cfg) (config.S3Prefix fixtures.cfg) 1.

Lemma ProcessSegments_wave_order_witness :
  exists files,
    ProcessSegments sample_outcome (mkEnv None None None) sample_segments one_at_a_time
                    (files, None)
    /\ files = flat_map (contribution sample_outcome) sample_segments.
Proof.
  destruct (waves_run_total sample_outcome
              (waves (length sample_segments) (Z.to_nat (effective_maxParallel one_at_a_time))
                     sample_segments) []) as [files Hrun].
  exists files.
  assert (H : ProcessSegments sample_outcome (mkEnv None None None) sample_segments
                one_at_a_time (files, None)).
  { apply all_waves_ran; [reflexivity | reflexivity | exact Hrun]. }
  split; [exact H|].
  apply (ProcessSegments_wave_order _ _ _ _ _ H). reflexivity.
Defined.

End wave_facts.
(** ** What an export that fails leaves in the store *)
Module session_facts.
Import world trace_facts query_facts stream_facts export_facts.

(** Two errors built from formats that differ are different. *)
Ltac differ H :=
  exfalso; cbv [Errorf run fst snd head tail verb_w verb_s verb_d wrapped] in H; discriminate H.

(** The loop left by a [return]: either a query failed, and the session is
    as the last part left it, or a part was refused, and [UploadPart] itself
    sent the abort. *)
Lemma export_batches_returned todo :
  forall cfg seg batchNum lastHash totalRows headerWritten stream w err stream' w'
         id key bodies evs,
  identifier (tableRef cfg) ->
  session id key bodies stream w evs ->
  0 <= batchNum -> (batchNum = 0 -> lastHash = EmptyString) ->
  Z.of_nat (length bodies) + Z.of_nat todo < 2 ^ 31 - 2 ->
  is_Some (uploads w !! id) ->
  exporter.export_batches todo cfg seg batchNum lastHash totalRows headerWritten stream w
  = ((exporter.Returned err, stream'), w') ->
  exists evs',
    trace w' = trace w ++ evs'
    /\ (((exists cause, err = Errorf "failed to query segment: %w" [AErr cause])
         /\ aborts id evs' = []
         /\ exists u, uploads w' !! id = Some u /\ up_key u = key)
        \/ ((exists cause,
               err = Errorf "failed to upload batch as multipart part: %w" [AErr cause])
            /\ exists ok, aborts id evs' = [ok])).
Proof.
  induction todo as [|todo IH];
    intros cfg seg batchNum lastHash totalRows headerWritten stream w err stream' w'
           id key bodies evs Hid Hs Hb0 Hb Hlen Hin H.
  - cbn in H. discriminate H.
  - cbn [exporter.export_batches] in H.
    assert (Hq : (if batchNum =? 0 then exporter.querySegmentInTx cfg seg "" w
                  else exporter.querySegmentInTx cfg seg lastHash w)
                 = exporter.querySegmentInTx cfg seg lastHash w).
    { destruct (Z.eqb_spec batchNum 0) as [H0|_]; [rewrite (Hb H0)|]; reflexivity. }
    rewrite Hq in H. clear Hq.
    destruct (exporter.querySegmentInTx cfg seg lastHash w) as [q w1] eqn:Hquery.
    apply (querySegmentInTx_cases _ _ _ _ _ _ Hid) in Hquery.
    destruct Hquery as ((Htx1 & _ & evs1 & Hstep1) & Hrows).
    assert (Hs1 : session id key bodies stream w1 (evs ++ evs1))
      by (eapply session_db_step; eauto).
    pose proof Hstep1 as (Hup1 & Hobj1 & _ & _ & Htab1 & Htr1 & Hq1).
    assert (Hin1 : is_Some (uploads w1 !! id)) by (now rewrite Hup1).
    destruct q as [rows|e].
    + destruct rows as [|r0 rows0] eqn:Hrw.
      { cbn [length Z.of_nat Z.eqb] in H. discriminate H. }
      rewrite <- Hrw in *.
      assert (Hne : rows <> []) by (rewrite Hrw; discriminate).
      replace (Z.of_nat (length rows) =? 0) with false in H
        by (symmetry; apply Z.eqb_neq; rewrite Hrw; cbn [length]; lia).
      destruct (rowsToCSVBytes_not_empty rows (negb headerWritten) Hne) as (csv & Hcsv & Hcsvne).
      rewrite Hcsv in H.
      destruct (s3.UploadPart stream csv w1) as [[uerr stream1] w2] eqn:Hup.
      eapply session_UploadPart in Hup; [|exact Hs1|lia].
      destruct Hup as (Hobj2 & evs2 & Hstep2 & Hcases).
      pose proof Hstep2 as (Htab2 & _ & Htx2 & Htr2).
      destruct Hcases as [(Hempty & _)|[(_ & -> & Hs2 & Hab2 & _ & Hin2)
                                       |(_ & _ & (e & ->) & _ & ok & Hab2)]];
        [contradiction | |].
      * destruct (Z.of_nat (length rows) <? config.BatchSize cfg); [discriminate H|].
        eapply IH in H;
          [|exact Hid|exact Hs2|lia|lia|rewrite length_app; cbn [length]; lia|exact Hin2].
        destruct H as (evs3 & Htr3 & Hcases).
        exists (evs1 ++ evs2 ++ evs3).
        split; [rewrite Htr3, Htr2, Htr1, !app_assoc; reflexivity|].
        rewrite !aborts_app, (proj2 (Hq1 id)), Hab2. cbn [app].
        destruct Hcases as [(Hc & Hab3 & Hu)|(Hc & Hab3)]; [left | right]; auto.
      * inversion H; subst. exists (evs1 ++ evs2).
        split; [rewrite Htr2, Htr1, app_assoc; reflexivity|].
        right. split; [eauto|]. exists ok.
        rewrite aborts_app, (proj2 (Hq1 id)), Hab2. reflexivity.
    + inversion H; subst. exists evs1. split; [exact Htr1|].
      left. split; [eauto|]. split; [apply (Hq1 id)|].
      destruct Hin1 as [u Hu]. exists u. split; [exact Hu|].
      destruct Hs1 as (_ & _ & _ & _ & _ & Hst). apply (Hst u Hu).
Qed.

(** The deferred abort of [ExportSegment] looks at the [err] that
    [BeginTx] assigned.  So a call that fails because the transaction could
    not be started sends an abort for the session it opened; a call that
    fails on a query or on the commit sends none, and the session stays in
    the store under the segment's key, with the parts received so far. *)
Theorem ExportSegment_session_after_error cfg seg w e :
  identifier (tableRef cfg) ->
  fst (exporter.ExportSegment cfg seg w) = Err e ->
  let w' := snd (exporter.ExportSegment cfg seg w) in
  let id := next_upload w in
  exists evs,
    trace w' = trace w ++ evs
    /\ (forall cause, e = Errorf "failed to start transaction: %w" [AErr cause] ->
                      exists ok, aborts id evs = [ok])
    /\ (forall cause,
          e = Errorf "failed to query segment: %w" [AErr cause]
          \/ e = Errorf "failed to commit transaction: %w" [AErr cause] ->
          aborts id evs = []
          /\ exists u, uploads w' !! id = Some u /\ up_key u = exporter.s3Key_of cfg seg).
Proof.
  intros Hid H w' id. subst w' id. unfold exporter.ExportSegment in *.
  set (key := exporter.s3Key_of cfg seg) in *.
  destruct (s3.NewMultipartUploadStream cfg key w) as [[stream|e0] w1] eqn:Hnew.
  2:{ apply NewMultipartUploadStream_cases in Hnew.
      destruct Hnew as (_ & _ & _ & _ & _ & Htr).
      cbn [fst snd] in *. inversion H; subst e. eexists. split; [exact Htr|].
      split; [intros cause Hc; differ Hc | intros cause [Hc|Hc]; differ Hc]. }
  apply session_created in Hnew. destruct Hnew as (Hs1 & Hobj1 & Hstep1 & Hup1).
  pose proof Hstep1 as (_ & _ & _ & Htr1).
  destruct (sql.BeginTx w1) as [[u0|e0] w2] eqn:Hbegin.
  2:{ apply BeginTx_cases in Hbegin. destruct Hbegin as ((evs2 & Hstep2) & _).
      pose proof Hstep2 as (Hup2 & _ & _ & _ & _ & Htr2 & Hq2).
      unfold exporter.deferred_abort, s3.Abort in *.
      destruct Hs1 as (Hsid & _).
      rewrite Hsid in *.
      destruct (s3.abortMultipartUpload (s3.bucket stream) (s3.key stream)
                  (Some (next_upload w)) w2) as [[] w3] eqn:Hab.
      apply abortMultipartUpload_cases in Hab.
      destruct Hab as (_ & ok & (_ & _ & _ & Htr3) & _).
      cbn [fst snd] in *. inversion H; subst e.
      exists ([EvCreateMultipartUpload key true] ++ evs2
              ++ [EvAbortMultipartUpload (next_upload w) ok]).
      split; [rewrite Htr3, Htr2, Htr1, <- !app_assoc; reflexivity|].
      split; [|intros cause [Hc|Hc]; differ Hc].
      intros _ _. exists ok.
      rewrite !aborts_app, (proj2 (Hq2 (next_upload w))).
      cbn. rewrite Nat.eqb_refl. reflexivity. }
  apply BeginTx_cases in Hbegin. destruct Hbegin as ((evs2 & Hstep2) & _).
  pose proof Hstep2 as (Hup2 & _ & _ & _ & _ & Htr2 & Hq2).
  assert (Hs2 : session (next_upload w) key [] stream w2 ([] ++ evs2))
    by (eapply session_db_step; eauto).
  assert (Hin2 : is_Some (uploads w2 !! next_upload w)) by (rewrite Hup2, Hup1; eauto).
  unfold exporter.export_body in *.
  destruct (exporter.export_batches (Z.to_nat exporter.maxBatches) cfg seg 0 "" 0 false
              stream w2) as [[exit_ stream3] w3] eqn:Hloop.
  assert (Hfinish : forall res (w4 : World) evs4,
            db_step w3 w4 evs4 -> forall evs3,
            trace w3 = trace w2 ++ evs3 ->
            aborts (next_upload w) evs3 = [] ->
            (exists u, uploads w3 !! next_upload w = Some u /\ up_key u = key) ->
            let r := (let '(_, w5) := sql.Rollback w4 in
                      let '(_, w6) := exporter.deferred_abort None stream3 w5 in
                      ((res : result (option exporter.CSVFile)), w6)) in
            exists evs,
              trace (snd r) = trace w ++ evs
              /\ aborts (next_upload w) evs = []
              /\ exists u, uploads (snd r) !! next_upload w = Some u /\ up_key u = key).
  { intros res w4 evs4 Hstep4 evs3 Htr3 Hab3 Hu3 r. subst r.
    destruct (sql.Rollback w4) as [[] w5] eqn:Hrb.
    apply Rollback_cases in Hrb. destruct Hrb as ((Hup5 & _ & _ & _ & _ & Htr5 & Hq5) & _).
    destruct Hstep4 as (Hup4 & _ & _ & _ & _ & Htr4 & Hq4).
    cbn [exporter.deferred_abort ret fst snd].
    exists ([EvCreateMultipartUpload key true] ++ evs2 ++ evs3 ++ evs4 ++ [EvRollback]).
    split; [rewrite Htr5, Htr4, Htr3, Htr2, Htr1, <- !app_assoc; reflexivity|].
    split.
    - rewrite !aborts_app, (proj2 (Hq2 _)), Hab3, (proj2 (Hq4 _)). reflexivity.
    - rewrite Hup5, Hup4. exact Hu3. }
  destruct exit_ as [err|batchNum totalRows].
  - (* a [return] inside the loop *)
    eapply export_batches_returned in Hloop;
      [|exact Hid|exact Hs2|lia|reflexivity
       |unfold exporter.maxBatches; rewrite Z2Nat.id by lia; cbn [length]; lia|exact Hin2].
    destruct Hloop as (evs3 & Htr3 & Hcases).
    destruct (sql.Rollback w3) as [[] w5] eqn:Hrb.
    cbn [exporter.deferred_abort ret fst snd] in *. inversion H; subst e.
    destruct Hcases as [((c & ->) & Hab3 & Hu3)|((c & ->) & ok & Hab3)].
    + destruct (Hfinish (Err (Errorf "failed to query segment: %w" [AErr c])) w3 []
                  (db_step_refl w3) evs3 Htr3 Hab3 Hu3) as (evs & Htr & Hab & Hu).
      rewrite Hrb in Htr, Hu. cbn [exporter.deferred_abort ret fst snd] in Htr, Hu.
      exists evs. split; [exact Htr|]. split; [intros cause Hc; differ Hc|].
      intros cause _. split; [exact Hab | exact Hu].
    + apply Rollback_cases in Hrb.
      destruct Hrb as ((_ & _ & _ & _ & _ & Htr5 & _) & _).
      eexists. split; [rewrite Htr5, Htr3, Htr2, Htr1, <- !app_assoc; reflexivity|].
      split; [intros cause Hc; differ Hc | intros cause [Hc|Hc]; differ Hc].
  - (* the loop ended *)
    eapply export_batches_ended in Hloop;
      [|exact Hid|exact Hs2|lia|reflexivity
       |unfold exporter.maxBatches; rewrite Z2Nat.id by lia; cbn [length]; lia].
    destruct Hloop as (evs3 & Htr3 & _ & _ & _ & Hs3 & Hab3 & _ & Hin3).
    specialize (Hin3 Hin2).
    assert (Hu3 : exists u, uploads w3 !! next_upload w = Some u /\ up_key u = key).
    { destruct Hin3 as [u Hu]. exists u. split; [exact Hu|].
      destruct Hs3 as (_ & _ & _ & _ & _ & Hst). apply (Hst u Hu). }
    destruct (sql.Commit w3) as [[cerr|] w4] eqn:Hcommit.
    + apply Commit_cases in Hcommit. destruct Hcommit as ((evs4 & Hstep4) & _).
      destruct (Hfinish (Err (Errorf "failed to commit transaction: %w" [AErr cerr])) w4 evs4
                  Hstep4 evs3 Htr3 Hab3 Hu3) as (evs & Htr & Hab & Hu).
      destruct (sql.Rollback w4) as [[] w5] eqn:Hrb.
      cbn [exporter.deferred_abort ret fst snd] in *. inversion H; subst e.
      exists evs. split; [exact Htr|]. split; [intros cause Hc; differ Hc|].
      intros cause _. split; [exact Hab | exact Hu].
    + destruct (totalRows =? 0).
      * destruct (s3.Abort stream3 w4) as [[] w5].
        destruct (sql.Rollback w5) as [[] w6].
        cbn [exporter.deferred_abort ret fst snd] in H. discriminate H.
      * destruct (s3.Complete stream3 w4) as [[cerr|] w5] eqn:Hcomplete.
        2:{ destruct (sql.Rollback w5) as [[] w6].
            cbn [exporter.deferred_abort ret fst snd] in H. discriminate H. }
        apply Commit_cases in Hcommit.
        destruct Hcommit as ((evs4 & (_ & _ & _ & _ & _ & Htr4 & _)) & _).
        apply Complete_cases in Hcomplete.
        destruct Hcomplete as (evs5 & (_ & _ & _ & Htr5) & _).
        destruct (sql.Rollback w5) as [[] w6] eqn:Hrb.
        apply Rollback_cases in Hrb.
        destruct Hrb as ((_ & _ & _ & _ & _ & Htr6 & _) & _).
        cbn [exporter.deferred_abort ret fst snd] in *. inversion H; subst e.
        eexists.
        split; [rewrite Htr6, Htr5, Htr4, Htr3, Htr2, Htr1, <- !app_assoc; reflexivity|].
        split; [intros cause Hc; differ Hc | intros cause [Hc|Hc]; differ Hc].
Qed.

(** The query for the second page fails: the session is still in the store,
    and no abort was sent for it. *)
Lemma ExportSegment_session_after_error_witness :
  exists evs u,
    trace (snd (exporter.ExportSegment fixtures.cfg_small fixtures.seg_00_40
                                       fixtures.second_query_fails)) = evs
    /\ aborts 0 evs = []
    /\ uploads (snd (exporter.ExportSegment fixtures.cfg_small fixtures.seg_00_40
                                            fixtures.second_query_fails)) !! 0%nat = Some u.
Proof.
  destruct (ExportSegment_session_after_error fixtures.cfg_small fixtures.seg_00_40
              fixtures.second_query_fails
              (Errorf "failed to query segment: %w"
                 [AErr (wrapError "query failed: invalid connection"
                                  (errorString "invalid connection"))])
              identifier_fixture ltac:(vm_compute; reflexivity))
    as (evs & Htr & _ & Hleak).
  destruct (Hleak _ (or_introl eq_refl)) as (Hab & u & Hu & _).
  exists evs, u. cbn [fixtures.second_query_fails trace app next_upload] in *. auto.
Defined.

End session_facts.
